(** * MakeTStructureMesh: the T-structure shell mesh of content/shells/tstructmesh.py

    A shallow embedding of the Python procedure [MakeTStructureMesh] and the
    properties of the mesh it builds.

    Modelling conventions.
    - Python [int] is [Z].  [range(a,b)] is the list [a; a+1; ...; b-1].
    - Coordinates are Python floats; each is modelled by the exact rational
      in [Q] of which it is the rounding.  [a/b] on ints is true division
      and raises [ZeroDivisionError] when [b = 0].  Only equalities and order
      facts that rounding to the nearest double preserves are stated about
      coordinates.
    - [int(ny1/2)] truncates the float quotient toward zero: [Z.quot ny1 2].
    - [pids[p]] is Python list indexing: a negative [p] counts from the end
      and an index outside [-len, len) raises [IndexError].
    - The netgen mesh is the record [Mesh] of what has been added to it; the
      handle returned by [mesh.Add(MeshPoint ...)] is the number of points
      the mesh held before the call.
    - The procedure runs in a state-and-exception monad over [frame]: the
      mesh under construction, the local list [pids], and a ghost trace
      [reads] of every index used to subscript [pids].
    - [mesh.Compress()] and [ng.Mesh(mesh)] belong to the libraries and are
      not modelled: the result is the netgen mesh as it was filled. *)

From Stdlib Require Import String ZArith QArith List Bool Lia Permutation.
Import ListNotations.
Local Open Scope Z_scope.

(** ** Data model *)

Record Pnt := mkPnt { pnt_x : Q; pnt_y : Q; pnt_z : Q }.

Definition PointIndex := nat.

Record FaceDescriptor := mkFaceDescriptor { surfnr : Z; domin : Z; bc : Z }.

Record Element2D := mkElement2D { el2_index : Z; el2_vertices : list PointIndex }.

Record Element1D := mkElement1D { el1_vertices : list PointIndex; el1_index : Z }.

Record Mesh := mkMesh {
  dim : Z;
  points : list Pnt;
  facedescriptors : list FaceDescriptor;
  elements2D : list Element2D;
  elements1D : list Element1D;
  cd2names : list (Z * string)
}.

Definition empty_mesh : Mesh := mkMesh 0 [] [] [] [] [].

Record frame := mkFrame {
  mesh : Mesh;
  pids : list PointIndex;
  reads : list Z
}.

Definition init : frame := mkFrame empty_mesh [] [].

(** ** The state-and-exception monad *)

Inductive exn := ZeroDivisionError | IndexError.

Inductive result (A : Type) :=
| Ok (a : A)
| Raise (e : exn).
Arguments Ok {A} a.
Arguments Raise {A} e.

Definition M (A : Type) : Type := frame -> result (A * frame).

Definition ret {A} (a : A) : M A := fun s => Ok (a, s).

Definition raise {A} (e : exn) : M A := fun _ => Raise e.

Definition bind {A B} (c : M A) (k : A -> M B) : M B :=
  fun s => match c s with
           | Ok (a, s') => k a s'
           | Raise e => Raise e
           end.

Declare Scope py_scope.
Delimit Scope py_scope with py.
Notation "x <- c ;; k" := (bind c (fun x => k))
  (at level 61, c at next level, right associativity) : py_scope.
Notation "c ;; k" := (bind c (fun _ => k))
  (at level 61, right associativity) : py_scope.
Local Open Scope py_scope.

Definition modify (f : frame -> frame) : M unit := fun s => Ok (tt, f s).

Fixpoint for_each (l : list Z) (body : Z -> M unit) : M unit :=
  match l with
  | [] => ret tt
  | i :: l' => body i ;; for_each l' body
  end.

Fixpoint mapM {A B} (f : A -> M B) (l : list A) : M (list B) :=
  match l with
  | [] => ret []
  | a :: l' => b <- f a ;; bs <- mapM f l' ;; ret (b :: bs)
  end.

(** ** Python primitives *)

Definition range (lo hi : Z) : list Z :=
  map (fun k => lo + Z.of_nat k) (seq 0 (Z.to_nat (hi - lo))).

Definition truediv (a b : Z) : M Q :=
  if b =? 0 then raise ZeroDivisionError
  else ret (inject_Z a / inject_Z b)%Q.

Definition int_half (n : Z) : Z := Z.quot n 2.

Definition log_read (p : Z) (s : frame) : frame :=
  mkFrame (mesh s) (pids s) (reads s ++ [p]).

Definition getitem (p : Z) : M PointIndex := fun s =>
  let n := Z.of_nat (length (pids s)) in
  let k := if p <? 0 then p + n else p in
  if (0 <=? k) && (k <? n) then
    match nth_error (pids s) (Z.to_nat k) with
    | Some h => Ok (h, log_read p s)
    | None => Raise IndexError
    end
  else Raise IndexError.

Definition pids_append (h : PointIndex) : M unit :=
  modify (fun s => mkFrame (mesh s) (pids s ++ [h]) (reads s)).

(** ** The netgen mesh interface used by the procedure *)

Definition on_mesh (f : Mesh -> Mesh) (s : frame) : frame :=
  mkFrame (f (mesh s)) (pids s) (reads s).

Definition set_dim (d : Z) (m : Mesh) : Mesh :=
  mkMesh d (points m) (facedescriptors m) (elements2D m) (elements1D m) (cd2names m).

Definition push_points (ps : list Pnt) (m : Mesh) : Mesh :=
  mkMesh (dim m) (points m ++ ps) (facedescriptors m) (elements2D m) (elements1D m) (cd2names m).

Definition push_fd (fd : FaceDescriptor) (m : Mesh) : Mesh :=
  mkMesh (dim m) (points m) (facedescriptors m ++ [fd]) (elements2D m) (elements1D m) (cd2names m).

Definition push_el2 (es : list Element2D) (m : Mesh) : Mesh :=
  mkMesh (dim m) (points m) (facedescriptors m) (elements2D m ++ es) (elements1D m) (cd2names m).

Definition push_el1 (es : list Element1D) (m : Mesh) : Mesh :=
  mkMesh (dim m) (points m) (facedescriptors m) (elements2D m) (elements1D m ++ es) (cd2names m).

Definition push_name (k : Z) (name : string) (m : Mesh) : Mesh :=
  mkMesh (dim m) (points m) (facedescriptors m) (elements2D m) (elements1D m)
         (cd2names m ++ [(k, name)]).

Definition AddMeshPoint (p : Pnt) : M PointIndex := fun s =>
  Ok (length (points (mesh s)), on_mesh (push_points [p]) s).

Definition AddFaceDescriptor (fd : FaceDescriptor) : M unit :=
  modify (on_mesh (push_fd fd)).

Definition AddElement2D (e : Element2D) : M unit :=
  modify (on_mesh (push_el2 [e])).

Definition AddElement1D (e : Element1D) : M unit :=
  modify (on_mesh (push_el1 [e])).

Definition SetCD2Name (k : Z) (name : string) : M unit :=
  modify (on_mesh (push_name k name)).

(** ** The procedure, phase by phase in source order *)

(** The [quads] branch of a cell:
    [elpids = [pids[p] for p in pnum]; mesh.Add(meshing.Element2D(1,elpids))] *)
Definition add_quad (pnum : list Z) : M unit :=
  elpids <- mapM getitem pnum ;;
  AddElement2D (mkElement2D 1 elpids).

(** The other branch: both handle lists are read, then both triangles are
    added. *)
Definition add_triangles (pnum1 pnum2 : list Z) : M unit :=
  elpids1 <- mapM getitem pnum1 ;;
  elpids2 <- mapM getitem pnum2 ;;
  AddElement2D (mkElement2D 1 elpids1) ;;
  AddElement2D (mkElement2D 1 elpids2).

(** [mesh.Add(meshing.Element1D([pids[a], pids[b]], index=idx))] *)
Definition add_seg (a b idx : Z) : M unit :=
  elpids <- mapM getitem [a; b] ;;
  AddElement1D (mkElement1D elpids idx).

(** Lines 10-13. *)
Definition upper_points (nx1 ny1 : Z) : M unit :=
  for_each (range 0 (ny1 + 1)) (fun i =>
    for_each (range 0 (nx1 + 1)) (fun j =>
      x <- truediv j nx1 ;;
      y <- truediv i ny1 ;;
      h <- AddMeshPoint (mkPnt x y 0%Q) ;;
      pids_append h)).

(** Lines 15-18. *)
Definition lower_points (nx2 ny2 : Z) (ratio : Q) : M unit :=
  for_each (range 1 (ny2 + 1)) (fun i =>
    for_each (range 0 (nx2 + 1)) (fun j =>
      x <- truediv j nx2 ;;
      z <- truediv (- i) ny2 ;;
      h <- AddMeshPoint (mkPnt x ratio z) ;;
      pids_append h)).

(** The cell body shared by lines 25-36 and 58-69, for a grid of [nx]
    subdivisions per row. *)
Definition cell (quads : bool) (nx base : Z) : M unit :=
  if quads then
    add_quad [base; base + 1; base + nx + 2; base + nx + 1]
  else
    add_triangles [base; base + 1; base + nx + 1]
                  [base + 1; base + nx + 2; base + nx + 1].

(** Lines 22-36. *)
Definition upper_faces (quads : bool) (nx1 ny1 : Z) : M unit :=
  for_each (range 0 ny1) (fun i =>
    for_each (range 0 nx1) (fun j =>
      cell quads nx1 (i * (nx1 + 1) + j))).

(** Lines 40-53. *)
Definition connector (quads : bool) (nx1 ny1 base1 : Z) : M unit :=
  for_each (range 0 nx1) (fun j =>
    let base := int_half ny1 * (nx1 + 1) + j in
    if quads then
      add_quad [base; base + 1; base1 + j + 1; base1 + j]
    else
      add_triangles [base; base + 1; base + nx1 + 1]
                    [base + 1; base + nx1 + 2; base + nx1 + 1]).

(** Lines 55-69. *)
Definition lower_faces (quads : bool) (nx2 ny2 base1 : Z) : M unit :=
  for_each (range 1 ny2) (fun i =>
    for_each (range 0 nx2) (fun j =>
      cell quads nx2 (base1 + (i - 1) * (nx2 + 1) + j))).

(** Lines 71-78. *)
Definition upper_boundary (nx1 ny1 : Z) : M unit :=
  for_each (range 0 nx1) (fun i => add_seg i (i + 1) 1) ;;
  for_each (range 0 ny1) (fun i =>
    add_seg (i * (nx1 + 1) + nx1) ((i + 1) * (nx1 + 1) + nx1) 2) ;;
  for_each (range 0 nx1) (fun i =>
    add_seg (ny1 * (nx1 + 1) + i + 1) (ny1 * (nx1 + 1) + i) 3) ;;
  for_each (range 0 ny1) (fun i =>
    add_seg ((i + 1) * (nx1 + 1)) (i * (nx1 + 1)) 4).

(** Lines 80-92. *)
Definition lower_boundary (nx1 ny1 nx2 ny2 base1 : Z) : M unit :=
  for_each (range 0 nx2) (fun i =>
    add_seg (int_half ny1 * (nx1 + 1) + i) (int_half ny1 * (nx1 + 1) + i + 1) 5) ;;
  add_seg (int_half ny1 * (nx1 + 1)) base1 6 ;;
  for_each (range 0 (ny2 - 1)) (fun i =>
    add_seg (i * (nx2 + 1) + base1) ((i + 1) * (nx2 + 1) + base1) 6) ;;
  for_each (range 0 nx2) (fun i =>
    add_seg ((ny2 - 1) * (nx2 + 1) + i + base1)
            ((ny2 - 1) * (nx2 + 1) + i + 1 + base1) 7) ;;
  for_each (range 0 (ny2 - 1)) (fun i =>
    add_seg ((i + 1) * (nx2 + 1) + nx2 + base1) (i * (nx2 + 1) + nx2 + base1) 8) ;;
  add_seg (base1 + nx1) (int_half ny1 * (nx1 + 1) + nx1) 8.

(** Lines 94-102. *)
Definition name_boundaries : M unit :=
  SetCD2Name 1 "upbottom"%string ;;
  SetCD2Name 2 "upright"%string ;;
  SetCD2Name 3 "uptop"%string ;;
  SetCD2Name 4 "upleft"%string ;;
  SetCD2Name 5 "interface"%string ;;
  SetCD2Name 6 "downright"%string ;;
  SetCD2Name 7 "downbottom"%string ;;
  SetCD2Name 8 "downleft"%string.

(** Lines 9-18: both grids of points. *)
Definition all_points (nx1 ny1 nx2 ny2 : Z) (ratio : Q) : M unit :=
  upper_points nx1 ny1 ;;
  lower_points nx2 ny2 ratio.

(** Lines 20-102: everything after the points; [ratio] does not occur. *)
Definition connectivity (quads : bool) (nx1 ny1 nx2 ny2 : Z) : M unit :=
  AddFaceDescriptor (mkFaceDescriptor 1 1 1) ;;
  upper_faces quads nx1 ny1 ;;
  let base1 := (ny1 + 1) * (nx1 + 1) in
  connector quads nx1 ny1 base1 ;;
  lower_faces quads nx2 ny2 base1 ;;
  upper_boundary nx1 ny1 ;;
  lower_boundary nx1 ny1 nx2 ny2 base1 ;;
  name_boundaries.

Definition MakeTStructureMesh_body
    (quads : bool) (nx1 ny1 nx2 ny2 : Z) (ratio : Q) : M unit :=
  modify (on_mesh (set_dim 3)) ;;
  all_points nx1 ny1 nx2 ny2 ratio ;;
  connectivity quads nx1 ny1 nx2 ny2.

(** The frame in which the points are placed: a fresh mesh with [dim = 3]. *)
Definition start : frame := on_mesh (set_dim 3) init.

(** The frame in which a call ends, or the exception it raises. *)
Definition exec (quads : bool) (nx1 ny1 nx2 ny2 : Z) (ratio : Q) : result frame :=
  match MakeTStructureMesh_body quads nx1 ny1 nx2 ny2 ratio init with
  | Ok (_, s) => Ok s
  | Raise e => Raise e
  end.

(** The mesh a call returns, or the exception it raises. *)
Definition MakeTStructureMesh
    (quads : bool) (nx1 ny1 nx2 ny2 : Z) (ratio : Q) : result Mesh :=
  match exec quads nx1 ny1 nx2 ny2 ratio with
  | Ok s => Ok (mesh s)
  | Raise e => Raise e
  end.

(** ** The frames the phases produce, in closed form *)

Definition face_of (pnum : list Z) : Element2D :=
  mkElement2D 1 (map Z.to_nat pnum).

Definition seg_of (ab : Z * Z * Z) : Element1D :=
  let '(a, b, idx) := ab in mkElement1D [Z.to_nat a; Z.to_nat b] idx.

Definition seg_reads (ab : Z * Z * Z) : list Z :=
  let '(a, b, _) := ab in [a; b].

Definition add_points (ps : list Pnt) (s : frame) : frame :=
  mkFrame (push_points ps (mesh s))
          (pids s ++ seq (length (points (mesh s))) (length ps))
          (reads s).

Definition add_faces (fs : list (list Z)) (s : frame) : frame :=
  mkFrame (push_el2 (map face_of fs) (mesh s)) (pids s) (reads s ++ concat fs).

Definition add_segs (ss : list (Z * Z * Z)) (s : frame) : frame :=
  mkFrame (push_el1 (map seg_of ss) (mesh s)) (pids s)
          (reads s ++ flat_map seg_reads ss).

Definition pnt_upper (nx1 ny1 i j : Z) : Pnt :=
  mkPnt (inject_Z j / inject_Z nx1)%Q (inject_Z i / inject_Z ny1)%Q 0%Q.

Definition pnt_lower (nx2 ny2 : Z) (ratio : Q) (i j : Z) : Pnt :=
  mkPnt (inject_Z j / inject_Z nx2)%Q ratio (inject_Z (- i) / inject_Z ny2)%Q.

Definition upper_point_list (nx1 ny1 : Z) : list Pnt :=
  flat_map (fun i => flat_map (fun j => [pnt_upper nx1 ny1 i j]) (range 0 (nx1 + 1)))
           (range 0 (ny1 + 1)).

Definition lower_point_list (nx2 ny2 : Z) (ratio : Q) : list Pnt :=
  flat_map (fun i => flat_map (fun j => [pnt_lower nx2 ny2 ratio i j]) (range 0 (nx2 + 1)))
           (range 1 (ny2 + 1)).

Definition cell_faces (quads : bool) (nx base : Z) : list (list Z) :=
  if quads then [[base; base + 1; base + nx + 2; base + nx + 1]]
  else [[base; base + 1; base + nx + 1]; [base + 1; base + nx + 2; base + nx + 1]].

Definition upper_face_list (quads : bool) (nx1 ny1 : Z) : list (list Z) :=
  flat_map (fun i => flat_map (fun j => cell_faces quads nx1 (i * (nx1 + 1) + j))
                              (range 0 nx1))
           (range 0 ny1).

Definition connector_faces (quads : bool) (nx1 ny1 base1 j : Z) : list (list Z) :=
  let base := int_half ny1 * (nx1 + 1) + j in
  if quads then [[base; base + 1; base1 + j + 1; base1 + j]]
  else [[base; base + 1; base + nx1 + 1]; [base + 1; base + nx1 + 2; base + nx1 + 1]].

Definition connector_face_list (quads : bool) (nx1 ny1 base1 : Z) : list (list Z) :=
  flat_map (connector_faces quads nx1 ny1 base1) (range 0 nx1).

Definition lower_face_list (quads : bool) (nx2 ny2 base1 : Z) : list (list Z) :=
  flat_map (fun i => flat_map (fun j => cell_faces quads nx2 (base1 + (i - 1) * (nx2 + 1) + j))
                              (range 0 nx2))
           (range 1 ny2).

Definition tag1 (nx1 : Z) : list (Z * Z * Z) :=
  flat_map (fun i => [(i, i + 1, 1)]) (range 0 nx1).

Definition tag2 (nx1 ny1 : Z) : list (Z * Z * Z) :=
  flat_map (fun i => [(i * (nx1 + 1) + nx1, (i + 1) * (nx1 + 1) + nx1, 2)]) (range 0 ny1).

Definition tag3 (nx1 ny1 : Z) : list (Z * Z * Z) :=
  flat_map (fun i => [(ny1 * (nx1 + 1) + i + 1, ny1 * (nx1 + 1) + i, 3)]) (range 0 nx1).

Definition tag4 (nx1 ny1 : Z) : list (Z * Z * Z) :=
  flat_map (fun i => [((i + 1) * (nx1 + 1), i * (nx1 + 1), 4)]) (range 0 ny1).

Definition tag5 (nx1 ny1 nx2 : Z) : list (Z * Z * Z) :=
  flat_map (fun i => [(int_half ny1 * (nx1 + 1) + i, int_half ny1 * (nx1 + 1) + i + 1, 5)])
           (range 0 nx2).

Definition tag6 (nx1 ny1 nx2 ny2 base1 : Z) : list (Z * Z * Z) :=
  (int_half ny1 * (nx1 + 1), base1, 6) ::
  flat_map (fun i => [(i * (nx2 + 1) + base1, (i + 1) * (nx2 + 1) + base1, 6)])
           (range 0 (ny2 - 1)).

Definition tag7 (nx2 ny2 base1 : Z) : list (Z * Z * Z) :=
  flat_map (fun i => [((ny2 - 1) * (nx2 + 1) + i + base1,
                       (ny2 - 1) * (nx2 + 1) + i + 1 + base1, 7)])
           (range 0 nx2).

Definition tag8 (nx1 ny1 nx2 ny2 base1 : Z) : list (Z * Z * Z) :=
  flat_map (fun i => [((i + 1) * (nx2 + 1) + nx2 + base1, i * (nx2 + 1) + nx2 + base1, 8)])
           (range 0 (ny2 - 1))
  ++ [(base1 + nx1, int_half ny1 * (nx1 + 1) + nx1, 8)].

Definition boundary_names : list (Z * string) :=
  [(1, "upbottom"%string); (2, "upright"%string); (3, "uptop"%string);
   (4, "upleft"%string); (5, "interface"%string); (6, "downright"%string);
   (7, "downbottom"%string); (8, "downleft"%string)].

Definition push_names (ns : list (Z * string)) (m : Mesh) : Mesh :=
  mkMesh (dim m) (points m) (facedescriptors m) (elements2D m) (elements1D m)
         (cd2names m ++ ns).

Definition base1_of (nx1 ny1 : Z) : Z := (ny1 + 1) * (nx1 + 1).

(** The frame a completed call ends in. *)
Definition final_frame (quads : bool) (nx1 ny1 nx2 ny2 : Z) (ratio : Q) : frame :=
  let base1 := base1_of nx1 ny1 in
  on_mesh (push_names boundary_names)
   (add_segs (tag8 nx1 ny1 nx2 ny2 base1)
   (add_segs (tag7 nx2 ny2 base1)
   (add_segs (tag6 nx1 ny1 nx2 ny2 base1)
   (add_segs (tag5 nx1 ny1 nx2)
   (add_segs (tag4 nx1 ny1)
   (add_segs (tag3 nx1 ny1)
   (add_segs (tag2 nx1 ny1)
   (add_segs (tag1 nx1)
   (add_faces (lower_face_list quads nx2 ny2 base1)
   (add_faces (connector_face_list quads nx1 ny1 base1)
   (add_faces (upper_face_list quads nx1 ny1)
   (on_mesh (push_fd (mkFaceDescriptor 1 1 1))
   (add_points (lower_point_list nx2 ny2 ratio)
   (add_points (upper_point_list nx1 ny1) start)))))))))))))).

(** ** Reading [pids] once it holds every handle *)

(** [pids] holds the handles [0 .. N-1], in order. *)
Definition full_pids (N : nat) (s : frame) : Prop := pids s = seq 0 N.

Definition in_bounds (N : nat) (p : Z) : Prop := 0 <= p < Z.of_nat N.

Definition log_reads (ps : list Z) (s : frame) : frame :=
  mkFrame (mesh s) (pids s) (reads s ++ ps).

(** ** Reading a mesh *)

Definition has_tag (k : Z) (e : Element1D) : bool := el1_index e =? k.

(** The 1D elements that carry tag [k], in the order they were added. *)
Definition tag_elements (k : Z) (m : Mesh) : list Element1D :=
  filter (has_tag k) (elements1D m).

Definition tagged (k : Z) (l : list (Z * Z * Z)) : Prop :=
  Forall (fun x => snd x = k) l.

(** Faces emitted per cell. *)
Definition per_cell (quads : bool) : Z := if quads then 1 else 2.

(** ** Chains of boundary segments *)

(** The edges of the walk through the vertices [vs]. *)
Fixpoint path_edges (vs : list PointIndex) : list (PointIndex * PointIndex) :=
  match vs with
  | a :: (b :: _) as t => (a, b) :: path_edges t
  | _ => []
  end.

(** A segment lies on an edge, in either direction. *)
Definition on_edge (e : Element1D) (ab : PointIndex * PointIndex) : Prop :=
  el1_vertices e = [fst ab; snd ab] \/ el1_vertices e = [snd ab; fst ab].

(** The segments, in the order given, are the edges of a walk through the
    pairwise distinct points [vs]. *)
Definition walk (vs : list PointIndex) (segs : list Element1D) : Prop :=
  NoDup vs /\ Forall2 on_edge segs (path_edges vs).

Definition ordered_chain (segs : list Element1D) : Prop :=
  exists vs, walk vs segs.

(** The segments form, in some order, one connected chain that visits no
    point twice. *)
Definition simple_chain (segs : list Element1D) : Prop :=
  exists segs', Permutation segs segs' /\ ordered_chain segs'.

(** ** Frames that differ in their points only *)

Definition with_points (ps : list Pnt) (s : frame) : frame :=
  mkFrame (mkMesh (dim (mesh s)) ps (facedescriptors (mesh s))
                  (elements2D (mesh s)) (elements1D (mesh s)) (cd2names (mesh s)))
          (pids s) (reads s).

Definition lift_frame {A} (f : frame -> frame) (r : result (A * frame))
  : result (A * frame) :=
  match r with
  | Ok (a, s) => Ok (a, f s)
  | Raise e => Raise e
  end.

(** A computation that neither reads nor writes the coordinates. *)
Definition points_blind {A} (c : M A) : Prop :=
  forall ps s, c (with_points ps s) = lift_frame (with_points ps) (c s).

(** Two points that agree on x and z and carry the two ratios as y. *)
Definition y_moved (r1 r2 : Q) (p1 p2 : Pnt) : Prop :=
  pnt_x p1 = pnt_x p2 /\ pnt_z p1 = pnt_z p2 /\ pnt_y p1 = r1 /\ pnt_y p2 = r2.

(** Two frames equal in everything but the points placed after [pre],
    which differ in y only. *)
Definition sim (r1 r2 : Q) (pre : list Pnt) (s1 s2 : frame) : Prop :=
  exists t1 t2,
    points (mesh s1) = pre ++ t1 /\
    s2 = with_points (pre ++ t2) s1 /\
    Forall2 (y_moved r1 r2) t1 t2.

Definition res_sim {A} (R : frame -> frame -> Prop) (x y : result (A * frame)) : Prop :=
  match x, y with
  | Ok (a, s1), Ok (b, s2) => a = b /\ R s1 s2
  | Raise e1, Raise e2 => e1 = e2
  | _, _ => False
  end.

(** ** Exceptions a computation can raise *)

(** Whatever the frame, [c] raises no exception other than [e]. *)
Definition raises_only {A} (e : exn) (c : M A) : Prop :=
  forall s e', c s = Raise e' -> e' = e.

(** The parameters for which a division of the upper point loop has a zero
    divisor: the loop body runs ([nx1, ny1 >= 0]) and one count is zero. *)
Definition zero_div_upper (nx1 ny1 : Z) : bool :=
  (0 <=? nx1) && (0 <=? ny1) && ((nx1 =? 0) || (ny1 =? 0)).


(** ** Quads and their triangles *)

(** The two triangles the cell body emits for the corners of a quad, in
    the order it emits them: corners 1, 2, 4 and corners 2, 3, 4. *)
Definition split_quad (e : Element2D) : list Element2D :=
  match el2_vertices e with
  | [a; b; c; d] =>
      [mkElement2D (el2_index e) [a; b; d]; mkElement2D (el2_index e) [b; c; d]]
  | _ => []
  end.

(** ** Where the tagged boundaries lie *)

(** The line a point of the boundary tagged [k] lies on: the four edges of
    the unit square at [z = 0] for tags 1..4, the seam row for tag 5, the
    two sides [x = 0] and [x = 1] of the lower plate for tags 6 and 8, and
    its far edge [z = -1] for tag 7. *)
Definition on_boundary (ny1 : Z) (ratio : Q) (k : Z) (p : Pnt) : Prop :=
  match k with
  | 1 => (pnt_y p == 0 /\ pnt_z p == 0)%Q
  | 2 => (pnt_x p == 1 /\ pnt_z p == 0)%Q
  | 3 => (pnt_y p == 1 /\ pnt_z p == 0)%Q
  | 4 => (pnt_x p == 0 /\ pnt_z p == 0)%Q
  | 5 => (pnt_y p == inject_Z (int_half ny1) / inject_Z ny1 /\ pnt_z p == 0)%Q
  | 6 => (pnt_x p == 0 /\ pnt_z p <= 0)%Q
  | 7 => (pnt_y p == ratio /\ pnt_z p == - (1))%Q
  | 8 => (pnt_x p == 1 /\ pnt_z p <= 0)%Q
  | _ => False
  end.

(** Each endpoint of the segment is a point of [pts] on the line of the
    segment's tag. *)
Definition lies_on_its_boundary (pts : list Pnt) (ny1 : Z) (ratio : Q)
    (e : Element1D) : Prop :=
  Forall (fun v => exists p, nth_error pts v = Some p /\
                             on_boundary ny1 ratio (el1_index e) p)
         (el1_vertices e).

(** ** Segments as edges of faces *)

(** The directed edges around a face, in the order of its vertices. *)
Definition cyclic_edges (vs : list PointIndex) : list (PointIndex * PointIndex) :=
  match vs with
  | [] => []
  | v :: _ => path_edges (vs ++ [v])
  end.

(** The segment is an edge of the face, in the direction of the face's
    vertex cycle. *)
Definition runs_along (s : Element1D) (f : Element2D) : Prop :=
  exists ab, In ab (cyclic_edges (el2_vertices f)) /\ el1_vertices s = [fst ab; snd ab].

(** The segment is an edge of the face, against the face's vertex cycle. *)
Definition runs_against (s : Element1D) (f : Element2D) : Prop :=
  exists ab, In ab (cyclic_edges (el2_vertices f)) /\ el1_vertices s = [snd ab; fst ab].

(** The segment bounds some face of [fs]: along it for the tags of the upper
    plate and the interface (1..5), against it for those of the lower plate
    (6..8). *)
Definition bounds_a_face (fs : list Element2D) (s : Element1D) : Prop :=
  exists f, In f fs /\
            if el1_index s <=? 5 then runs_along s f else runs_against s f.

(** [p] with its y-coordinate overwritten by [r]. *)
Definition set_y (r : Q) (p : Pnt) : Pnt := mkPnt (pnt_x p) r (pnt_z p).

(** [m] with the y-coordinate of every point from handle [base1] on
    overwritten by [r]; the points before [base1] and everything that is not
    a point are kept. *)
Definition with_lower_y (base1 : Z) (r : Q) (m : Mesh) : Mesh :=
  mkMesh (dim m)
         (firstn (Z.to_nat base1) (points m)
          ++ map (set_y r) (skipn (Z.to_nat base1) (points m)))
         (facedescriptors m) (elements2D m) (elements1D m) (cd2names m).

(** ** Lists and ranges *)

Lemma range_length lo hi : length (range lo hi) = Z.to_nat (hi - lo).
Proof. unfold range. now rewrite length_map, length_seq. Qed.

Lemma range_In lo hi i : In i (range lo hi) <-> lo <= i < hi.
Proof.
  unfold range. rewrite in_map_iff. split.
  - intros (k & <- & Hk). apply in_seq in Hk. lia.
  - intros H. exists (Z.to_nat (i - lo)). split; [lia|]. apply in_seq. lia.
Qed.

Lemma range_nth_error lo hi k :
  (k < Z.to_nat (hi - lo))%nat ->
  nth_error (range lo hi) k = Some (lo + Z.of_nat k).
Proof.
  intros H. unfold range.
  rewrite nth_error_map, nth_error_seq.
  destruct (Nat.ltb_spec k (Z.to_nat (hi - lo))); [reflexivity | lia].
Qed.

Lemma flat_map_Forall {A B} (P : B -> Prop) (g : A -> list B) (l : list A) :
  (forall a, In a l -> Forall P (g a)) -> Forall P (flat_map g l).
Proof.
  induction l as [|a l IH]; intros H; simpl; [constructor|].
  apply Forall_app. split; [apply H; now left | apply IH; intros; apply H; now right].
Qed.

Lemma flat_map_grid_nth_error {A B C} (f : A -> B -> C) (l1 : list A) (l2 : list B)
      (i j : nat) (a : A) (b : B) :
  nth_error l1 i = Some a -> nth_error l2 j = Some b ->
  nth_error (flat_map (fun x => flat_map (fun y => [f x y]) l2) l1)
            (i * length l2 + j) = Some (f a b).
Proof.
  assert (Hrow : forall x, flat_map (fun y => [f x y]) l2 = map (f x) l2).
  { intros x. induction l2 as [|y l2 IH]; simpl; [reflexivity | now rewrite IH]. }
  revert i. induction l1 as [|x l1 IH]; intros i Hi Hj.
  - destruct i; discriminate.
  - assert (Hjlt : (j < length l2)%nat) by (apply nth_error_Some; congruence).
    destruct i as [|i]; simpl in *.
    + injection Hi as ->. rewrite nth_error_app1 by (rewrite Hrow, length_map; lia).
      rewrite Hrow, nth_error_map, Hj. reflexivity.
    + rewrite nth_error_app2 by (rewrite Hrow, length_map; lia).
      rewrite Hrow, length_map.
      replace (length l2 + i * length l2 + j - length l2)%nat with (i * length l2 + j)%nat by lia.
      now apply IH.
Qed.

(** ** Running the monad *)

Lemma bind_Ok {A B} (c : M A) (k : A -> M B) s a s' :
  c s = Ok (a, s') -> bind c k s = k a s'.
Proof. intros H. unfold bind. now rewrite H. Qed.

Lemma bind_Raise {A B} (c : M A) (k : A -> M B) s e :
  c s = Raise e -> bind c k s = Raise e.
Proof. intros H. unfold bind. now rewrite H. Qed.

Section Loops.
Context {E : Type}.
Variable upd : list E -> frame -> frame.
Variable Inv : frame -> Prop.
Hypothesis upd_nil : forall s, upd [] s = s.
Hypothesis upd_app : forall a b s, upd (a ++ b) s = upd b (upd a s).
Hypothesis upd_Inv : forall a s, Inv s -> Inv (upd a s).

(** A loop whose body appends [g i] to the frame appends them all, in
    order. *)
Lemma for_each_upd (g : Z -> list E) (body : Z -> M unit) (l : list Z) :
  (forall i s, In i l -> Inv s -> body i s = Ok (tt, upd (g i) s)) ->
  forall s, Inv s -> for_each l body s = Ok (tt, upd (flat_map g l) s).
Proof.
  induction l as [|i l IH]; intros Hb s Hs; simpl.
  - unfold ret. now rewrite upd_nil.
  - rewrite (bind_Ok _ _ s tt (upd (g i) s)) by (apply Hb; simpl; auto).
    rewrite IH; [now rewrite upd_app | | now apply upd_Inv].
    intros j s' Hj. apply Hb. now right.
Qed.
End Loops.

Lemma add_points_nil s : add_points [] s = s.
Proof.
  destruct s as [[d ps fd e2 e1 nm] pd rd]. unfold add_points, push_points. simpl.
  now rewrite !app_nil_r.
Qed.

Lemma add_points_app a b s : add_points (a ++ b) s = add_points b (add_points a s).
Proof.
  destruct s as [[d ps fd e2 e1 nm] pd rd]. unfold add_points, push_points. simpl.
  rewrite !length_app, seq_app, !app_assoc. 
  now rewrite (Nat.add_comm (length ps)).
Qed.

Lemma add_faces_nil s : add_faces [] s = s.
Proof.
  destruct s as [[d ps fd e2 e1 nm] pd rd]. unfold add_faces, push_el2. simpl.
  now rewrite !app_nil_r.
Qed.

Lemma add_faces_app a b s : add_faces (a ++ b) s = add_faces b (add_faces a s).
Proof.
  destruct s as [[d ps fd e2 e1 nm] pd rd]. unfold add_faces, push_el2. simpl.
  now rewrite map_app, concat_app, !app_assoc.
Qed.

Lemma add_segs_nil s : add_segs [] s = s.
Proof.
  destruct s as [[d ps fd e2 e1 nm] pd rd]. unfold add_segs, push_el1. simpl.
  now rewrite !app_nil_r.
Qed.

Lemma add_segs_app a b s : add_segs (a ++ b) s = add_segs b (add_segs a s).
Proof.
  destruct s as [[d ps fd e2 e1 nm] pd rd]. unfold add_segs, push_el1. simpl.
  now rewrite map_app, flat_map_app, !app_assoc.
Qed.

Lemma add_segs_cons x l s : add_segs (x :: l) s = add_segs l (add_segs [x] s).
Proof. apply (add_segs_app [x] l). Qed.

(** *** Points *)

Lemma truediv_Ok a b s :
  b <> 0 -> truediv a b s = Ok ((inject_Z a / inject_Z b)%Q, s).
Proof.
  intros H. unfold truediv. destruct (Z.eqb_spec b 0); [contradiction | reflexivity].
Qed.

Lemma truediv_zero a s : truediv a 0 s = Raise ZeroDivisionError.
Proof. reflexivity. Qed.

Lemma add_point_Ok p s :
  (h <- AddMeshPoint p ;; pids_append h) s = Ok (tt, add_points [p] s).
Proof. reflexivity. Qed.

Lemma upper_points_Ok nx1 ny1 s :
  nx1 <> 0 -> ny1 <> 0 ->
  upper_points nx1 ny1 s = Ok (tt, add_points (upper_point_list nx1 ny1) s).
Proof.
  intros Hx Hy. unfold upper_points, upper_point_list.
  apply (for_each_upd add_points (fun _ => True));
    auto using add_points_nil, add_points_app.
  intros i s1 _ _.
  apply (for_each_upd add_points (fun _ => True));
    auto using add_points_nil, add_points_app.
  intros j s2 _ _.
  rewrite (bind_Ok _ _ _ _ _ (truediv_Ok j nx1 s2 Hx)).
  rewrite (bind_Ok _ _ _ _ _ (truediv_Ok i ny1 s2 Hy)).
  apply add_point_Ok.
Qed.

Lemma lower_points_Ok nx2 ny2 ratio s :
  nx2 <> 0 -> ny2 <> 0 ->
  lower_points nx2 ny2 ratio s = Ok (tt, add_points (lower_point_list nx2 ny2 ratio) s).
Proof.
  intros Hx Hy. unfold lower_points, lower_point_list.
  apply (for_each_upd add_points (fun _ => True));
    auto using add_points_nil, add_points_app.
  intros i s1 _ _.
  apply (for_each_upd add_points (fun _ => True));
    auto using add_points_nil, add_points_app.
  intros j s2 _ _.
  rewrite (bind_Ok _ _ _ _ _ (truediv_Ok j nx2 s2 Hx)).
  rewrite (bind_Ok _ _ _ _ _ (truediv_Ok (- i) ny2 s2 Hy)).
  apply add_point_Ok.
Qed.

Lemma all_points_Ok nx1 ny1 nx2 ny2 ratio s :
  nx1 <> 0 -> ny1 <> 0 -> nx2 <> 0 -> ny2 <> 0 ->
  all_points nx1 ny1 nx2 ny2 ratio s
  = Ok (tt, add_points (lower_point_list nx2 ny2 ratio)
              (add_points (upper_point_list nx1 ny1) s)).
Proof.
  intros. unfold all_points.
  rewrite (bind_Ok _ _ _ _ _ (upper_points_Ok nx1 ny1 s ltac:(assumption) ltac:(assumption))).
  now apply lower_points_Ok.
Qed.

(** *** Elements: reading [pids] once it holds every handle *)

Lemma getitem_Ok N p s :
  full_pids N s -> in_bounds N p ->
  getitem p s = Ok (Z.to_nat p, log_read p s).
Proof.
  unfold full_pids, in_bounds, getitem. intros Hs Hp. rewrite Hs, length_seq.
  destruct (Z.ltb_spec p 0); [lia|].
  destruct (Z.leb_spec 0 p); [|lia].
  destruct (Z.ltb_spec p (Z.of_nat N)); [|lia]. simpl.
  rewrite nth_error_seq.
  destruct (Nat.ltb_spec (Z.to_nat p) N); [reflexivity | lia].
Qed.

Lemma mapM_getitem_Ok N ps : forall s,
  full_pids N s -> Forall (in_bounds N) ps ->
  mapM getitem ps s = Ok (map Z.to_nat ps, log_reads ps s).
Proof.
  induction ps as [|p ps IH]; intros s Hs Hps; simpl.
  - unfold ret, log_reads. destruct s; simpl. now rewrite app_nil_r.
  - inversion Hps as [|? ? Hp Hps']; subst.
    rewrite (bind_Ok _ _ _ _ _ (getitem_Ok N p s Hs Hp)).
    rewrite (bind_Ok _ _ _ _ _ (IH (log_read p s) Hs Hps')).
    unfold ret, log_reads, log_read. simpl. now rewrite <- app_assoc.
Qed.

Lemma add_quad_Ok N pnum s :
  full_pids N s -> Forall (in_bounds N) pnum ->
  add_quad pnum s = Ok (tt, add_faces [pnum] s).
Proof.
  intros Hs Hp. unfold add_quad.
  rewrite (bind_Ok _ _ _ _ _ (mapM_getitem_Ok N pnum s Hs Hp)).
  unfold AddElement2D, modify, add_faces, log_reads, on_mesh. simpl.
  now rewrite app_nil_r.
Qed.

Lemma add_seg_Ok N a b idx s :
  full_pids N s -> in_bounds N a -> in_bounds N b ->
  add_seg a b idx s = Ok (tt, add_segs [(a, b, idx)] s).
Proof.
  intros Hs Ha Hb. unfold add_seg.
  rewrite (bind_Ok _ _ _ _ _ (mapM_getitem_Ok N [a; b] s Hs (Forall_cons _ Ha (Forall_cons _ Hb (Forall_nil _))))).
  reflexivity.
Qed.

Lemma full_pids_add_faces N fs s : full_pids N s -> full_pids N (add_faces fs s).
Proof. auto. Qed.

Lemma full_pids_add_segs N ss s : full_pids N s -> full_pids N (add_segs ss s).
Proof. auto. Qed.

Lemma full_pids_on_mesh N f s : full_pids N s -> full_pids N (on_mesh f s).
Proof. auto. Qed.

Lemma face_loop N (g : Z -> list (list Z)) (body : Z -> M unit) (l : list Z) :
  (forall i s, In i l -> full_pids N s -> body i s = Ok (tt, add_faces (g i) s)) ->
  forall s, full_pids N s -> for_each l body s = Ok (tt, add_faces (flat_map g l) s).
Proof.
  apply (for_each_upd add_faces (full_pids N));
    auto using add_faces_nil, add_faces_app, full_pids_add_faces.
Qed.

Lemma seg_loop N (g : Z -> list (Z * Z * Z)) (body : Z -> M unit) (l : list Z) :
  (forall i s, In i l -> full_pids N s -> body i s = Ok (tt, add_segs (g i) s)) ->
  forall s, full_pids N s -> for_each l body s = Ok (tt, add_segs (flat_map g l) s).
Proof.
  apply (for_each_upd add_segs (full_pids N));
    auto using add_segs_nil, add_segs_app, full_pids_add_segs.
Qed.

Lemma add_triangles_Ok N f1 f2 s :
  full_pids N s -> Forall (in_bounds N) f1 -> Forall (in_bounds N) f2 ->
  add_triangles f1 f2 s = Ok (tt, add_faces [f1; f2] s).
Proof.
  intros Hs H1 H2. unfold add_triangles.
  rewrite (bind_Ok _ _ _ _ _ (mapM_getitem_Ok N f1 s Hs H1)).
  rewrite (bind_Ok _ _ _ _ _ (mapM_getitem_Ok N f2 (log_reads f1 s) Hs H2)).
  unfold AddElement2D, modify, bind, add_faces, log_reads, on_mesh, push_el2.
  cbn [mesh pids reads dim points facedescriptors elements2D elements1D cd2names
       map concat].
  now rewrite app_nil_r, <- !app_assoc.
Qed.

Lemma cell_Ok N quads nx base s :
  full_pids N s ->
  in_bounds N base -> in_bounds N (base + 1) ->
  in_bounds N (base + nx + 2) -> in_bounds N (base + nx + 1) ->
  cell quads nx base s = Ok (tt, add_faces (cell_faces quads nx base) s).
Proof.
  intros Hs H0 H1 H2 H3. unfold cell, cell_faces. destruct quads.
  - apply (add_quad_Ok N); auto.
  - apply (add_triangles_Ok N); auto.
Qed.

Lemma int_half_bounds n : 1 <= n -> 0 <= int_half n <= n - 1.
Proof.
  intros H. unfold int_half. rewrite Z.quot_div_nonneg by lia.
  split; [apply Z.div_pos; lia|].
  assert (n / 2 < n) by (apply Z.div_lt; lia). lia.
Qed.

Lemma int_half_even n : 0 <= n -> Z.even n = true -> 2 * int_half n = n.
Proof.
  intros H He. unfold int_half. rewrite Z.quot_div_nonneg by lia.
  apply Zeven_bool_iff, Zeven_div2 in He. rewrite Z.div2_div in He. lia.
Qed.

Lemma on_mesh_push_names_nil s : on_mesh (push_names []) s = s.
Proof.
  destruct s as [[d ps fd e2 e1 nm] pd rd]. unfold on_mesh, push_names. simpl.
  now rewrite app_nil_r.
Qed.

Lemma on_mesh_push_name k name l s :
  on_mesh (push_name k name) (on_mesh (push_names l) s)
  = on_mesh (push_names (l ++ [(k, name)])) s.
Proof.
  unfold on_mesh, push_name, push_names.
  cbn [mesh pids reads cd2names dim points facedescriptors elements2D elements1D].
  now rewrite app_assoc.
Qed.

Lemma upper_point_list_length nx1 ny1 :
  0 <= nx1 -> 0 <= ny1 ->
  Z.of_nat (length (upper_point_list nx1 ny1)) = (ny1 + 1) * (nx1 + 1).
Proof.
  intros Hx Hy. unfold upper_point_list.
  rewrite (flat_map_constant_length (c := Z.to_nat (nx1 + 1))).
  - rewrite range_length. nia.
  - intros i _. rewrite (flat_map_constant_length (c := 1%nat)) by reflexivity.
    rewrite range_length. lia.
Qed.

Lemma lower_point_list_length nx2 ny2 ratio :
  0 <= nx2 -> 0 <= ny2 ->
  Z.of_nat (length (lower_point_list nx2 ny2 ratio)) = ny2 * (nx2 + 1).
Proof.
  intros Hx Hy. unfold lower_point_list.
  rewrite (flat_map_constant_length (c := Z.to_nat (nx2 + 1))).
  - rewrite range_length. nia.
  - intros i _. rewrite (flat_map_constant_length (c := 1%nat)) by reflexivity.
    rewrite range_length. lia.
Qed.

(** ** A call on a well-formed parameter set completes *)

Section WellFormed.
Variables (quads : bool) (nx1 ny1 nx2 ny2 : Z) (ratio : Q).
Hypothesis Hnx1 : 1 <= nx1.
Hypothesis Hny1 : 1 <= ny1.
Hypothesis Hnx2 : 1 <= nx2.
Hypothesis Hny2 : 1 <= ny2.
(** The lower block has a point at offset [nx1]. *)
Hypothesis Hfit : nx1 < ny2 * (nx2 + 1).

Let base1 := base1_of nx1 ny1.
Let N := Z.to_nat (base1 + ny2 * (nx2 + 1)).

Lemma N_val : Z.of_nat N = base1 + ny2 * (nx2 + 1).
Proof. unfold N, base1, base1_of. nia. Qed.

Lemma base1_val : base1 = (ny1 + 1) * (nx1 + 1).
Proof. reflexivity. Qed.

Lemma points_full s :
  pids s = [] -> points (mesh s) = [] ->
  full_pids N (add_points (lower_point_list nx2 ny2 ratio)
                 (add_points (upper_point_list nx1 ny1) s)).
Proof.
  intros Hp Hm. unfold full_pids, add_points. simpl. rewrite Hp, Hm. simpl.
  change (length (upper_point_list nx1 ny1)) with (0 + length (upper_point_list nx1 ny1))%nat at 2.
  rewrite <- seq_app. f_equal. unfold N.
  pose proof (upper_point_list_length nx1 ny1).
  pose proof (lower_point_list_length nx2 ny2 ratio).
  unfold base1, base1_of. lia.
Qed.

Ltac bounds :=
  unfold in_bounds; rewrite N_val, base1_val;
  pose proof (int_half_bounds ny1 Hny1); nia.

Ltac all_bounds := repeat (apply Forall_cons; [bounds|]); apply Forall_nil.

Lemma upper_faces_Ok s :
  full_pids N s ->
  upper_faces quads nx1 ny1 s = Ok (tt, add_faces (upper_face_list quads nx1 ny1) s).
Proof.
  unfold upper_faces, upper_face_list. apply (face_loop N).
  intros i s1 Hi Hs1. apply (face_loop N); [|assumption].
  intros j s2 Hj Hs2. apply range_In in Hi, Hj.
  apply (cell_Ok N); auto; bounds.
Qed.

Lemma connector_Ok s :
  full_pids N s ->
  connector quads nx1 ny1 base1 s
  = Ok (tt, add_faces (connector_face_list quads nx1 ny1 base1) s).
Proof.
  unfold connector, connector_face_list. apply (face_loop N).
  intros j s1 Hj Hs1. apply range_In in Hj.
  unfold connector_faces. destruct quads.
  - apply (add_quad_Ok N); auto. all_bounds.
  - apply (add_triangles_Ok N); auto; all_bounds.
Qed.

Lemma lower_faces_Ok s :
  full_pids N s ->
  lower_faces quads nx2 ny2 base1 s
  = Ok (tt, add_faces (lower_face_list quads nx2 ny2 base1) s).
Proof.
  unfold lower_faces, lower_face_list. apply (face_loop N).
  intros i s1 Hi Hs1. apply (face_loop N); [|assumption].
  intros j s2 Hj Hs2. apply range_In in Hi, Hj.
  apply (cell_Ok N); auto; bounds.
Qed.

Ltac seg_phase :=
  match goal with
  | |- for_each _ _ _ = _ =>
      apply (seg_loop N); [|auto using full_pids_add_segs];
      let i := fresh "i" in let Hi := fresh "Hi" in
      intros i ? Hi ?; apply range_In in Hi;
      apply (add_seg_Ok N); [assumption | bounds | bounds]
  | |- add_seg _ _ _ _ = _ =>
      apply (add_seg_Ok N); [auto using full_pids_add_segs | bounds | bounds]
  end.

Lemma upper_boundary_Ok s :
  full_pids N s ->
  upper_boundary nx1 ny1 s
  = Ok (tt, add_segs (tag4 nx1 ny1) (add_segs (tag3 nx1 ny1)
             (add_segs (tag2 nx1 ny1) (add_segs (tag1 nx1) s)))).
Proof.
  intros Hs. unfold upper_boundary.
  erewrite bind_Ok by (unfold tag1; seg_phase).
  erewrite bind_Ok by (unfold tag2; seg_phase).
  erewrite bind_Ok by (unfold tag3; seg_phase).
  unfold tag4; seg_phase.
Qed.

Lemma lower_boundary_Ok s :
  full_pids N s ->
  lower_boundary nx1 ny1 nx2 ny2 base1 s
  = Ok (tt, add_segs (tag8 nx1 ny1 nx2 ny2 base1) (add_segs (tag7 nx2 ny2 base1)
             (add_segs (tag6 nx1 ny1 nx2 ny2 base1) (add_segs (tag5 nx1 ny1 nx2) s)))).
Proof.
  intros Hs. unfold lower_boundary.
  erewrite bind_Ok by (unfold tag5; seg_phase).
  unfold tag6, tag8.
  rewrite add_segs_app, (add_segs_cons (int_half ny1 * (nx1 + 1), base1, 6)).
  erewrite bind_Ok by seg_phase.
  erewrite bind_Ok by seg_phase.
  erewrite bind_Ok by (unfold tag7; seg_phase).
  erewrite bind_Ok by seg_phase.
  seg_phase.
Qed.

Lemma name_boundaries_Ok s :
  name_boundaries s = Ok (tt, on_mesh (push_names boundary_names) s).
Proof.
  unfold name_boundaries.
  do 7 (erewrite bind_Ok by reflexivity).
  unfold SetCD2Name, modify.
  rewrite <- (on_mesh_push_names_nil s) at 1.
  rewrite !on_mesh_push_name. reflexivity.
Qed.

Lemma connectivity_Ok s :
  full_pids N s ->
  connectivity quads nx1 ny1 nx2 ny2 s
  = Ok (tt,
     on_mesh (push_names boundary_names)
     (add_segs (tag8 nx1 ny1 nx2 ny2 base1) (add_segs (tag7 nx2 ny2 base1)
     (add_segs (tag6 nx1 ny1 nx2 ny2 base1) (add_segs (tag5 nx1 ny1 nx2)
     (add_segs (tag4 nx1 ny1) (add_segs (tag3 nx1 ny1)
     (add_segs (tag2 nx1 ny1) (add_segs (tag1 nx1)
     (add_faces (lower_face_list quads nx2 ny2 base1)
     (add_faces (connector_face_list quads nx1 ny1 base1)
     (add_faces (upper_face_list quads nx1 ny1)
     (on_mesh (push_fd (mkFaceDescriptor 1 1 1)) s))))))))))))).
Proof.
  intros Hs. unfold connectivity.
  erewrite bind_Ok by reflexivity.
  erewrite bind_Ok by (apply upper_faces_Ok; auto using full_pids_on_mesh).
  erewrite bind_Ok
    by (apply connector_Ok; auto using full_pids_on_mesh, full_pids_add_faces).
  erewrite bind_Ok
    by (apply lower_faces_Ok; auto using full_pids_on_mesh, full_pids_add_faces).
  erewrite bind_Ok
    by (apply upper_boundary_Ok; auto 6 using full_pids_on_mesh, full_pids_add_faces).
  erewrite bind_Ok
    by (apply lower_boundary_Ok;
        auto 10 using full_pids_on_mesh, full_pids_add_faces, full_pids_add_segs).
  apply name_boundaries_Ok.
Qed.

(** The procedure completes and ends in [final_frame]. *)
Lemma exec_Ok :
  exec quads nx1 ny1 nx2 ny2 ratio = Ok (final_frame quads nx1 ny1 nx2 ny2 ratio).
Proof.
  unfold exec, MakeTStructureMesh_body.
  erewrite bind_Ok by reflexivity.
  erewrite bind_Ok by (apply all_points_Ok; lia).
  rewrite connectivity_Ok by (apply points_full; reflexivity).
  reflexivity.
Qed.

Lemma MakeTStructureMesh_Ok :
  MakeTStructureMesh quads nx1 ny1 nx2 ny2 ratio
  = Ok (mesh (final_frame quads nx1 ny1 nx2 ny2 ratio)).
Proof. unfold MakeTStructureMesh. now rewrite exec_Ok. Qed.
End WellFormed.

(** ** The connectivity phase is blind to the coordinates *)

Lemma with_points_self s : with_points (points (mesh s)) s = s.
Proof. now destruct s as [[d ps fd e2 e1 nm] pd rd]. Qed.

Lemma blind_ret {A} (a : A) : points_blind (ret a).
Proof. intros ps s. reflexivity. Qed.

Lemma blind_bind {A B} (c : M A) (k : A -> M B) :
  points_blind c -> (forall a, points_blind (k a)) -> points_blind (bind c k).
Proof.
  intros Hc Hk ps s. unfold bind. rewrite Hc.
  destruct (c s) as [[a s']|e]; simpl; [apply Hk | reflexivity].
Qed.

Lemma blind_for_each (body : Z -> M unit) (l : list Z) :
  (forall i, points_blind (body i)) -> points_blind (for_each l body).
Proof.
  intros Hb. induction l as [|i l IH]; simpl.
  - apply blind_ret.
  - apply blind_bind; auto.
Qed.

Lemma blind_getitem p : points_blind (getitem p).
Proof.
  intros ps s. unfold getitem. simpl.
  destruct (_ && _); [|reflexivity].
  destruct (nth_error _ _); reflexivity.
Qed.

Lemma blind_mapM_getitem l : points_blind (mapM getitem l).
Proof.
  induction l as [|p l IH]; simpl.
  - apply blind_ret.
  - apply blind_bind; [apply blind_getitem|]. intros h.
    apply blind_bind; [apply IH|]. intros hs. apply blind_ret.
Qed.

Lemma blind_add_quad pnum : points_blind (add_quad pnum).
Proof.
  apply blind_bind; [apply blind_mapM_getitem|]. intros hs ps s. reflexivity.
Qed.

Lemma blind_add_triangles pnum1 pnum2 : points_blind (add_triangles pnum1 pnum2).
Proof.
  apply blind_bind; [apply blind_mapM_getitem|]. intros hs1.
  apply blind_bind; [apply blind_mapM_getitem|]. intros hs2 ps s. reflexivity.
Qed.

Lemma blind_add_seg a b idx : points_blind (add_seg a b idx).
Proof.
  apply blind_bind; [apply blind_mapM_getitem|]. intros hs ps s. reflexivity.
Qed.

Lemma blind_SetCD2Name k name : points_blind (SetCD2Name k name).
Proof. intros ps s. reflexivity. Qed.

Lemma blind_cell quads nx base : points_blind (cell quads nx base).
Proof.
  unfold cell. destruct quads; [apply blind_add_quad | apply blind_add_triangles].
Qed.

Create HintDb blind.
#[local] Hint Resolve blind_ret blind_getitem blind_add_quad blind_add_triangles blind_add_seg
  blind_SetCD2Name blind_cell : blind.

Ltac blind_step :=
  first [ solve [auto with blind]
        | apply blind_for_each; intros ?
        | apply blind_bind; [|intros ?] ].

Lemma blind_connectivity quads nx1 ny1 nx2 ny2 :
  points_blind (connectivity quads nx1 ny1 nx2 ny2).
Proof.
  unfold connectivity, upper_faces, connector, lower_faces, upper_boundary,
    lower_boundary, name_boundaries.
  apply blind_bind; [intros ps s; reflexivity | intros _].
  repeat blind_step; destruct quads; repeat blind_step.
Qed.

Lemma blind_keeps_points {A} (c : M A) s a s' :
  points_blind c -> c s = Ok (a, s') -> points (mesh s') = points (mesh s).
Proof.
  intros Hc Hs. specialize (Hc (points (mesh s)) s).
  rewrite with_points_self, Hs in Hc. simpl in Hc.
  injection Hc as Hc. rewrite Hc. reflexivity.
Qed.

(** ** Moving [ratio] moves the lower points in y and nothing else *)

Lemma for_each_sim (R : frame -> frame -> Prop) (body1 body2 : Z -> M unit) (l : list Z) :
  (forall i s1 s2, R s1 s2 -> res_sim R (body1 i s1) (body2 i s2)) ->
  forall s1 s2, R s1 s2 -> res_sim R (for_each l body1 s1) (for_each l body2 s2).
Proof.
  intros Hb. induction l as [|i l IH]; intros s1 s2 HR; simpl.
  - now split.
  - unfold bind. specialize (Hb i s1 s2 HR).
    destruct (body1 i s1) as [[[] s1']|e1], (body2 i s2) as [[[] s2']|e2];
      simpl in Hb; try contradiction; [|assumption].
    apply IH. tauto.
Qed.

Lemma sim_add_point r1 r2 pre p1 p2 s1 s2 :
  sim r1 r2 pre s1 s2 -> y_moved r1 r2 p1 p2 ->
  sim r1 r2 pre (add_points [p1] s1) (add_points [p2] s2).
Proof.
  intros (t1 & t2 & H1 & H2 & HF) Hp.
  exists (t1 ++ [p1]), (t2 ++ [p2]). split; [|split].
  - simpl. now rewrite H1, app_assoc.
  - subst s2. unfold add_points, with_points, push_points. simpl.
    rewrite H1, !length_app, (Forall2_length HF), app_assoc. reflexivity.
  - apply Forall2_app; [assumption | now constructor].
Qed.

Lemma lower_points_sim nx2 ny2 r1 r2 pre s1 s2 :
  sim r1 r2 pre s1 s2 ->
  res_sim (sim r1 r2 pre) (lower_points nx2 ny2 r1 s1) (lower_points nx2 ny2 r2 s2).
Proof.
  unfold lower_points. apply for_each_sim. intros i.
  apply for_each_sim. intros j t1 t2 Ht.
  unfold bind, truediv.
  destruct (nx2 =? 0); [reflexivity|].
  destruct (ny2 =? 0); [reflexivity|]. simpl.
  split; [reflexivity|].
  apply (sim_add_point r1 r2 pre _ _ t1 t2 Ht). now repeat split.
Qed.

Lemma sim_refl r1 r2 s : sim r1 r2 (points (mesh s)) s s.
Proof.
  exists [], []. rewrite app_nil_r, with_points_self. repeat split. constructor.
Qed.

Lemma exec_phases quads nx1 ny1 nx2 ny2 ratio :
  exec quads nx1 ny1 nx2 ny2 ratio
  = match upper_points nx1 ny1 start with
    | Ok (_, su) =>
        match lower_points nx2 ny2 ratio su with
        | Ok (_, sl) =>
            match connectivity quads nx1 ny1 nx2 ny2 sl with
            | Ok (_, s) => Ok s
            | Raise e => Raise e
            end
        | Raise e => Raise e
        end
    | Raise e => Raise e
    end.
Proof.
  unfold exec, MakeTStructureMesh_body, all_points.
  rewrite (bind_Ok _ _ init tt start) by reflexivity.
  unfold bind.
  destruct (upper_points nx1 ny1 start) as [[[] su]|e]; [|reflexivity].
  destruct (lower_points nx2 ny2 ratio su) as [[[] sl]|e]; reflexivity.
Qed.

(** C10: two calls that differ in [ratio] only raise the same exception or
    return meshes with the same 2D elements, the same tagged 1D elements, the
    same tag names, face descriptors and dimension, built from the same
    handles through the same sequence of [pids] subscripts; their points are
    the common upper-patch points followed by lower-patch points that agree
    in x and z and carry the respective [ratio] as y. *)
Theorem ratio_changes_lower_y_only quads nx1 ny1 nx2 ny2 r1 r2 :
  match exec quads nx1 ny1 nx2 ny2 r1, exec quads nx1 ny1 nx2 ny2 r2 with
  | Ok s1, Ok s2 =>
      elements2D (mesh s1) = elements2D (mesh s2) /\
      elements1D (mesh s1) = elements1D (mesh s2) /\
      cd2names (mesh s1) = cd2names (mesh s2) /\
      facedescriptors (mesh s1) = facedescriptors (mesh s2) /\
      dim (mesh s1) = dim (mesh s2) /\
      pids s1 = pids s2 /\
      reads s1 = reads s2 /\
      exists su t1 t2,
        upper_points nx1 ny1 start = Ok (tt, su) /\
        points (mesh s1) = points (mesh su) ++ t1 /\
        points (mesh s2) = points (mesh su) ++ t2 /\
        Forall2 (y_moved r1 r2) t1 t2
  | Raise e1, Raise e2 => e1 = e2
  | _, _ => False
  end.
Proof.
  rewrite !exec_phases.
  destruct (upper_points nx1 ny1 start) as [[[] su]|e] eqn:Hu; [|reflexivity].
  pose proof (lower_points_sim nx2 ny2 r1 r2 _ su su (sim_refl r1 r2 su)) as Hl.
  destruct (lower_points nx2 ny2 r1 su) as [[[] s1]|e1],
           (lower_points nx2 ny2 r2 su) as [[[] s2]|e2];
    simpl in Hl; try contradiction; [|assumption].
  destruct Hl as (_ & t1 & t2 & H1 & H2 & HF). subst s2.
  rewrite (blind_connectivity quads nx1 ny1 nx2 ny2).
  destruct (connectivity quads nx1 ny1 nx2 ny2 s1) as [[[] s3]|e3] eqn:Hc;
    simpl; [|reflexivity].
  repeat (split; [reflexivity|]).
  exists su, t1, t2. repeat split; try assumption.
  rewrite <- H1. apply (blind_keeps_points _ _ _ _ (blind_connectivity _ _ _ _ _) Hc).
Qed.

(** ** The point sequence *)

Lemma range_nth_error_at lo hi i :
  lo <= i < hi -> nth_error (range lo hi) (Z.to_nat (i - lo)) = Some i.
Proof.
  intros H. rewrite range_nth_error by lia. f_equal. lia.
Qed.

Lemma upper_point_nth nx1 ny1 i j :
  0 <= i <= ny1 -> 0 <= j <= nx1 ->
  nth_error (upper_point_list nx1 ny1) (Z.to_nat (i * (nx1 + 1) + j))
  = Some (pnt_upper nx1 ny1 i j).
Proof.
  intros Hi Hj. unfold upper_point_list.
  replace (Z.to_nat (i * (nx1 + 1) + j))
    with (Z.to_nat (i - 0) * length (range 0 (nx1 + 1)) + Z.to_nat (j - 0))%nat
    by (rewrite range_length; nia).
  apply (flat_map_grid_nth_error (pnt_upper nx1 ny1)); apply range_nth_error_at; lia.
Qed.

Lemma lower_point_nth nx2 ny2 ratio i j :
  1 <= i <= ny2 -> 0 <= j <= nx2 ->
  nth_error (lower_point_list nx2 ny2 ratio) (Z.to_nat ((i - 1) * (nx2 + 1) + j))
  = Some (pnt_lower nx2 ny2 ratio i j).
Proof.
  intros Hi Hj. unfold lower_point_list.
  replace (Z.to_nat ((i - 1) * (nx2 + 1) + j))
    with (Z.to_nat (i - 1) * length (range 0 (nx2 + 1)) + Z.to_nat (j - 0))%nat
    by (rewrite range_length; nia).
  apply (flat_map_grid_nth_error (pnt_lower nx2 ny2 ratio)); apply range_nth_error_at; lia.
Qed.

Lemma int_quotient_unit a b :
  0 <= a <= b -> 1 <= b -> (0 <= inject_Z a / inject_Z b <= 1)%Q.
Proof.
  intros Ha Hb. destruct b as [|p|p]; try lia.
  unfold Qdiv, Qinv, Qmult, Qle, inject_Z. simpl. lia.
Qed.

Lemma int_quotient_below a b :
  1 <= a <= b -> (-1 <= inject_Z (- a) / inject_Z b < 0)%Q.
Proof.
  intros Ha. destruct b as [|p|p]; try lia.
  unfold Qdiv, Qinv, Qmult, Qle, Qlt, inject_Z. simpl. lia.
Qed.

Lemma upper_points_in_square nx1 ny1 :
  1 <= nx1 -> 1 <= ny1 ->
  Forall (fun p => (0 <= pnt_x p <= 1)%Q /\ (0 <= pnt_y p <= 1)%Q /\ (pnt_z p == 0)%Q)
         (upper_point_list nx1 ny1).
Proof.
  intros Hx Hy. unfold upper_point_list.
  apply flat_map_Forall. intros i Hi. apply flat_map_Forall. intros j Hj.
  apply range_In in Hi, Hj. constructor; [|constructor]. simpl.
  repeat split; try (apply int_quotient_unit; lia); reflexivity.
Qed.

Lemma lower_points_below nx2 ny2 ratio :
  1 <= nx2 -> 1 <= ny2 ->
  Forall (fun p => (0 <= pnt_x p <= 1)%Q /\ pnt_y p = ratio /\ (-1 <= pnt_z p < 0)%Q)
         (lower_point_list nx2 ny2 ratio).
Proof.
  intros Hx Hy. unfold lower_point_list.
  apply flat_map_Forall. intros i Hi. apply flat_map_Forall. intros j Hj.
  apply range_In in Hi, Hj. constructor; [|constructor]. simpl.
  repeat split; try (apply int_quotient_unit; lia); apply int_quotient_below; lia.
Qed.

Lemma start_points s ps qs :
  s = add_points qs (add_points ps start) -> points (mesh s) = ps ++ qs.
Proof. intros ->. reflexivity. Qed.

(** Whatever mesh a call returns holds exactly the points placed by
    [all_points]. *)
Lemma returned_points quads nx1 ny1 nx2 ny2 ratio s m :
  all_points nx1 ny1 nx2 ny2 ratio start = Ok (tt, s) ->
  MakeTStructureMesh quads nx1 ny1 nx2 ny2 ratio = Ok m ->
  points m = points (mesh s).
Proof.
  intros Hp. unfold MakeTStructureMesh, exec, MakeTStructureMesh_body.
  rewrite (bind_Ok _ _ init tt start) by reflexivity.
  rewrite (bind_Ok _ _ _ _ _ Hp).
  destruct (connectivity quads nx1 ny1 nx2 ny2 s) as [[[] s']|e] eqn:Hc; [|discriminate].
  intros [= <-].
  apply (blind_keeps_points _ _ _ _ (blind_connectivity _ _ _ _ _) Hc).
Qed.

(** C5: for all subdivision counts >= 1 the points phase completes and
    leaves exactly [(ny1+1)*(nx1+1) + ny2*(nx2+1)] points in the mesh, each
    with its handle in [pids]; a returned mesh holds exactly these points,
    and a mesh is returned whenever the lower block reaches offset [nx1]
    (as it does for the default parameters). *)
Theorem point_count quads nx1 ny1 nx2 ny2 ratio :
  1 <= nx1 -> 1 <= ny1 -> 1 <= nx2 -> 1 <= ny2 ->
  exists s,
    all_points nx1 ny1 nx2 ny2 ratio start = Ok (tt, s) /\
    Z.of_nat (length (points (mesh s))) = (ny1 + 1) * (nx1 + 1) + ny2 * (nx2 + 1) /\
    Z.of_nat (length (pids s)) = (ny1 + 1) * (nx1 + 1) + ny2 * (nx2 + 1) /\
    (forall m, MakeTStructureMesh quads nx1 ny1 nx2 ny2 ratio = Ok m ->
               Z.of_nat (length (points m)) = (ny1 + 1) * (nx1 + 1) + ny2 * (nx2 + 1)) /\
    (nx1 < ny2 * (nx2 + 1) ->
     exists m, MakeTStructureMesh quads nx1 ny1 nx2 ny2 ratio = Ok m).
Proof.
  intros Hx1 Hy1 Hx2 Hy2.
  pose proof (all_points_Ok nx1 ny1 nx2 ny2 ratio start) as Hp.
  specialize (Hp ltac:(lia) ltac:(lia) ltac:(lia) ltac:(lia)).
  pose proof (upper_point_list_length nx1 ny1 ltac:(lia) ltac:(lia)) as HU.
  pose proof (lower_point_list_length nx2 ny2 ratio ltac:(lia) ltac:(lia)) as HL.
  eexists. split; [exact Hp|].
  assert (Hlen : Z.of_nat (length (upper_point_list nx1 ny1 ++ lower_point_list nx2 ny2 ratio))
                 = (ny1 + 1) * (nx1 + 1) + ny2 * (nx2 + 1))
    by (rewrite length_app; lia).
  split; [exact Hlen|]. split; [|split].
  - simpl. rewrite length_app, !length_seq. rewrite length_app in Hlen. lia.
  - intros m Hm. now rewrite (returned_points _ _ _ _ _ _ _ _ Hp Hm).
  - intros Hfit. eexists. now apply MakeTStructureMesh_Ok.
Qed.

Lemma point_count_witness :
  exists s,
    all_points 4 4 4 4 (1 # 2) start = Ok (tt, s) /\
    Z.of_nat (length (points (mesh s))) = (4 + 1) * (4 + 1) + 4 * (4 + 1) /\
    Z.of_nat (length (pids s)) = (4 + 1) * (4 + 1) + 4 * (4 + 1) /\
    (forall m, MakeTStructureMesh true 4 4 4 4 (1 # 2) = Ok m ->
               Z.of_nat (length (points m)) = (4 + 1) * (4 + 1) + 4 * (4 + 1)) /\
    (4 < 4 * (4 + 1) ->
     exists m, MakeTStructureMesh true 4 4 4 4 (1 # 2) = Ok m).
Proof. apply (point_count true 4 4 4 4 (1 # 2)); lia. Defined.

(** C4 as stated fails: with the default parameters the points after the
    upper patch's [(4+1)*(4+1)] are 20, not [(4+1)*(4+1) = 25]. *)
Lemma lower_patch_size_counterexample :
  exists m,
    MakeTStructureMesh true 4 4 4 4 (1 # 2) = Ok m /\
    length (skipn (Z.to_nat ((4 + 1) * (4 + 1))) (points m)) = 20%nat /\
    length (skipn (Z.to_nat ((4 + 1) * (4 + 1))) (points m))
    <> Z.to_nat ((4 + 1) * (4 + 1)).
Proof.
  eexists. split; [vm_compute; reflexivity|].
  split; [reflexivity | vm_compute; discriminate].
Qed.

(** C4, amended: the point sequence is the upper patch's
    [(ny1+1)*(nx1+1)] grid points, row-major, point [(i,j)] at
    [(j/nx1, i/ny1, 0)] inside the unit square, followed by the lower patch's
    [ny2*(nx2+1)] points, rows [i = 1..ny2] only, point [(i,j)] at
    [(j/nx2, ratio, -i/ny2)], so at [y = ratio] and strictly below [z = 0];
    a returned mesh holds exactly this sequence. *)
Theorem point_sequence quads nx1 ny1 nx2 ny2 ratio :
  1 <= nx1 -> 1 <= ny1 -> 1 <= nx2 -> 1 <= ny2 ->
  exists s U L,
    all_points nx1 ny1 nx2 ny2 ratio start = Ok (tt, s) /\
    points (mesh s) = U ++ L /\
    Z.of_nat (length U) = (ny1 + 1) * (nx1 + 1) /\
    Z.of_nat (length L) = ny2 * (nx2 + 1) /\
    Forall (fun p => (0 <= pnt_x p <= 1)%Q /\ (0 <= pnt_y p <= 1)%Q /\ (pnt_z p == 0)%Q) U /\
    Forall (fun p => (0 <= pnt_x p <= 1)%Q /\ pnt_y p = ratio /\ (-1 <= pnt_z p < 0)%Q) L /\
    (forall i j, 0 <= i <= ny1 -> 0 <= j <= nx1 ->
       nth_error U (Z.to_nat (i * (nx1 + 1) + j))
       = Some (mkPnt (inject_Z j / inject_Z nx1) (inject_Z i / inject_Z ny1) 0)) /\
    (forall i j, 1 <= i <= ny2 -> 0 <= j <= nx2 ->
       nth_error L (Z.to_nat ((i - 1) * (nx2 + 1) + j))
       = Some (mkPnt (inject_Z j / inject_Z nx2) ratio (inject_Z (- i) / inject_Z ny2))) /\
    (forall m, MakeTStructureMesh quads nx1 ny1 nx2 ny2 ratio = Ok m -> points m = U ++ L).
Proof.
  intros Hx1 Hy1 Hx2 Hy2.
  pose proof (all_points_Ok nx1 ny1 nx2 ny2 ratio start) as Hp.
  specialize (Hp ltac:(lia) ltac:(lia) ltac:(lia) ltac:(lia)).
  eexists. exists (upper_point_list nx1 ny1), (lower_point_list nx2 ny2 ratio).
  split; [exact Hp|]. split; [reflexivity|].
  split; [apply upper_point_list_length; lia|].
  split; [apply lower_point_list_length; lia|].
  split; [now apply upper_points_in_square|].
  split; [now apply lower_points_below|].
  split; [intros; now apply upper_point_nth|].
  split; [intros; now apply lower_point_nth|].
  intros m Hm. now rewrite (returned_points _ _ _ _ _ _ _ _ Hp Hm).
Qed.

Lemma point_sequence_witness :
  exists s U L,
    all_points 2 2 2 2 (1 # 2) start = Ok (tt, s) /\
    points (mesh s) = U ++ L /\
    Z.of_nat (length U) = (2 + 1) * (2 + 1) /\
    Z.of_nat (length L) = 2 * (2 + 1) /\
    Forall (fun p => (0 <= pnt_x p <= 1)%Q /\ (0 <= pnt_y p <= 1)%Q /\ (pnt_z p == 0)%Q) U /\
    Forall (fun p => (0 <= pnt_x p <= 1)%Q /\ pnt_y p = (1 # 2) /\ (-1 <= pnt_z p < 0)%Q) L /\
    (forall i j, 0 <= i <= 2 -> 0 <= j <= 2 ->
       nth_error U (Z.to_nat (i * (2 + 1) + j))
       = Some (mkPnt (inject_Z j / inject_Z 2) (inject_Z i / inject_Z 2) 0)) /\
    (forall i j, 1 <= i <= 2 -> 0 <= j <= 2 ->
       nth_error L (Z.to_nat ((i - 1) * (2 + 1) + j))
       = Some (mkPnt (inject_Z j / inject_Z 2) (1 # 2) (inject_Z (- i) / inject_Z 2))) /\
    (forall m, MakeTStructureMesh true 2 2 2 2 (1 # 2) = Ok m -> points m = U ++ L).
Proof. apply (point_sequence true 2 2 2 2 (1 # 2)); lia. Defined.

(** ** The elements of a returned mesh *)

Lemma final_points quads nx1 ny1 nx2 ny2 ratio :
  points (mesh (final_frame quads nx1 ny1 nx2 ny2 ratio))
  = upper_point_list nx1 ny1 ++ lower_point_list nx2 ny2 ratio.
Proof. reflexivity. Qed.

Lemma final_elements2D quads nx1 ny1 nx2 ny2 ratio :
  elements2D (mesh (final_frame quads nx1 ny1 nx2 ny2 ratio))
  = map face_of (upper_face_list quads nx1 ny1)
    ++ map face_of (connector_face_list quads nx1 ny1 (base1_of nx1 ny1))
    ++ map face_of (lower_face_list quads nx2 ny2 (base1_of nx1 ny1)).
Proof. unfold final_frame. simpl. now rewrite <- app_assoc. Qed.

Lemma final_elements1D quads nx1 ny1 nx2 ny2 ratio :
  elements1D (mesh (final_frame quads nx1 ny1 nx2 ny2 ratio))
  = map seg_of (tag1 nx1) ++ map seg_of (tag2 nx1 ny1)
    ++ map seg_of (tag3 nx1 ny1) ++ map seg_of (tag4 nx1 ny1)
    ++ map seg_of (tag5 nx1 ny1 nx2)
    ++ map seg_of (tag6 nx1 ny1 nx2 ny2 (base1_of nx1 ny1))
    ++ map seg_of (tag7 nx2 ny2 (base1_of nx1 ny1))
    ++ map seg_of (tag8 nx1 ny1 nx2 ny2 (base1_of nx1 ny1)).
Proof. unfold final_frame. simpl. now rewrite <- !app_assoc. Qed.

Lemma final_cd2names quads nx1 ny1 nx2 ny2 ratio :
  cd2names (mesh (final_frame quads nx1 ny1 nx2 ny2 ratio)) = boundary_names.
Proof. reflexivity. Qed.

Lemma cell_faces_length quads nx base :
  length (cell_faces quads nx base) = Z.to_nat (per_cell quads).
Proof. now destruct quads. Qed.

Lemma connector_faces_length quads nx1 ny1 base1 j :
  length (connector_faces quads nx1 ny1 base1 j) = Z.to_nat (per_cell quads).
Proof. now destruct quads. Qed.

Lemma per_cell_pos quads : 1 <= per_cell quads <= 2.
Proof. destruct quads; simpl; lia. Qed.

Lemma upper_face_list_length quads nx1 ny1 :
  0 <= nx1 -> 0 <= ny1 ->
  Z.of_nat (length (upper_face_list quads nx1 ny1)) = per_cell quads * (nx1 * ny1).
Proof.
  intros Hx Hy. unfold upper_face_list.
  rewrite (flat_map_constant_length (c := (Z.to_nat nx1 * Z.to_nat (per_cell quads))%nat)).
  - rewrite range_length. pose proof (per_cell_pos quads). nia.
  - intros i _.
    rewrite (flat_map_constant_length (c := Z.to_nat (per_cell quads)))
      by (intros; apply cell_faces_length).
    rewrite range_length. f_equal. lia.
Qed.

Lemma connector_face_list_length quads nx1 ny1 base1 :
  0 <= nx1 ->
  Z.of_nat (length (connector_face_list quads nx1 ny1 base1)) = per_cell quads * nx1.
Proof.
  intros Hx. unfold connector_face_list.
  rewrite (flat_map_constant_length (c := Z.to_nat (per_cell quads)))
    by (intros; apply connector_faces_length).
  rewrite range_length. pose proof (per_cell_pos quads). nia.
Qed.

Lemma lower_face_list_length quads nx2 ny2 base1 :
  0 <= nx2 -> 1 <= ny2 ->
  Z.of_nat (length (lower_face_list quads nx2 ny2 base1))
  = per_cell quads * (nx2 * (ny2 - 1)).
Proof.
  intros Hx Hy. unfold lower_face_list.
  rewrite (flat_map_constant_length (c := (Z.to_nat nx2 * Z.to_nat (per_cell quads))%nat)).
  - rewrite range_length. pose proof (per_cell_pos quads). nia.
  - intros i _.
    rewrite (flat_map_constant_length (c := Z.to_nat (per_cell quads)))
      by (intros; apply cell_faces_length).
    rewrite range_length. f_equal. lia.
Qed.

(** C6 as stated fails: these parameters are all >= 1 with [ny1] even, yet
    the call raises [IndexError] in the connector strip and returns no mesh. *)
Lemma face_count_counterexample :
  (1 <= 4 /\ 1 <= 2 /\ 1 <= 1 /\ 1 <= 1 /\ Z.even 2 = true) /\
  MakeTStructureMesh true 4 2 1 1 (1 # 2) = Raise IndexError /\
  ~ exists m, MakeTStructureMesh true 4 2 1 1 (1 # 2) = Ok m /\
              Z.of_nat (length (elements2D m)) = 4 * 2 + 4 + 1 * (1 - 1).
Proof.
  split; [repeat split; lia|].
  assert (H : MakeTStructureMesh true 4 2 1 1 (1 # 2) = Raise IndexError)
    by (vm_compute; reflexivity).
  split; [exact H|]. intros (m & Hm & _). rewrite H in Hm. discriminate.
Qed.

(** C6, amended: for all subdivision counts >= 1 such that the lower block
    reaches offset [nx1] ([nx1 < ny2*(nx2+1)], in particular [nx1 = nx2]),
    the call returns a mesh with [nx1*ny1 + nx1 + nx2*(ny2-1)] 2D elements
    when [quads] and twice as many otherwise. *)
Theorem face_count quads nx1 ny1 nx2 ny2 ratio :
  1 <= nx1 -> 1 <= ny1 -> 1 <= nx2 -> 1 <= ny2 -> nx1 < ny2 * (nx2 + 1) ->
  exists m,
    MakeTStructureMesh quads nx1 ny1 nx2 ny2 ratio = Ok m /\
    Z.of_nat (length (elements2D m))
    = (if quads then 1 else 2) * (nx1 * ny1 + nx1 + nx2 * (ny2 - 1)).
Proof.
  intros Hx1 Hy1 Hx2 Hy2 Hfit. eexists. split; [now apply MakeTStructureMesh_Ok|].
  rewrite final_elements2D, !length_app, !length_map, !Nat2Z.inj_add.
  rewrite upper_face_list_length, connector_face_list_length, lower_face_list_length by lia.
  fold (per_cell quads). lia.
Qed.

Lemma face_count_witness :
  exists m,
    MakeTStructureMesh false 4 4 4 4 (1 # 2) = Ok m /\
    Z.of_nat (length (elements2D m)) = 2 * (4 * 4 + 4 + 4 * (4 - 1)).
Proof. apply (face_count false 4 4 4 4 (1 # 2)); lia. Defined.

(** ** The boundary elements, tag by tag *)

Lemma singleton_tagged k (f : Z -> Z * Z * Z) (l : list Z) :
  (forall i, snd (f i) = k) -> tagged k (flat_map (fun i => [f i]) l).
Proof.
  intros H. apply flat_map_Forall. intros i _. constructor; [apply H | constructor].
Qed.

Lemma tag1_tagged nx1 : tagged 1 (tag1 nx1).
Proof. now apply singleton_tagged. Qed.

Lemma tag2_tagged nx1 ny1 : tagged 2 (tag2 nx1 ny1).
Proof. now apply singleton_tagged. Qed.

Lemma tag3_tagged nx1 ny1 : tagged 3 (tag3 nx1 ny1).
Proof. now apply singleton_tagged. Qed.

Lemma tag4_tagged nx1 ny1 : tagged 4 (tag4 nx1 ny1).
Proof. now apply singleton_tagged. Qed.

Lemma tag5_tagged nx1 ny1 nx2 : tagged 5 (tag5 nx1 ny1 nx2).
Proof. now apply singleton_tagged. Qed.

Lemma tag6_tagged nx1 ny1 nx2 ny2 base1 : tagged 6 (tag6 nx1 ny1 nx2 ny2 base1).
Proof. constructor; [reflexivity | now apply singleton_tagged]. Qed.

Lemma tag7_tagged nx2 ny2 base1 : tagged 7 (tag7 nx2 ny2 base1).
Proof. now apply singleton_tagged. Qed.

Lemma tag8_tagged nx1 ny1 nx2 ny2 base1 : tagged 8 (tag8 nx1 ny1 nx2 ny2 base1).
Proof.
  apply Forall_app. split; [now apply singleton_tagged | now repeat constructor].
Qed.

Lemma filter_tagged k k' l :
  tagged k' l ->
  filter (has_tag k) (map seg_of l) = if k' =? k then map seg_of l else [].
Proof.
  intros H. induction H as [|[[a b] t] l Ht _ IH]; simpl.
  - now destruct (k' =? k).
  - simpl in Ht. subst t. unfold has_tag at 1. simpl. rewrite IH.
    now destruct (k' =? k).
Qed.

Lemma singleton_length {A} (f : Z -> A) lo hi :
  length (flat_map (fun i => [f i]) (range lo hi)) = Z.to_nat (hi - lo).
Proof.
  rewrite (flat_map_constant_length (c := 1%nat)) by reflexivity.
  rewrite range_length. lia.
Qed.

Section Tags.
Variables (quads : bool) (nx1 ny1 nx2 ny2 : Z) (ratio : Q).
Let m := mesh (final_frame quads nx1 ny1 nx2 ny2 ratio).
Let base1 := base1_of nx1 ny1.

Ltac pick_tag :=
  unfold tag_elements, m; rewrite final_elements1D, !filter_app;
  rewrite (filter_tagged _ _ _ (tag1_tagged _)), (filter_tagged _ _ _ (tag2_tagged _ _)),
    (filter_tagged _ _ _ (tag3_tagged _ _)), (filter_tagged _ _ _ (tag4_tagged _ _)),
    (filter_tagged _ _ _ (tag5_tagged _ _ _)), (filter_tagged _ _ _ (tag6_tagged _ _ _ _ _)),
    (filter_tagged _ _ _ (tag7_tagged _ _ _)), (filter_tagged _ _ _ (tag8_tagged _ _ _ _ _));
  cbn [Z.eqb Pos.eqb app]; rewrite ?app_nil_r; reflexivity.

Lemma tag_elements_1 : tag_elements 1 m = map seg_of (tag1 nx1).
Proof. pick_tag. Qed.

Lemma tag_elements_2 : tag_elements 2 m = map seg_of (tag2 nx1 ny1).
Proof. pick_tag. Qed.

Lemma tag_elements_3 : tag_elements 3 m = map seg_of (tag3 nx1 ny1).
Proof. pick_tag. Qed.

Lemma tag_elements_4 : tag_elements 4 m = map seg_of (tag4 nx1 ny1).
Proof. pick_tag. Qed.

Lemma tag_elements_5 : tag_elements 5 m = map seg_of (tag5 nx1 ny1 nx2).
Proof. pick_tag. Qed.

Lemma tag_elements_6 : tag_elements 6 m = map seg_of (tag6 nx1 ny1 nx2 ny2 base1).
Proof. pick_tag. Qed.

Lemma tag_elements_7 : tag_elements 7 m = map seg_of (tag7 nx2 ny2 base1).
Proof. pick_tag. Qed.

Lemma tag_elements_8 : tag_elements 8 m = map seg_of (tag8 nx1 ny1 nx2 ny2 base1).
Proof. pick_tag. Qed.

Lemma tags_in_1_8 : Forall (fun e => 1 <= el1_index e <= 8) (elements1D m).
Proof.
  assert (H : forall k l, 1 <= k <= 8 -> tagged k l ->
                          Forall (fun e => 1 <= el1_index e <= 8) (map seg_of l)).
  { intros k l Hk Hl. apply Forall_map. eapply Forall_impl; [|exact Hl].
    intros [[a b] t] Ht. simpl in *. lia. }
  unfold m. rewrite final_elements1D.
  repeat (apply Forall_app; split).
  - apply (H 1); [lia | apply tag1_tagged].
  - apply (H 2); [lia | apply tag2_tagged].
  - apply (H 3); [lia | apply tag3_tagged].
  - apply (H 4); [lia | apply tag4_tagged].
  - apply (H 5); [lia | apply tag5_tagged].
  - apply (H 6); [lia | apply tag6_tagged].
  - apply (H 7); [lia | apply tag7_tagged].
  - apply (H 8); [lia | apply tag8_tagged].
Qed.
End Tags.

(** C3 as stated fails: the default call adds 32 boundary elements, while
    [2*nx1 + 2*ny1 + nx2 + ny2 + nx2] is 28. *)
Lemma boundary_count_counterexample :
  exists m,
    MakeTStructureMesh true 4 4 4 4 (1 # 2) = Ok m /\
    Z.of_nat (length (elements1D m)) = 32 /\
    Z.of_nat (length (elements1D m)) <> 2 * 4 + 2 * 4 + 4 + 4 + 4.
Proof.
  eexists. split; [vm_compute; reflexivity|].
  split; [reflexivity | vm_compute; discriminate].
Qed.

(** C3, amended: for all subdivision counts >= 1 with [nx1 < ny2*(nx2+1)]
    (so that the call completes; in particular [nx1 = nx2]) the returned
    mesh has [2*nx1 + 2*ny1 + 2*nx2 + 2*ny2] 1D elements: [nx1], [ny1],
    [nx1], [ny1], [nx2], [ny2], [nx2], [ny2] of them under tags 1..8, no
    other tag occurs, and the eight tags are the named ones. *)
Theorem boundary_count quads nx1 ny1 nx2 ny2 ratio :
  1 <= nx1 -> 1 <= ny1 -> 1 <= nx2 -> 1 <= ny2 -> nx1 < ny2 * (nx2 + 1) ->
  exists m,
    MakeTStructureMesh quads nx1 ny1 nx2 ny2 ratio = Ok m /\
    Z.of_nat (length (elements1D m)) = 2 * nx1 + 2 * ny1 + 2 * nx2 + 2 * ny2 /\
    map (fun k => Z.of_nat (length (tag_elements k m))) [1; 2; 3; 4; 5; 6; 7; 8]
    = [nx1; ny1; nx1; ny1; nx2; ny2; nx2; ny2] /\
    Forall (fun e => 1 <= el1_index e <= 8) (elements1D m) /\
    cd2names m
    = [(1, "upbottom"%string); (2, "upright"%string); (3, "uptop"%string);
       (4, "upleft"%string); (5, "interface"%string); (6, "downright"%string);
       (7, "downbottom"%string); (8, "downleft"%string)].
Proof.
  intros Hx1 Hy1 Hx2 Hy2 Hfit. eexists. split; [now apply MakeTStructureMesh_Ok|].
  split; [|split; [|split; [apply tags_in_1_8 | reflexivity]]].
  - rewrite final_elements1D, !length_app, !length_map.
    unfold tag1, tag2, tag3, tag4, tag5, tag6, tag7, tag8.
    cbn [length]. rewrite length_app, !singleton_length. simpl length. lia.
  - cbn [map].
    rewrite tag_elements_1, tag_elements_2, tag_elements_3, tag_elements_4,
      tag_elements_5, tag_elements_6, tag_elements_7, tag_elements_8.
    rewrite !length_map.
    unfold tag1, tag2, tag3, tag4, tag5, tag6, tag7, tag8.
    cbn [length]. rewrite length_app, !singleton_length. simpl length.
    repeat (apply f_equal2; [lia|]). reflexivity.
Qed.

Lemma boundary_count_witness :
  exists m,
    MakeTStructureMesh true 4 4 4 4 (1 # 2) = Ok m /\
    Z.of_nat (length (elements1D m)) = 2 * 4 + 2 * 4 + 2 * 4 + 2 * 4 /\
    map (fun k => Z.of_nat (length (tag_elements k m))) [1; 2; 3; 4; 5; 6; 7; 8]
    = [4; 4; 4; 4; 4; 4; 4; 4] /\
    Forall (fun e => 1 <= el1_index e <= 8) (elements1D m) /\
    cd2names m
    = [(1, "upbottom"%string); (2, "upright"%string); (3, "uptop"%string);
       (4, "upleft"%string); (5, "interface"%string); (6, "downright"%string);
       (7, "downbottom"%string); (8, "downleft"%string)].
Proof. apply (boundary_count true 4 4 4 4 (1 # 2)); lia. Defined.

(** ** Every subscript of [pids] is within bounds *)

Lemma final_reads quads nx1 ny1 nx2 ny2 ratio :
  reads (final_frame quads nx1 ny1 nx2 ny2 ratio)
  = concat (upper_face_list quads nx1 ny1
            ++ connector_face_list quads nx1 ny1 (base1_of nx1 ny1)
            ++ lower_face_list quads nx2 ny2 (base1_of nx1 ny1))
    ++ flat_map seg_reads
         (tag1 nx1 ++ tag2 nx1 ny1 ++ tag3 nx1 ny1 ++ tag4 nx1 ny1
          ++ tag5 nx1 ny1 nx2 ++ tag6 nx1 ny1 nx2 ny2 (base1_of nx1 ny1)
          ++ tag7 nx2 ny2 (base1_of nx1 ny1)
          ++ tag8 nx1 ny1 nx2 ny2 (base1_of nx1 ny1)).
Proof.
  unfold final_frame.
  cbn [reads add_segs add_faces on_mesh add_points start init app].
  rewrite !concat_app, !flat_map_app. now rewrite <- !app_assoc.
Qed.

Lemma final_pids quads nx1 ny1 nx2 ny2 ratio :
  pids (final_frame quads nx1 ny1 nx2 ny2 ratio)
  = seq 0 (length (upper_point_list nx1 ny1) + length (lower_point_list nx2 ny2 ratio)).
Proof. unfold final_frame. simpl. now rewrite <- seq_app. Qed.

Lemma cell_faces_Forall (P : Z -> Prop) quads nx base :
  P base -> P (base + 1) -> P (base + nx + 2) -> P (base + nx + 1) ->
  Forall (Forall P) (cell_faces quads nx base).
Proof. intros. destruct quads; simpl; repeat constructor; assumption. Qed.

Lemma singleton_seg_Forall (P : Z -> Prop) (a b : Z -> Z) (k : Z) (l : list Z) :
  (forall i, In i l -> P (a i) /\ P (b i)) ->
  Forall P (flat_map seg_reads (flat_map (fun i => [(a i, b i, k)]) l)).
Proof.
  intros H. induction l as [|i l IH]; simpl; [constructor|].
  destruct (H i (or_introl eq_refl)). constructor; [assumption|].
  constructor; [assumption|]. apply IH. intros j Hj. apply H. now right.
Qed.

Section Bounds.
Variables (quads : bool) (nx1 ny1 nx2 ny2 : Z) (ratio : Q).
Hypothesis Hnx1 : 1 <= nx1.
Hypothesis Hny1 : 1 <= ny1.
Hypothesis Hnx2 : 1 <= nx2.
Hypothesis Hny2 : 1 <= ny2.
Hypothesis Hfit : nx1 < ny2 * (nx2 + 1).

Let base1 := base1_of nx1 ny1.
Let len := base1 + ny2 * (nx2 + 1).
Let ok (p : Z) : Prop := 0 <= p < len.

Ltac bounds :=
  unfold ok, len, base1, base1_of;
  pose proof (int_half_bounds ny1 Hny1); nia.

Lemma face_reads_ok :
  Forall ok (concat (upper_face_list quads nx1 ny1
                     ++ connector_face_list quads nx1 ny1 base1
                     ++ lower_face_list quads nx2 ny2 base1)).
Proof.
  apply Forall_concat. repeat (apply Forall_app; split).
  - apply flat_map_Forall. intros i Hi. apply flat_map_Forall. intros j Hj.
    apply range_In in Hi, Hj. apply cell_faces_Forall; bounds.
  - apply flat_map_Forall. intros j Hj. apply range_In in Hj.
    unfold connector_faces. destruct quads; repeat constructor; bounds.
  - apply flat_map_Forall. intros i Hi. apply flat_map_Forall. intros j Hj.
    apply range_In in Hi, Hj. apply cell_faces_Forall; bounds.
Qed.

Lemma seg_reads_ok :
  Forall ok (flat_map seg_reads
               (tag1 nx1 ++ tag2 nx1 ny1 ++ tag3 nx1 ny1 ++ tag4 nx1 ny1
                ++ tag5 nx1 ny1 nx2 ++ tag6 nx1 ny1 nx2 ny2 base1
                ++ tag7 nx2 ny2 base1 ++ tag8 nx1 ny1 nx2 ny2 base1)).
Proof.
  unfold tag6, tag8. rewrite !flat_map_app. simpl.
  repeat first
    [ apply Forall_app; split
    | apply Forall_cons
    | apply Forall_nil
    | apply singleton_seg_Forall;
      let i := fresh "i" in let Hi := fresh "Hi" in
      intros i Hi; apply range_In in Hi; split; bounds
    | bounds ].
Qed.

Lemma final_reads_ok :
  Forall (fun p => 0 <= p < Z.of_nat (length (pids (final_frame quads nx1 ny1 nx2 ny2 ratio))))
         (reads (final_frame quads nx1 ny1 nx2 ny2 ratio)).
Proof.
  rewrite final_pids, length_seq, Nat2Z.inj_add.
  rewrite upper_point_list_length, lower_point_list_length by lia.
  rewrite final_reads. apply Forall_app. split.
  - apply face_reads_ok.
  - apply seg_reads_ok.
Qed.
End Bounds.

Lemma concat_flat_map_length {A} (g : Z -> list (list A)) (c : nat) (l : list Z) :
  (forall i, length (concat (g i)) = c) ->
  length (concat (flat_map g l)) = (length l * c)%nat.
Proof.
  intros H. induction l as [|i l IH]; simpl; [reflexivity|].
  now rewrite concat_app, length_app, H, IH.
Qed.

Lemma seg_reads_length l : length (flat_map seg_reads l) = (2 * length l)%nat.
Proof.
  rewrite (flat_map_constant_length (c := 2%nat)); [lia|].
  now intros [[a b] k] _.
Qed.

Lemma face_reads_length quads nx1 ny1 nx2 ny2 base1 :
  1 <= nx1 -> 1 <= ny1 -> 1 <= nx2 -> 1 <= ny2 ->
  Z.of_nat (length (concat (upper_face_list quads nx1 ny1
                            ++ connector_face_list quads nx1 ny1 base1
                            ++ lower_face_list quads nx2 ny2 base1)))
  = (if quads then 4 else 6) * (nx1 * ny1 + nx1 + nx2 * (ny2 - 1)).
Proof.
  intros Hx1 Hy1 Hx2 Hy2.
  set (c := if quads then 4%nat else 6%nat).
  assert (Hc : forall nx b, length (concat (cell_faces quads nx b)) = c)
    by (intros; unfold c; now destruct quads).
  assert (Hk : forall j, length (concat (connector_faces quads nx1 ny1 base1 j)) = c)
    by (intros; unfold c; now destruct quads).
  assert (Hrow : forall nx (f : Z -> Z),
             length (concat (flat_map (fun j => cell_faces quads nx (f j)) (range 0 nx)))
             = (Z.to_nat nx * c)%nat).
  { intros nx f. rewrite (concat_flat_map_length _ c) by (intros; apply Hc).
    now rewrite range_length, Z.sub_0_r. }
  rewrite !concat_app, !length_app.
  unfold upper_face_list, connector_face_list, lower_face_list.
  rewrite (concat_flat_map_length _ (Z.to_nat nx1 * c))
    by (intros i; apply (Hrow nx1 (fun j => i * (nx1 + 1) + j))).
  rewrite (concat_flat_map_length _ c) by apply Hk.
  rewrite (concat_flat_map_length _ (Z.to_nat nx2 * c))
    by (intros i; apply (Hrow nx2 (fun j => base1 + (i - 1) * (nx2 + 1) + j))).
  rewrite !range_length.
  replace (if quads then 4 else 6) with (Z.of_nat c) by (unfold c; now destruct quads).
  nia.
Qed.

(** C9: for every [quads] and [ratio] and all subdivision counts >= 1 with
    [nx1 = nx2] the call completes, and every index it used to subscript
    [pids] - four or six per cell of the upper grid, the connector strip and
    the lower grid, two per boundary element - lies in [0, len(pids)). *)
Theorem pids_reads_in_bounds quads nx1 ny1 nx2 ny2 ratio :
  1 <= nx1 -> 1 <= ny1 -> 1 <= nx2 -> 1 <= ny2 -> nx1 = nx2 ->
  exists s,
    exec quads nx1 ny1 nx2 ny2 ratio = Ok s /\
    Forall (fun p => 0 <= p < Z.of_nat (length (pids s))) (reads s) /\
    Z.of_nat (length (reads s))
    = (if quads then 4 else 6) * (nx1 * ny1 + nx1 + nx2 * (ny2 - 1))
      + 2 * (2 * nx1 + 2 * ny1 + 2 * nx2 + 2 * ny2).
Proof.
  intros Hx1 Hy1 Hx2 Hy2 Heq.
  assert (Hfit : nx1 < ny2 * (nx2 + 1)) by nia.
  eexists. split; [now apply exec_Ok|]. split.
  - now apply final_reads_ok.
  - rewrite final_reads, length_app, Nat2Z.inj_add, face_reads_length by assumption.
    rewrite seg_reads_length, !length_app.
    unfold tag1, tag2, tag3, tag4, tag5, tag6, tag7, tag8.
    cbn [length]. rewrite length_app, !singleton_length. simpl length. lia.
Qed.

Lemma pids_reads_in_bounds_witness :
  exists s,
    exec false 4 4 4 4 (1 # 2) = Ok s /\
    Forall (fun p => 0 <= p < Z.of_nat (length (pids s))) (reads s) /\
    Z.of_nat (length (reads s))
    = 6 * (4 * 4 + 4 + 4 * (4 - 1)) + 2 * (2 * 4 + 2 * 4 + 2 * 4 + 2 * 4).
Proof. apply (pids_reads_in_bounds false 4 4 4 4 (1 # 2)); lia. Defined.

(** ** Where the elements of a cell sit in the mesh *)

Lemma flat_map_nth_error_const {A B} (g : A -> list B) (c : nat) (l : list A) :
  (forall x, length (g x) = c) ->
  forall (i r : nat) (a : A),
    nth_error l i = Some a -> (r < c)%nat ->
    nth_error (flat_map g l) (i * c + r) = nth_error (g a) r.
Proof.
  intros Hc. induction l as [|x l IH]; intros i r a Hi Hr.
  - destruct i; discriminate.
  - destruct i as [|i]; simpl in *.
    + injection Hi as ->. apply nth_error_app1. now rewrite Hc.
    + rewrite nth_error_app2 by (rewrite Hc; lia). rewrite Hc.
      replace (c + i * c + r - c)%nat with (i * c + r)%nat by lia.
      now apply IH.
Qed.

Lemma upper_face_nth quads nx1 ny1 i j (t : nat) :
  0 <= i < ny1 -> 0 <= j < nx1 -> (t < Z.to_nat (per_cell quads))%nat ->
  nth_error (upper_face_list quads nx1 ny1)
            (Z.to_nat (per_cell quads * (i * nx1 + j)) + t)
  = nth_error (cell_faces quads nx1 (i * (nx1 + 1) + j)) t.
Proof.
  intros Hi Hj Ht. unfold upper_face_list.
  set (c := Z.to_nat (per_cell quads)) in *.
  replace (Z.to_nat (per_cell quads * (i * nx1 + j)) + t)%nat
    with (Z.to_nat (i - 0) * (Z.to_nat nx1 * c) + (Z.to_nat (j - 0) * c + t))%nat
    by (unfold c; pose proof (per_cell_pos quads); nia).
  rewrite (flat_map_nth_error_const _ (Z.to_nat nx1 * c) _) with (a := i).
  - apply flat_map_nth_error_const with (a := j); auto using cell_faces_length.
    apply range_nth_error_at. lia.
  - intros x. rewrite (flat_map_constant_length (c := c))
      by (intros; apply cell_faces_length).
    now rewrite range_length, Z.sub_0_r.
  - apply range_nth_error_at. lia.
  - assert (Z.to_nat (j - 0) < Z.to_nat nx1)%nat by lia. nia.
Qed.

Lemma connector_face_nth quads nx1 ny1 base1 j (t : nat) :
  0 <= j < nx1 -> (t < Z.to_nat (per_cell quads))%nat ->
  nth_error (connector_face_list quads nx1 ny1 base1)
            (Z.to_nat (per_cell quads * j) + t)
  = nth_error (connector_faces quads nx1 ny1 base1 j) t.
Proof.
  intros Hj Ht. unfold connector_face_list.
  replace (Z.to_nat (per_cell quads * j) + t)%nat
    with (Z.to_nat (j - 0) * Z.to_nat (per_cell quads) + t)%nat
    by (pose proof (per_cell_pos quads); nia).
  apply flat_map_nth_error_const with (a := j); auto using connector_faces_length.
  apply range_nth_error_at. lia.
Qed.

(** C2, at the failing input: with [quads=False] the connector loop runs
    the upper grid's cell body on grid row [int(ny1/2)] and never uses
    [base1].  In [MakeTStructureMesh(False,2,2,2,2)] its four elements are
    the triangles of the upper-grid cells above the seam row once more; all
    their vertices are upper-grid points (handles below 9) and none is a
    point of the lower grid's first stored row (handles 9, 10, 11), which
    the quads of the [quads=True] call do join. *)
Theorem connector_triangles_miss_lower_grid :
  (forall nx1 ny1 base1,
      connector false nx1 ny1 base1
      = for_each (range 0 nx1) (fun j => cell false nx1 (int_half ny1 * (nx1 + 1) + j))) /\
  exists m m',
    MakeTStructureMesh false 2 2 2 2 (1 # 2) = Ok m /\
    firstn 4 (skipn 8 (elements2D m))
    = [mkElement2D 1 [3; 4; 6]; mkElement2D 1 [4; 7; 6];
       mkElement2D 1 [4; 5; 7]; mkElement2D 1 [5; 8; 7]]%nat /\
    firstn 4 (skipn 8 (elements2D m)) = firstn 4 (skipn 4 (elements2D m)) /\
    Forall (fun e => Forall (fun v => (v < 9)%nat) (el2_vertices e))
           (firstn 4 (skipn 8 (elements2D m))) /\
    length (elements2D m) = 16%nat /\
    MakeTStructureMesh true 2 2 2 2 (1 # 2) = Ok m' /\
    firstn 2 (skipn 4 (elements2D m'))
    = [mkElement2D 1 [3; 4; 10; 9]; mkElement2D 1 [4; 5; 11; 10]]%nat.
Proof.
  split; [reflexivity|].
  eexists. eexists.
  split; [vm_compute; reflexivity|].
  split; [reflexivity|]. split; [reflexivity|].
  split; [simpl; repeat constructor|].
  split; [reflexivity|].
  split; [vm_compute; reflexivity | reflexivity].
Qed.

(** C7 as stated fails: in [MakeTStructureMesh(False,2,2,2,2)] the first
    upper cell has corners 0, 1, 4, 3; its first triangle does not contain
    the third corner 4 and its second does not contain the first corner 0,
    so the diagonal 0-4 is an edge of neither. *)
Lemma triangle_diagonal_counterexample :
  exists m e1 e2,
    MakeTStructureMesh false 2 2 2 2 (1 # 2) = Ok m /\
    nth_error (elements2D m) 0 = Some e1 /\
    nth_error (elements2D m) 1 = Some e2 /\
    ~ In (Z.to_nat (0 + 2 + 2)) (el2_vertices e1) /\
    ~ In (Z.to_nat 0) (el2_vertices e2).
Proof.
  do 3 eexists.
  split; [vm_compute; reflexivity|].
  split; [reflexivity|]. split; [reflexivity|].
  split; simpl; intros H; repeat (destruct H as [H|H]; [discriminate|]); exact H.
Qed.

(** C7, amended: when [quads=False], the upper-grid cell [(i,j)] with
    corners [base, base+1, base+nx1+2, base+nx1+1] is the pair of elements
    number [2*(i*nx1+j)] and [2*(i*nx1+j)+1]: the triangles
    [base, base+1, base+nx1+1] and [base+1, base+nx1+2, base+nx1+1].  They
    share the diagonal from the second listed corner to the fourth; the
    first corner lies on the first triangle only and the third corner on the
    second only. *)
Theorem triangle_split quads nx1 ny1 nx2 ny2 ratio i j :
  quads = false ->
  1 <= nx1 -> 1 <= ny1 -> 1 <= nx2 -> 1 <= ny2 -> nx1 < ny2 * (nx2 + 1) ->
  0 <= i < ny1 -> 0 <= j < nx1 ->
  let base := i * (nx1 + 1) + j in
  exists m,
    MakeTStructureMesh quads nx1 ny1 nx2 ny2 ratio = Ok m /\
    nth_error (elements2D m) (Z.to_nat (2 * (i * nx1 + j)))
    = Some (mkElement2D 1 (map Z.to_nat [base; base + 1; base + nx1 + 1])) /\
    nth_error (elements2D m) (Z.to_nat (2 * (i * nx1 + j)) + 1)
    = Some (mkElement2D 1 (map Z.to_nat [base + 1; base + nx1 + 2; base + nx1 + 1])) /\
    ~ In (Z.to_nat base) (map Z.to_nat [base + 1; base + nx1 + 2; base + nx1 + 1]) /\
    ~ In (Z.to_nat (base + nx1 + 2)) (map Z.to_nat [base; base + 1; base + nx1 + 1]).
Proof.
  intros -> Hx1 Hy1 Hx2 Hy2 Hfit Hi Hj base.
  eexists. split; [now apply MakeTStructureMesh_Ok|].
  rewrite final_elements2D.
  assert (Hlen : Z.of_nat (length (map face_of (upper_face_list false nx1 ny1)))
                 = 2 * (nx1 * ny1))
    by (rewrite length_map, upper_face_list_length by lia; reflexivity).
  assert (Hpos : 2 * (i * nx1 + j) + 2 <= 2 * (nx1 * ny1)) by nia.
  split; [|split; [|split]].
  - pose proof (upper_face_nth false nx1 ny1 i j 0 Hi Hj ltac:(simpl; lia)) as H0.
    cbn [per_cell] in H0. rewrite Nat.add_0_r in H0.
    rewrite nth_error_app1 by lia. now rewrite nth_error_map, H0.
  - pose proof (upper_face_nth false nx1 ny1 i j 1 Hi Hj ltac:(simpl; lia)) as H1.
    cbn [per_cell] in H1.
    rewrite nth_error_app1 by lia. now rewrite nth_error_map, H1.
  - simpl. assert (0 <= base) by (unfold base; nia). lia.
  - simpl. assert (0 <= base) by (unfold base; nia). lia.
Qed.

Lemma triangle_split_witness :
  exists m,
    MakeTStructureMesh false 2 2 2 2 (1 # 2) = Ok m /\
    nth_error (elements2D m) (Z.to_nat (2 * (1 * 2 + 1)))
    = Some (mkElement2D 1 (map Z.to_nat [1 * (2 + 1) + 1; 1 * (2 + 1) + 1 + 1;
                                        1 * (2 + 1) + 1 + 2 + 1])) /\
    nth_error (elements2D m) (Z.to_nat (2 * (1 * 2 + 1)) + 1)
    = Some (mkElement2D 1 (map Z.to_nat [1 * (2 + 1) + 1 + 1; 1 * (2 + 1) + 1 + 2 + 2;
                                        1 * (2 + 1) + 1 + 2 + 1])) /\
    ~ In (Z.to_nat (1 * (2 + 1) + 1))
         (map Z.to_nat [1 * (2 + 1) + 1 + 1; 1 * (2 + 1) + 1 + 2 + 2; 1 * (2 + 1) + 1 + 2 + 1]) /\
    ~ In (Z.to_nat (1 * (2 + 1) + 1 + 2 + 2))
         (map Z.to_nat [1 * (2 + 1) + 1; 1 * (2 + 1) + 1 + 1; 1 * (2 + 1) + 1 + 2 + 1]).
Proof.
  apply (triangle_split false 2 2 2 2 (1 # 2) 1 1); (reflexivity || lia).
Defined.

(** ** The two rows the connector strip joins *)

Lemma seam_height_half n :
  1 <= n -> Z.even n = true -> (inject_Z (int_half n) / inject_Z n == 1 # 2)%Q.
Proof.
  intros Hn He. pose proof (int_half_even n ltac:(lia) He) as Hh.
  destruct n as [|p|p]; try lia.
  generalize dependent (int_half (Z.pos p)). intros h Hh.
  unfold Qdiv, Qinv, Qmult, Qeq, inject_Z. simpl. lia.
Qed.

(** C1 as stated fails: in [MakeTStructureMesh(True,4,4,4,4,ratio=0)] the
    first connector quad has the upper-grid vertex 10, a point of grid row
    [int(4/2) = 2], whose height is 2/4 and not [ratio = 0]. *)
Lemma attachment_height_counterexample :
  exists m e p,
    MakeTStructureMesh true 4 4 4 4 0 = Ok m /\
    nth_error (elements2D m) (Z.to_nat (4 * 4)) = Some e /\
    In 10%nat (el2_vertices e) /\
    (10 < Z.to_nat ((4 + 1) * (4 + 1)))%nat /\
    nth_error (points m) 10 = Some p /\
    (pnt_y p == 2 # 4)%Q /\
    ~ (pnt_y p == 0)%Q.
Proof.
  do 3 eexists.
  split; [vm_compute; reflexivity|].
  split; [reflexivity|].
  split; [simpl; auto|].
  split; [vm_compute; lia|].
  split; [reflexivity|].
  split; [reflexivity | discriminate].
Qed.

Lemma lower_point_list_ratio nx2 ny2 r r' :
  lower_point_list nx2 ny2 r' = map (set_y r') (lower_point_list nx2 ny2 r).
Proof.
  unfold lower_point_list.
  induction (range 1 (ny2 + 1)) as [|i rows IH]; [reflexivity|].
  cbn [flat_map]. rewrite map_app, <- IH. f_equal. clear IH.
  induction (range 0 (nx2 + 1)) as [|j cols IHc]; [reflexivity|].
  cbn [flat_map app map]. now rewrite <- IHc.
Qed.

Lemma Mesh_eq (m m' : Mesh) :
  dim m = dim m' -> points m = points m' ->
  facedescriptors m = facedescriptors m' -> elements2D m = elements2D m' ->
  elements1D m = elements1D m' -> cd2names m = cd2names m' -> m = m'.
Proof. destruct m, m'. cbn. now intros -> -> -> -> -> ->. Qed.

Lemma final_mesh_ratio quads nx1 ny1 nx2 ny2 r r' :
  0 <= nx1 -> 0 <= ny1 ->
  mesh (final_frame quads nx1 ny1 nx2 ny2 r')
  = with_lower_y ((ny1 + 1) * (nx1 + 1)) r' (mesh (final_frame quads nx1 ny1 nx2 ny2 r)).
Proof.
  intros Hx1 Hy1.
  pose proof (upper_point_list_length nx1 ny1 Hx1 Hy1) as HU.
  apply Mesh_eq; try reflexivity.
  cbn [with_lower_y points]. rewrite !final_points.
  replace (Z.to_nat ((ny1 + 1) * (nx1 + 1))) with (length (upper_point_list nx1 ny1)) by lia.
  rewrite firstn_app, firstn_all, Nat.sub_diag, skipn_app, skipn_all, Nat.sub_diag.
  cbn [firstn skipn app]. rewrite app_nil_r. f_equal.
  apply lower_point_list_ratio.
Qed.

(** C1, amended: [ratio] is written into the y-coordinate of every
    lower-patch point (with [ratio=0] they all lie at [y=0]) and into nothing
    else: the call with any other ratio [r] returns this call's mesh with the
    y of the points from handle [base1] on overwritten by [r], so the
    upper-patch points, the x and z of the lower-patch points, the elements,
    names, face descriptors and dimension are the same.  The upper row the
    connector strip attaches to is grid row [int(ny1/2)], whatever [ratio]
    is: its points lie at height [int(ny1/2)/ny1], which is 1/2 when [ny1] is
    even, and when [quads=True] connector cell [j] is the quad on the
    seam-row points [j], [j+1] and the lower block's points [j+1], [j]. *)
Theorem attachment_rows quads nx1 ny1 nx2 ny2 ratio :
  1 <= nx1 -> 1 <= ny1 -> 1 <= nx2 -> 1 <= ny2 -> nx1 < ny2 * (nx2 + 1) ->
  let seam := int_half ny1 * (nx1 + 1) in
  let base1 := (ny1 + 1) * (nx1 + 1) in
  exists m,
    MakeTStructureMesh quads nx1 ny1 nx2 ny2 ratio = Ok m /\
    (forall k p, base1 <= k -> nth_error (points m) (Z.to_nat k) = Some p ->
                 pnt_y p = ratio) /\
    (forall r, MakeTStructureMesh quads nx1 ny1 nx2 ny2 r = Ok (with_lower_y base1 r m)) /\
    (forall j, 0 <= j <= nx1 ->
       nth_error (points m) (Z.to_nat (seam + j))
       = Some (mkPnt (inject_Z j / inject_Z nx1)
                     (inject_Z (int_half ny1) / inject_Z ny1) 0)) /\
    (Z.even ny1 = true -> (inject_Z (int_half ny1) / inject_Z ny1 == 1 # 2)%Q) /\
    (quads = true -> forall j, 0 <= j < nx1 ->
       nth_error (elements2D m) (Z.to_nat (nx1 * ny1 + j))
       = Some (mkElement2D 1 (map Z.to_nat [seam + j; seam + j + 1;
                                            base1 + j + 1; base1 + j]))).
Proof.
  intros Hx1 Hy1 Hx2 Hy2 Hfit seam base1.
  pose proof (int_half_bounds ny1 Hy1) as Hh.
  pose proof (upper_point_list_length nx1 ny1 ltac:(lia) ltac:(lia)) as HU.
  eexists. split; [now apply MakeTStructureMesh_Ok|].
  split; [|split].
  - intros k p Hk Hp. rewrite final_points in Hp.
    rewrite nth_error_app2 in Hp by (unfold base1 in Hk; lia).
    apply nth_error_In in Hp.
    pose proof (lower_points_below nx2 ny2 ratio Hx2 Hy2) as HL.
    rewrite Forall_forall in HL. now apply HL.
  - intros r. rewrite MakeTStructureMesh_Ok by assumption. f_equal.
    apply final_mesh_ratio; lia.
  - rewrite final_points, final_elements2D.
    split; [|split].
    + intros j Hj. rewrite nth_error_app1 by (unfold seam; nia).
      apply (upper_point_nth nx1 ny1 (int_half ny1) j); lia.
    + now apply seam_height_half.
    + intros -> j Hj.
      assert (HF : Z.of_nat (length (map face_of (upper_face_list true nx1 ny1)))
                   = nx1 * ny1)
        by (rewrite length_map, upper_face_list_length by lia; cbn [per_cell]; lia).
      rewrite nth_error_app2 by lia.
      pose proof (connector_face_nth true nx1 ny1 (base1_of nx1 ny1) j 0 Hj ltac:(simpl; lia))
        as H0.
      pose proof (connector_face_list_length true nx1 ny1 (base1_of nx1 ny1) ltac:(lia))
        as HC.
      cbn [per_cell] in H0, HC.
      replace (Z.to_nat (nx1 * ny1 + j) - length (map face_of (upper_face_list true nx1 ny1)))%nat
        with (Z.to_nat (1 * j) + 0)%nat by lia.
      rewrite nth_error_app1 by (rewrite length_map; lia).
      now rewrite nth_error_map, H0.
Qed.

Lemma attachment_rows_witness :
  exists m,
    MakeTStructureMesh true 4 4 4 4 0 = Ok m /\
    (forall k p, (4 + 1) * (4 + 1) <= k -> nth_error (points m) (Z.to_nat k) = Some p ->
                 pnt_y p = 0%Q) /\
    (forall r, MakeTStructureMesh true 4 4 4 4 r = Ok (with_lower_y ((4 + 1) * (4 + 1)) r m)) /\
    (forall j, 0 <= j <= 4 ->
       nth_error (points m) (Z.to_nat (int_half 4 * (4 + 1) + j))
       = Some (mkPnt (inject_Z j / inject_Z 4) (inject_Z (int_half 4) / inject_Z 4) 0)) /\
    (Z.even 4 = true -> (inject_Z (int_half 4) / inject_Z 4 == 1 # 2)%Q) /\
    (true = true -> forall j, 0 <= j < 4 ->
       nth_error (elements2D m) (Z.to_nat (4 * 4 + j))
       = Some (mkElement2D 1 (map Z.to_nat [int_half 4 * (4 + 1) + j;
                                            int_half 4 * (4 + 1) + j + 1;
                                            (4 + 1) * (4 + 1) + j + 1;
                                            (4 + 1) * (4 + 1) + j]))).
Proof. apply (attachment_rows true 4 4 4 4 0); lia. Defined.

(** ** The boundary chains *)

Lemma range_nil lo hi : hi <= lo -> range lo hi = [].
Proof. intros H. unfold range. now replace (Z.to_nat (hi - lo)) with 0%nat by lia. Qed.

Lemma range_cons lo hi : lo < hi -> range lo hi = lo :: range (lo + 1) hi.
Proof.
  intros H. unfold range.
  replace (Z.to_nat (hi - lo)) with (S (Z.to_nat (hi - (lo + 1)))) by lia.
  cbn [seq map]. rewrite <- seq_shift, map_map. f_equal; [lia|].
  apply map_ext. intros k. lia.
Qed.

Lemma range_NoDup lo hi : NoDup (range lo hi).
Proof.
  unfold range. apply NoDup_map_NoDup_ForallPairs; [|apply seq_NoDup].
  intros a b _ _. lia.
Qed.

Lemma NoDup_map_range (g : Z -> nat) lo hi :
  (forall i j, lo <= i < hi -> lo <= j < hi -> g i = g j -> i = j) ->
  NoDup (map g (range lo hi)).
Proof.
  intros H. apply NoDup_map_NoDup_ForallPairs; [|apply range_NoDup].
  intros a b Ha Hb. apply range_In in Ha, Hb. now apply H.
Qed.

Lemma flat_map_singleton {A B} (f : A -> B) (l : list A) :
  flat_map (fun i => [f i]) l = map f l.
Proof. induction l as [|a l IH]; simpl; [reflexivity | now rewrite IH]. Qed.

(** Segments that step from [g i] to [g (i+1)] are the edges of the walk
    through [g lo, ..., g hi]. *)
Lemma progression_edges (g : Z -> nat) (seg : Z -> Element1D) (n : nat) : forall lo hi,
  Z.to_nat (hi - lo) = n -> lo <= hi ->
  (forall i, lo <= i < hi -> on_edge (seg i) (g i, g (i + 1))) ->
  Forall2 on_edge (map seg (range lo hi)) (path_edges (map g (range lo (hi + 1)))).
Proof.
  induction n as [|n IH]; intros lo hi Hn Hle Hseg.
  - assert (hi = lo) by lia. subst hi.
    rewrite range_nil by lia. rewrite range_cons, range_nil by lia. constructor.
  - rewrite (range_cons lo hi), (range_cons lo (hi + 1)) by lia.
    specialize (IH (lo + 1) hi ltac:(lia) ltac:(lia)).
    rewrite (range_cons (lo + 1) (hi + 1)) in * by lia.
    cbn [map path_edges] in *. constructor.
    + apply Hseg. lia.
    + apply IH. intros i Hi. apply Hseg. lia.
Qed.

Lemma progression_walk (g : Z -> nat) (seg : Z -> Element1D) n :
  0 <= n ->
  (forall i j, 0 <= i < n + 1 -> 0 <= j < n + 1 -> g i = g j -> i = j) ->
  (forall i, 0 <= i < n -> on_edge (seg i) (g i, g (i + 1))) ->
  walk (map g (range 0 (n + 1))) (map seg (range 0 n)).
Proof.
  intros Hn Hinj Hseg. split.
  - now apply NoDup_map_range.
  - now apply (progression_edges g seg (Z.to_nat (n - 0))).
Qed.

(** A segment from a fresh point [v0] to the head of a walk extends it. *)
Lemma walk_cons v0 v1 vs e segs :
  walk (v1 :: vs) segs -> ~ In v0 (v1 :: vs) -> on_edge e (v0, v1) ->
  walk (v0 :: v1 :: vs) (e :: segs).
Proof.
  intros [Hnd HF] Hin He. split.
  - now constructor.
  - cbn [path_edges]. now constructor.
Qed.

Lemma seg_forward a b k : 0 <= a -> 0 <= b ->
  on_edge (seg_of (a, b, k)) (Z.to_nat a, Z.to_nat b).
Proof. intros. now left. Qed.

Lemma seg_backward a b k : 0 <= a -> 0 <= b ->
  on_edge (seg_of (a, b, k)) (Z.to_nat b, Z.to_nat a).
Proof. intros. now right. Qed.

(** Segments [(a i, b i)], [0 <= i < n], that join [f i] and [f (i+1)] in
    either direction form a chain through [f 0, ..., f n] when [f] is
    injective and non-negative there. *)
Lemma chain_of (a b f : Z -> Z) (k n : Z) :
  0 <= n ->
  (forall i, 0 <= i <= n -> 0 <= f i) ->
  (forall i j, 0 <= i <= n -> 0 <= j <= n -> f i = f j -> i = j) ->
  (forall i, 0 <= i < n ->
     (a i = f i /\ b i = f (i + 1)) \/ (a i = f (i + 1) /\ b i = f i)) ->
  walk (map (fun i => Z.to_nat (f i)) (range 0 (n + 1)))
       (map seg_of (flat_map (fun i => [(a i, b i, k)]) (range 0 n))).
Proof.
  intros Hn Hpos Hinj Hab. rewrite flat_map_singleton, map_map.
  apply (progression_walk (fun i => Z.to_nat (f i))); [assumption| |].
  - intros i j Hi Hj Hij. apply Hinj; try lia.
    pose proof (Hpos i ltac:(lia)). pose proof (Hpos j ltac:(lia)). lia.
  - intros i Hi.
    pose proof (Hpos i ltac:(lia)). pose proof (Hpos (i + 1) ltac:(lia)).
    destruct (Hab i Hi) as [[-> ->]|[-> ->]];
      [now apply seg_forward | now apply seg_backward].
Qed.

Lemma chain_of_ordered (a b f : Z -> Z) (k n : Z) :
  0 <= n ->
  (forall i, 0 <= i <= n -> 0 <= f i) ->
  (forall i j, 0 <= i <= n -> 0 <= j <= n -> f i = f j -> i = j) ->
  (forall i, 0 <= i < n ->
     (a i = f i /\ b i = f (i + 1)) \/ (a i = f (i + 1) /\ b i = f i)) ->
  ordered_chain (map seg_of (flat_map (fun i => [(a i, b i, k)]) (range 0 n))).
Proof. intros. eexists. now apply (chain_of a b f). Qed.

(** The same chain with one more segment that joins a fresh point [v0] to
    [f 0]. *)
Lemma chain_of_headed (a b f : Z -> Z) (k n a0 b0 v0 : Z) :
  0 <= n -> 0 <= v0 ->
  (forall i, 0 <= i <= n -> 0 <= f i) ->
  (forall i j, 0 <= i <= n -> 0 <= j <= n -> f i = f j -> i = j) ->
  (forall i, 0 <= i < n ->
     (a i = f i /\ b i = f (i + 1)) \/ (a i = f (i + 1) /\ b i = f i)) ->
  (forall i, 0 <= i <= n -> v0 <> f i) ->
  (a0 = v0 /\ b0 = f 0) \/ (a0 = f 0 /\ b0 = v0) ->
  ordered_chain (seg_of (a0, b0, k)
                 :: map seg_of (flat_map (fun i => [(a i, b i, k)]) (range 0 n))).
Proof.
  intros Hn Hv Hpos Hinj Hab Hfresh H0.
  pose proof (chain_of a b f k n Hn Hpos Hinj Hab) as Hw.
  rewrite range_cons in Hw by lia. cbn [map] in Hw.
  exists (Z.to_nat v0 :: Z.to_nat (f 0) :: map (fun i => Z.to_nat (f i)) (range (0 + 1) (n + 1))).
  apply walk_cons; [exact Hw | |].
  - change (~ In (Z.to_nat v0) (map (fun i => Z.to_nat (f i)) (0 :: range (0 + 1) (n + 1)))).
    rewrite <- range_cons by lia. rewrite in_map_iff. intros (i & Hi & Hin).
    apply range_In in Hin.
    pose proof (Hpos i ltac:(lia)). apply (Hfresh i); lia.
  - pose proof (Hpos 0 ltac:(lia)).
    destruct H0 as [[-> ->]|[-> ->]]; [now apply seg_forward | now apply seg_backward].
Qed.

Lemma ordered_simple segs : ordered_chain segs -> simple_chain segs.
Proof. intros H. exists segs. split; [apply Permutation_refl | exact H]. Qed.

Section Chains.
Variables (nx1 ny1 nx2 ny2 : Z).
Hypothesis Hnx1 : 1 <= nx1.
Hypothesis Hny1 : 1 <= ny1.
Hypothesis Hnx2 : 1 <= nx2.
Hypothesis Hny2 : 1 <= ny2.

Let base1 := base1_of nx1 ny1.
Let h := int_half ny1.

Ltac affine :=
  unfold base1, base1_of, h in *;
  pose proof (int_half_bounds ny1 Hny1);
  intros; first [lia | nia | (left; split; lia) | (right; split; lia)].

Lemma tag1_chain : ordered_chain (map seg_of (tag1 nx1)).
Proof. apply (chain_of_ordered _ _ (fun i => i)); affine. Qed.

Lemma tag2_chain : ordered_chain (map seg_of (tag2 nx1 ny1)).
Proof. apply (chain_of_ordered _ _ (fun i => i * (nx1 + 1) + nx1)); affine. Qed.

Lemma tag3_chain : ordered_chain (map seg_of (tag3 nx1 ny1)).
Proof. apply (chain_of_ordered _ _ (fun i => ny1 * (nx1 + 1) + i)); affine. Qed.

Lemma tag4_chain : ordered_chain (map seg_of (tag4 nx1 ny1)).
Proof. apply (chain_of_ordered _ _ (fun i => i * (nx1 + 1))); affine. Qed.

Lemma tag5_chain : ordered_chain (map seg_of (tag5 nx1 ny1 nx2)).
Proof. apply (chain_of_ordered _ _ (fun i => h * (nx1 + 1) + i)); affine. Qed.

Lemma tag6_chain : ordered_chain (map seg_of (tag6 nx1 ny1 nx2 ny2 base1)).
Proof.
  unfold tag6. cbn [map].
  apply (chain_of_headed _ _ (fun i => i * (nx2 + 1) + base1) 6 (ny2 - 1) _ _
                         (h * (nx1 + 1))); affine.
Qed.

Lemma tag7_chain : ordered_chain (map seg_of (tag7 nx2 ny2 base1)).
Proof.
  apply (chain_of_ordered _ _ (fun i => (ny2 - 1) * (nx2 + 1) + i + base1)); affine.
Qed.

(** The closing segment of tag 8 reaches the chain's head [base1 + nx2]
    when the two grids have the same number of columns. *)
Lemma tag8_chain :
  nx1 = nx2 ->
  ordered_chain
    (seg_of (base1 + nx1, h * (nx1 + 1) + nx1, 8)
     :: map seg_of
          (flat_map (fun i => [((i + 1) * (nx2 + 1) + nx2 + base1,
                                i * (nx2 + 1) + nx2 + base1, 8)])
                    (range 0 (ny2 - 1)))).
Proof.
  intros Heq.
  apply (chain_of_headed _ _ (fun i => i * (nx2 + 1) + nx2 + base1) 8 (ny2 - 1) _ _
                         (h * (nx1 + 1) + nx1)); affine.
Qed.
End Chains.

(** C8 as stated fails: [MakeTStructureMesh(True,2,2,4,2)] has all counts
    >= 1 and [ny1] even, yet its two segments tagged 8 join the points 18-13
    and 11-5: they share no endpoint, so in no order do they form a
    connected chain. *)
Lemma boundary_chain_counterexample :
  exists m,
    MakeTStructureMesh true 2 2 4 2 (1 # 2) = Ok m /\
    tag_elements 8 m = [mkElement1D [18; 13] 8; mkElement1D [11; 5] 8]%nat /\
    ~ simple_chain (tag_elements 8 m).
Proof.
  eexists. split; [vm_compute; reflexivity|].
  split; [reflexivity|].
  change (~ simple_chain [mkElement1D [18; 13] 8; mkElement1D [11; 5] 8]%nat).
  intros (segs & Hperm & vs & _ & HF).
  apply Permutation_length_2_inv in Hperm.
  destruct vs as [|a [|b [|c [|d vs]]]];
    destruct Hperm as [-> | ->]; cbn [path_edges] in HF;
    inversion HF as [|? ? ? ? H1 HF']; subst;
    inversion HF' as [|? ? ? ? H2 HF'']; subst;
    inversion HF''; subst;
    destruct H1 as [H1|H1], H2 as [H2|H2]; cbn in H1, H2; congruence.
Qed.

(** C8, amended: for all subdivision counts >= 1 with [nx1 = nx2], the
    segments of each tag 1..7 are, in the order they were added, the edges
    of a walk through pairwise distinct points; those of tag 8 are such a
    walk once the closing segment, added last, is put first (it attaches to
    the head of the chain, next to the segment added first).  So the
    segments of every tag form one connected chain that visits no point
    twice. *)
Theorem boundary_chains quads nx1 ny1 nx2 ny2 ratio :
  1 <= nx1 -> 1 <= ny1 -> 1 <= nx2 -> 1 <= ny2 -> nx1 = nx2 ->
  exists m,
    MakeTStructureMesh quads nx1 ny1 nx2 ny2 ratio = Ok m /\
    Forall (fun k => ordered_chain (tag_elements k m)) [1; 2; 3; 4; 5; 6; 7] /\
    (exists front closing,
        tag_elements 8 m = front ++ [closing] /\ ordered_chain (closing :: front)) /\
    Forall (fun k => simple_chain (tag_elements k m)) [1; 2; 3; 4; 5; 6; 7; 8].
Proof.
  intros Hx1 Hy1 Hx2 Hy2 Heq.
  assert (Hfit : nx1 < ny2 * (nx2 + 1)) by nia.
  eexists. split; [now apply MakeTStructureMesh_Ok|].
  assert (H17 : Forall (fun k => ordered_chain
                          (tag_elements k (mesh (final_frame quads nx1 ny1 nx2 ny2 ratio))))
                       [1; 2; 3; 4; 5; 6; 7]).
  { repeat constructor.
    - rewrite tag_elements_1. now apply (tag1_chain nx1 ny1).
    - rewrite tag_elements_2. now apply tag2_chain.
    - rewrite tag_elements_3. now apply tag3_chain.
    - rewrite tag_elements_4. now apply tag4_chain.
    - rewrite tag_elements_5. now apply tag5_chain.
    - rewrite tag_elements_6. now apply tag6_chain.
    - rewrite tag_elements_7. now apply (tag7_chain nx1 ny1). }
  assert (H8 : exists front closing,
             tag_elements 8 (mesh (final_frame quads nx1 ny1 nx2 ny2 ratio))
             = front ++ [closing] /\ ordered_chain (closing :: front)).
  { rewrite tag_elements_8. unfold tag8. rewrite map_app. cbn [map].
    do 2 eexists. split; [reflexivity|]. now apply tag8_chain. }
  split; [exact H17|]. split; [exact H8|].
  apply Forall_app with (l1 := [1; 2; 3; 4; 5; 6; 7]) (l2 := [8]). split.
  - eapply Forall_impl; [|exact H17]. intros k. apply ordered_simple.
  - constructor; [|constructor].
    destruct H8 as (front & closing & -> & Hc).
    exists (closing :: front). split; [|exact Hc].
    apply Permutation_sym, Permutation_cons_append.
Qed.

Lemma boundary_chains_witness :
  exists m,
    MakeTStructureMesh true 4 4 4 4 (1 # 2) = Ok m /\
    Forall (fun k => ordered_chain (tag_elements k m)) [1; 2; 3; 4; 5; 6; 7] /\
    (exists front closing,
        tag_elements 8 m = front ++ [closing] /\ ordered_chain (closing :: front)) /\
    Forall (fun k => simple_chain (tag_elements k m)) [1; 2; 3; 4; 5; 6; 7; 8].
Proof. apply (boundary_chains true 4 4 4 4 (1 # 2)); lia. Defined.

(** * Further properties of the procedure *)

(** ** Subscripts past the end of [pids] *)

Lemma getitem_Raise N p s :
  full_pids N s -> Z.of_nat N <= p -> getitem p s = Raise IndexError.
Proof.
  unfold full_pids, getitem. intros Hs Hp. rewrite Hs, length_seq.
  destruct (Z.ltb_spec p 0); [lia|].
  destruct (Z.leb_spec 0 p); [|lia].
  destruct (Z.ltb_spec p (Z.of_nat N)); [lia | reflexivity].
Qed.

Lemma mapM_getitem_Raise N pre p post : forall s,
  full_pids N s -> Forall (in_bounds N) pre -> Z.of_nat N <= p ->
  mapM getitem (pre ++ p :: post) s = Raise IndexError.
Proof.
  induction pre as [|a pre IH]; intros s Hs Hpre Hp; simpl.
  - now rewrite (bind_Raise _ _ _ _ (getitem_Raise N p s Hs Hp)).
  - inversion Hpre as [|? ? Ha Hpre']; subst.
    rewrite (bind_Ok _ _ _ _ _ (getitem_Ok N a s Hs Ha)).
    apply bind_Raise. now apply IH.
Qed.

Lemma for_each_Raise (body : Z -> M unit) l1 j l2 s s1 e :
  for_each l1 body s = Ok (tt, s1) -> body j s1 = Raise e ->
  for_each (l1 ++ j :: l2) body s = Raise e.
Proof.
  revert s. induction l1 as [|i l1 IH]; intros s H1 Hj; simpl in *.
  - injection H1 as <-. now apply bind_Raise.
  - unfold bind in *. destruct (body i s) as [[[] s']|e']; [|discriminate].
    now apply IH.
Qed.

Lemma range_split lo k hi :
  lo <= k < hi -> range lo hi = range lo k ++ k :: range (k + 1) hi.
Proof.
  intros H. remember (Z.to_nat (k - lo)) as n eqn:Hn.
  revert lo H Hn. induction n as [|n IH]; intros lo H Hn.
  - assert (k = lo) by lia. subst k.
    now rewrite (range_nil lo lo), (range_cons lo hi) by lia.
  - rewrite (range_cons lo hi), (range_cons lo k) by lia.
    simpl. f_equal. apply IH; lia.
Qed.

(** ** The phases on a [pids] list of any sufficient length *)

Ltac run_bounds :=
  unfold in_bounds, base1_of in *;
  repeat match goal with
         | H : 1 <= ?n |- context [int_half ?n] =>
             lazymatch goal with
             | _ : 0 <= int_half n <= n - 1 |- _ => fail
             | _ => pose proof (int_half_bounds n H)
             end
         end;
  nia.

Ltac run_all_bounds := repeat (apply Forall_cons; [run_bounds|]); apply Forall_nil.

Ltac seg_run N :=
  match goal with
  | |- for_each _ _ _ = _ =>
      apply (seg_loop N); [|auto using full_pids_add_segs];
      let i := fresh "i" in let Hi := fresh "Hi" in
      intros i ? Hi ?; apply range_In in Hi;
      apply (add_seg_Ok N); [assumption | run_bounds | run_bounds]
  | |- add_seg _ _ _ _ = _ =>
      apply (add_seg_Ok N); [auto using full_pids_add_segs | run_bounds | run_bounds]
  end.

Lemma upper_faces_run quads nx1 ny1 N s :
  1 <= nx1 -> 1 <= ny1 -> base1_of nx1 ny1 <= Z.of_nat N -> full_pids N s ->
  upper_faces quads nx1 ny1 s = Ok (tt, add_faces (upper_face_list quads nx1 ny1) s).
Proof.
  intros Hx Hy HN. unfold upper_faces, upper_face_list. apply (face_loop N).
  intros i s1 Hi Hs1. apply (face_loop N); [|assumption].
  intros j s2 Hj Hs2. apply range_In in Hi, Hj.
  apply (cell_Ok N); auto; run_bounds.
Qed.

Lemma connector_triangles_run nx1 ny1 base1 N s :
  1 <= nx1 -> 1 <= ny1 -> base1_of nx1 ny1 <= Z.of_nat N -> full_pids N s ->
  connector false nx1 ny1 base1 s
  = Ok (tt, add_faces (connector_face_list false nx1 ny1 base1) s).
Proof.
  intros Hx Hy HN. unfold connector, connector_face_list. apply (face_loop N).
  intros j s1 Hj Hs1. apply range_In in Hj. unfold connector_faces.
  apply (add_triangles_Ok N); auto; run_all_bounds.
Qed.

Lemma lower_faces_run quads nx2 ny2 base1 N s :
  0 <= nx2 -> 0 <= base1 -> base1 + ny2 * (nx2 + 1) <= Z.of_nat N -> full_pids N s ->
  lower_faces quads nx2 ny2 base1 s
  = Ok (tt, add_faces (lower_face_list quads nx2 ny2 base1) s).
Proof.
  intros Hx Hb HN. unfold lower_faces, lower_face_list. apply (face_loop N).
  intros i s1 Hi Hs1. apply (face_loop N); [|assumption].
  intros j s2 Hj Hs2. apply range_In in Hi, Hj.
  apply (cell_Ok N); auto; run_bounds.
Qed.

Lemma upper_boundary_run nx1 ny1 N s :
  1 <= nx1 -> 1 <= ny1 -> base1_of nx1 ny1 <= Z.of_nat N -> full_pids N s ->
  upper_boundary nx1 ny1 s
  = Ok (tt, add_segs (tag4 nx1 ny1) (add_segs (tag3 nx1 ny1)
             (add_segs (tag2 nx1 ny1) (add_segs (tag1 nx1) s)))).
Proof.
  intros Hx Hy HN Hs. unfold upper_boundary.
  erewrite bind_Ok by (unfold tag1; seg_run N).
  erewrite bind_Ok by (unfold tag2; seg_run N).
  erewrite bind_Ok by (unfold tag3; seg_run N).
  unfold tag4; seg_run N.
Qed.

(** ** A lower block too short for the offset [nx1] *)

Section Misfit.
Variables (nx1 ny1 nx2 ny2 : Z) (N : nat).
Hypothesis Hnx1 : 1 <= nx1.
Hypothesis Hny1 : 1 <= ny1.
Hypothesis Hnx2 : 1 <= nx2.
Hypothesis Hny2 : 1 <= ny2.
Hypothesis Hshort : ny2 * (nx2 + 1) <= nx1.
Hypothesis HN : Z.of_nat N = base1_of nx1 ny1 + ny2 * (nx2 + 1).

Let base1 := base1_of nx1 ny1.

(** With [quads=True] the connector cell [j = ny2*(nx2+1) - 1] is the first
    to subscript [pids] at its length. *)
Lemma connector_quads_misfit s :
  full_pids N s -> connector true nx1 ny1 base1 s = Raise IndexError.
Proof.
  intros Hs. unfold connector.
  rewrite (range_split 0 (ny2 * (nx2 + 1) - 1) nx1) by nia.
  eapply for_each_Raise.
  - apply (face_loop N (fun j => connector_faces true nx1 ny1 base1 j)); [|exact Hs].
    intros j s1 Hj Hs1. apply range_In in Hj. unfold connector_faces.
    apply (add_quad_Ok N); auto. unfold base1. run_all_bounds.
  - unfold add_quad. apply bind_Raise.
    apply (mapM_getitem_Raise N [_; _] _ [_]).
    + now apply full_pids_add_faces.
    + unfold base1. run_all_bounds.
    + unfold base1. lia.
Qed.

(** Without quads every face loop completes; the closing segment of tag 8
    subscripts [pids] at [base1 + nx1]. *)
Lemma lower_boundary_misfit s :
  full_pids N s -> lower_boundary nx1 ny1 nx2 ny2 base1 s = Raise IndexError.
Proof.
  intros Hs. unfold lower_boundary, base1.
  erewrite bind_Ok by seg_run N.
  erewrite bind_Ok by seg_run N.
  erewrite bind_Ok by seg_run N.
  erewrite bind_Ok by seg_run N.
  erewrite bind_Ok by seg_run N.
  unfold add_seg. apply bind_Raise.
  apply (mapM_getitem_Raise N [] _ [_]); [auto using full_pids_add_segs | constructor | lia].
Qed.

Lemma connectivity_misfit quads s :
  full_pids N s -> connectivity quads nx1 ny1 nx2 ny2 s = Raise IndexError.
Proof.
  intros Hs. unfold connectivity.
  erewrite bind_Ok by reflexivity.
  erewrite bind_Ok
    by (apply (upper_faces_run quads nx1 ny1 N); auto using full_pids_on_mesh; unfold base1_of in *; nia).
  destruct quads.
  - apply bind_Raise. apply connector_quads_misfit.
    auto using full_pids_on_mesh, full_pids_add_faces.
  - erewrite bind_Ok
      by (apply (connector_triangles_run nx1 ny1 _ N);
          auto using full_pids_on_mesh, full_pids_add_faces; unfold base1_of in *; nia).
    erewrite bind_Ok
      by (apply (lower_faces_run false nx2 ny2 _ N);
          auto using full_pids_on_mesh, full_pids_add_faces; unfold base1_of in *; nia).
    erewrite bind_Ok
      by (apply (upper_boundary_run nx1 ny1 N);
          auto 6 using full_pids_on_mesh, full_pids_add_faces; unfold base1_of in *; nia).
    apply bind_Raise. apply lower_boundary_misfit.
    auto 10 using full_pids_on_mesh, full_pids_add_faces, full_pids_add_segs.
Qed.
End Misfit.

Lemma points_fill nx1 ny1 nx2 ny2 ratio N :
  0 <= nx1 -> 0 <= ny1 -> 0 <= nx2 -> 0 <= ny2 ->
  Z.of_nat N = base1_of nx1 ny1 + ny2 * (nx2 + 1) ->
  full_pids N (add_points (lower_point_list nx2 ny2 ratio)
                 (add_points (upper_point_list nx1 ny1) start)).
Proof.
  intros Hx1 Hy1 Hx2 Hy2 HN. unfold full_pids, add_points. simpl.
  change (length (upper_point_list nx1 ny1))
    with (0 + length (upper_point_list nx1 ny1))%nat at 2.
  rewrite <- seq_app. f_equal.
  pose proof (upper_point_list_length nx1 ny1 Hx1 Hy1).
  pose proof (lower_point_list_length nx2 ny2 ratio Hx2 Hy2).
  unfold base1_of in HN. lia.
Qed.

Lemma MakeTStructureMesh_misfit quads nx1 ny1 nx2 ny2 ratio :
  1 <= nx1 -> 1 <= ny1 -> 1 <= nx2 -> 1 <= ny2 -> ny2 * (nx2 + 1) <= nx1 ->
  MakeTStructureMesh quads nx1 ny1 nx2 ny2 ratio = Raise IndexError.
Proof.
  intros Hx1 Hy1 Hx2 Hy2 Hshort.
  unfold MakeTStructureMesh, exec, MakeTStructureMesh_body.
  erewrite bind_Ok by reflexivity.
  erewrite bind_Ok by (apply all_points_Ok; lia).
  rewrite (connectivity_misfit nx1 ny1 nx2 ny2
             (Z.to_nat (base1_of nx1 ny1 + ny2 * (nx2 + 1)))); try assumption.
  - reflexivity.
  - unfold base1_of. nia.
  - apply points_fill; try lia. unfold base1_of. nia.
Qed.

(** X1: for subdivision counts >= 1 the call returns a mesh exactly when the
    lower block has a point at offset [nx1], i.e. [nx1 < ny2*(nx2+1)], and
    raises [IndexError] exactly when it has not. *)
Theorem completes_iff_lower_block_reaches quads nx1 ny1 nx2 ny2 ratio :
  1 <= nx1 -> 1 <= ny1 -> 1 <= nx2 -> 1 <= ny2 ->
  (nx1 < ny2 * (nx2 + 1)
   <-> exists m, MakeTStructureMesh quads nx1 ny1 nx2 ny2 ratio = Ok m) /\
  (ny2 * (nx2 + 1) <= nx1
   <-> MakeTStructureMesh quads nx1 ny1 nx2 ny2 ratio = Raise IndexError).
Proof.
  intros Hx1 Hy1 Hx2 Hy2.
  destruct (Z.lt_ge_cases nx1 (ny2 * (nx2 + 1))) as [Hfit|Hshort].
  - pose proof (MakeTStructureMesh_Ok quads nx1 ny1 nx2 ny2 ratio Hx1 Hy1 Hx2 Hy2 Hfit) as H.
    split; split; try lia.
    + intros _. eexists. exact H.
    + intros HR. rewrite H in HR. discriminate.
  - pose proof (MakeTStructureMesh_misfit quads nx1 ny1 nx2 ny2 ratio
                  Hx1 Hy1 Hx2 Hy2 Hshort) as H.
    split; split; try lia.
    + intros (m & Hm). rewrite H in Hm. discriminate.
    + intros _. exact H.
Qed.

Lemma completes_iff_lower_block_reaches_witness :
  (4 < 1 * (1 + 1)
   <-> exists m, MakeTStructureMesh false 4 2 1 1 (1 # 2) = Ok m) /\
  (1 * (1 + 1) <= 4
   <-> MakeTStructureMesh false 4 2 1 1 (1 # 2) = Raise IndexError).
Proof.
  apply (completes_iff_lower_block_reaches false 4 2 1 1 (1 # 2)); lia.
Defined.

(** ** Where a division by zero can occur *)

Lemma raises_only_ret {A} e (a : A) : raises_only e (ret a).
Proof. intros s e' H. discriminate. Qed.

Lemma raises_only_modify e f : raises_only e (modify f).
Proof. intros s e' H. discriminate. Qed.

Lemma raises_only_bind {A B} e (c : M A) (k : A -> M B) :
  raises_only e c -> (forall a, raises_only e (k a)) -> raises_only e (bind c k).
Proof.
  intros Hc Hk s e' H. unfold bind in H.
  destruct (c s) as [[a s']|e0] eqn:Hcs.
  - now apply (Hk a s').
  - injection H as <-. now apply (Hc s).
Qed.


Lemma raises_only_getitem p : raises_only IndexError (getitem p).
Proof.
  intros s e' H. unfold getitem in H.
  destruct (_ && _); [destruct (nth_error _ _)|]; congruence.
Qed.

Lemma raises_only_mapM_getitem l : raises_only IndexError (mapM getitem l).
Proof.
  induction l as [|p l IH]; simpl.
  - apply raises_only_ret.
  - apply raises_only_bind; [apply raises_only_getitem|]. intros h.
    apply raises_only_bind; [apply IH|]. intros hs. apply raises_only_ret.
Qed.

Lemma raises_only_add_quad pnum : raises_only IndexError (add_quad pnum).
Proof.
  apply raises_only_bind; [apply raises_only_mapM_getitem|].
  intros hs. apply raises_only_modify.
Qed.

Lemma raises_only_add_triangles pnum1 pnum2 :
  raises_only IndexError (add_triangles pnum1 pnum2).
Proof.
  apply raises_only_bind; [apply raises_only_mapM_getitem|]. intros hs1.
  apply raises_only_bind; [apply raises_only_mapM_getitem|]. intros hs2.
  apply raises_only_bind; [apply raises_only_modify|]. intros _.
  apply raises_only_modify.
Qed.

Lemma raises_only_add_seg a b idx : raises_only IndexError (add_seg a b idx).
Proof.
  apply raises_only_bind; [apply raises_only_mapM_getitem|].
  intros hs. apply raises_only_modify.
Qed.

Lemma raises_only_cell quads nx base : raises_only IndexError (cell quads nx base).
Proof.
  unfold cell. destruct quads;
    [apply raises_only_add_quad | apply raises_only_add_triangles].
Qed.

Lemma raises_only_SetCD2Name k name : raises_only IndexError (SetCD2Name k name).
Proof. apply raises_only_modify. Qed.

Create HintDb raises.
#[local] Hint Resolve raises_only_ret raises_only_add_quad raises_only_add_triangles
  raises_only_add_seg raises_only_cell raises_only_SetCD2Name : raises.



Lemma zero_div_upper_true nx1 ny1 :
  zero_div_upper nx1 ny1 = true <-> 0 <= nx1 /\ 0 <= ny1 /\ (nx1 = 0 \/ ny1 = 0).
Proof.
  unfold zero_div_upper.
  rewrite !andb_true_iff, orb_true_iff, !Z.leb_le, !Z.eqb_eq. tauto.
Qed.


(** The upper point loop on any integers: it divides by zero in its first
    iteration or places the whole grid (no point at all when a count is
    negative). *)
Lemma upper_points_run nx1 ny1 s :
  upper_points nx1 ny1 s
  = if zero_div_upper nx1 ny1 then Raise ZeroDivisionError
    else Ok (tt, add_points (upper_point_list nx1 ny1) s).
Proof.
  destruct (zero_div_upper nx1 ny1) eqn:E.
  - apply zero_div_upper_true in E. destruct E as (Hx & Hy & H0).
    unfold upper_points.
    rewrite (range_cons 0 (ny1 + 1)), (range_cons 0 (nx1 + 1)) by lia.
    cbn [for_each]. apply bind_Raise. apply bind_Raise.
    destruct (Z.eq_dec nx1 0) as [->|Hnz].
    + apply bind_Raise. reflexivity.
    + erewrite bind_Ok by (apply truediv_Ok; lia).
      assert (ny1 = 0) as -> by lia. apply bind_Raise. reflexivity.
  - assert (Hnz : 0 <= nx1 -> 0 <= ny1 -> nx1 <> 0 /\ ny1 <> 0).
    { intros Hx Hy. split; intros Heq;
        assert (T : zero_div_upper nx1 ny1 = true)
          by (apply zero_div_upper_true; lia);
        congruence. }
    unfold upper_points, upper_point_list.
    apply (for_each_upd add_points (fun _ => True));
      auto using add_points_nil, add_points_app.
    intros i s1 Hi _.
    apply (for_each_upd add_points (fun _ => True));
      auto using add_points_nil, add_points_app.
    intros j s2 Hj _. apply range_In in Hi, Hj.
    destruct (Hnz ltac:(lia) ltac:(lia)) as [Hx Hy].
    rewrite (bind_Ok _ _ _ _ _ (truediv_Ok j nx1 s2 Hx)).
    rewrite (bind_Ok _ _ _ _ _ (truediv_Ok i ny1 s2 Hy)).
    apply add_point_Ok.
Qed.



(** ** No lower patch *)

Section NoLowerPatch.
Variables (nx1 ny1 nx2 ny2 : Z) (N : nat).
Hypothesis Hnx1 : 1 <= nx1.
Hypothesis Hny1 : 1 <= ny1.
Hypothesis Hny2 : ny2 <= 0.
Hypothesis HN : Z.of_nat N = base1_of nx1 ny1.

Let base1 := base1_of nx1 ny1.

Lemma connector_quads_no_lower s :
  full_pids N s -> connector true nx1 ny1 base1 s = Raise IndexError.
Proof.
  intros Hs. unfold connector.
  rewrite (range_cons 0 nx1) by lia. cbn [for_each].
  apply bind_Raise. unfold add_quad. apply bind_Raise.
  apply (mapM_getitem_Raise N [_; _] _ [_]); [assumption | | unfold base1; lia].
  run_all_bounds.
Qed.

(** The interface loop may already leave [pids]; if it does not, the first
    segment of tag 6 subscripts [pids] at its length [base1]. *)
Lemma lower_boundary_no_lower s :
  full_pids N s -> lower_boundary nx1 ny1 nx2 ny2 base1 s = Raise IndexError.
Proof.
  intros Hs. unfold lower_boundary.
  pose proof (int_half_bounds ny1 Hny1) as Hh.
  destruct (Z.lt_ge_cases (int_half ny1 * (nx1 + 1) + nx2) base1) as [Hin|Hout].
  - erewrite bind_Ok by (unfold base1 in *; seg_run N).
    apply bind_Raise. unfold add_seg. apply bind_Raise.
    apply (mapM_getitem_Raise N [_] _ []);
      [auto using full_pids_add_segs | unfold base1; run_all_bounds | unfold base1; lia].
  - apply bind_Raise.
    rewrite (range_split 0 (base1 - int_half ny1 * (nx1 + 1) - 1) nx2)
      by (unfold base1, base1_of in *; nia).
    eapply for_each_Raise.
    + apply (seg_loop N (fun i => [(int_half ny1 * (nx1 + 1) + i,
                                    int_half ny1 * (nx1 + 1) + i + 1, 5)])); [|exact Hs].
      intros i s1 Hi Hs1. apply range_In in Hi.
      apply (add_seg_Ok N); [assumption | |]; unfold base1 in *; run_bounds.
    + unfold add_seg. apply bind_Raise.
      apply (mapM_getitem_Raise N [_] _ []);
        [auto using full_pids_add_segs | unfold base1; run_all_bounds | unfold base1; lia].
Qed.

Lemma connectivity_no_lower quads s :
  full_pids N s -> connectivity quads nx1 ny1 nx2 ny2 s = Raise IndexError.
Proof.
  intros Hs. unfold connectivity.
  erewrite bind_Ok by reflexivity.
  erewrite bind_Ok
    by (apply (upper_faces_run quads nx1 ny1 N); auto using full_pids_on_mesh; lia).
  destruct quads.
  - apply bind_Raise. apply connector_quads_no_lower.
    auto using full_pids_on_mesh, full_pids_add_faces.
  - erewrite bind_Ok
      by (apply (connector_triangles_run nx1 ny1 _ N);
          auto using full_pids_on_mesh, full_pids_add_faces; lia).
    assert (Hempty : range 1 ny2 = []) by (apply range_nil; lia).
    unfold lower_faces at 1. rewrite Hempty. cbn [for_each].
    erewrite bind_Ok by reflexivity.
    erewrite bind_Ok
      by (apply (upper_boundary_run nx1 ny1 N);
          auto 6 using full_pids_on_mesh, full_pids_add_faces; lia).
    apply bind_Raise. apply lower_boundary_no_lower.
    auto 10 using full_pids_on_mesh, full_pids_add_faces, full_pids_add_segs.
Qed.
End NoLowerPatch.

(** X3: a lower patch without rows is not a plate without a web: for
    [nx1, ny1 >= 1] and [ny2 <= 0] the lower point loop leaves the frame as
    it is and the call raises [IndexError], whatever [quads], [nx2] and
    [ratio] are. *)
Theorem no_lower_rows_raises_IndexError quads nx1 ny1 nx2 ny2 ratio :
  1 <= nx1 -> 1 <= ny1 -> ny2 <= 0 ->
  (forall s, lower_points nx2 ny2 ratio s = Ok (tt, s)) /\
  MakeTStructureMesh quads nx1 ny1 nx2 ny2 ratio = Raise IndexError.
Proof.
  intros Hx1 Hy1 Hy2.
  assert (HL : forall s, lower_points nx2 ny2 ratio s = Ok (tt, s)).
  { intros s. unfold lower_points. now rewrite (range_nil 1 (ny2 + 1)) by lia. }
  split; [exact HL|].
  unfold MakeTStructureMesh. rewrite exec_phases, upper_points_run.
  destruct (zero_div_upper nx1 ny1) eqn:E;
    [apply zero_div_upper_true in E; lia|].
  rewrite HL.
  rewrite (connectivity_no_lower nx1 ny1 nx2 ny2
             (Z.to_nat (base1_of nx1 ny1))); try assumption.
  - reflexivity.
  - unfold base1_of. nia.
  - unfold full_pids, add_points, start. simpl. f_equal.
    pose proof (upper_point_list_length nx1 ny1 ltac:(lia) ltac:(lia)).
    unfold base1_of. lia.
Qed.

Lemma no_lower_rows_raises_IndexError_witness :
  (forall s, lower_points 4 0 (1 # 2) s = Ok (tt, s)) /\
  MakeTStructureMesh false 4 4 4 0 (1 # 2) = Raise IndexError.
Proof. apply (no_lower_rows_raises_IndexError false 4 4 4 0 (1 # 2)); lia. Defined.

(** ** Every element is sound *)

Lemma NoDup_map_to_nat (l : list Z) :
  Forall (fun p => 0 <= p) l -> NoDup l -> NoDup (map Z.to_nat l).
Proof.
  intros Hpos Hnd. apply NoDup_map_NoDup_ForallPairs; [|exact Hnd].
  rewrite Forall_forall in Hpos. intros a b Ha Hb Hab.
  apply Hpos in Ha, Hb. lia.
Qed.

Ltac distinct :=
  repeat (apply NoDup_cons;
          [cbn [In]; let Hin := fresh "Hin" in
           intros Hin;
           repeat (destruct Hin as [Hin|Hin]; [revert Hin; run_bounds|]);
           destruct Hin|]);
  apply NoDup_nil.

Lemma cell_faces_distinct (quads : bool) nx base :
  1 <= nx ->
  Forall (fun f => length f = (if quads then 4%nat else 3%nat) /\ NoDup f)
         (cell_faces quads nx base).
Proof.
  intros Hnx. destruct quads; cbn [cell_faces];
    repeat (apply Forall_cons; [split; [reflexivity | distinct]|]); apply Forall_nil.
Qed.

Lemma connector_faces_distinct (quads : bool) nx1 ny1 j :
  1 <= nx1 -> 1 <= ny1 -> 0 <= j < nx1 ->
  Forall (fun f => length f = (if quads then 4%nat else 3%nat) /\ NoDup f)
         (connector_faces quads nx1 ny1 (base1_of nx1 ny1) j).
Proof.
  intros Hnx Hny Hj. destruct quads; cbn [connector_faces];
    repeat (apply Forall_cons; [split; [reflexivity | distinct]|]); apply Forall_nil.
Qed.

Lemma faces_distinct (quads : bool) nx1 ny1 nx2 ny2 :
  1 <= nx1 -> 1 <= ny1 -> 1 <= nx2 ->
  Forall (fun f => length f = (if quads then 4%nat else 3%nat) /\ NoDup f)
         (upper_face_list quads nx1 ny1
          ++ connector_face_list quads nx1 ny1 (base1_of nx1 ny1)
          ++ lower_face_list quads nx2 ny2 (base1_of nx1 ny1)).
Proof.
  intros Hx1 Hy1 Hx2. repeat (apply Forall_app; split).
  - apply flat_map_Forall. intros i _. apply flat_map_Forall. intros j _.
    now apply cell_faces_distinct.
  - apply flat_map_Forall. intros j Hj. apply range_In in Hj.
    now apply connector_faces_distinct.
  - apply flat_map_Forall. intros i _. apply flat_map_Forall. intros j _.
    now apply cell_faces_distinct.
Qed.

Lemma singleton_seg_distinct (a b : Z -> Z) (k : Z) (l : list Z) :
  (forall i, In i l -> a i <> b i) ->
  Forall (fun x => NoDup (seg_reads x)) (flat_map (fun i => [(a i, b i, k)]) l).
Proof.
  intros H. apply flat_map_Forall. intros i Hi. constructor; [|constructor].
  cbn [seg_reads]. constructor; [|constructor; [intros []|constructor]].
  intros [Hab|[]]. now apply (H i Hi).
Qed.

Lemma segs_distinct nx1 ny1 nx2 ny2 :
  1 <= nx1 -> 1 <= ny1 -> 1 <= nx2 -> 1 <= ny2 ->
  Forall (fun x => NoDup (seg_reads x))
         (tag1 nx1 ++ tag2 nx1 ny1 ++ tag3 nx1 ny1 ++ tag4 nx1 ny1
          ++ tag5 nx1 ny1 nx2 ++ tag6 nx1 ny1 nx2 ny2 (base1_of nx1 ny1)
          ++ tag7 nx2 ny2 (base1_of nx1 ny1)
          ++ tag8 nx1 ny1 nx2 ny2 (base1_of nx1 ny1)).
Proof.
  intros Hx1 Hy1 Hx2 Hy2. unfold tag6, tag8.
  repeat first
    [ apply Forall_app; split
    | apply Forall_cons; [cbn [seg_reads]; distinct|]
    | apply Forall_nil
    | apply singleton_seg_distinct; intros i Hi; apply range_In in Hi; run_bounds ].
Qed.

Lemma face_of_sound (quads : bool) (n : nat) (f : list Z) :
  (length f = (if quads then 4%nat else 3%nat) /\ NoDup f) ->
  Forall (fun p => 0 <= p < Z.of_nat n) f ->
  el2_index (face_of f) = 1 /\
  length (el2_vertices (face_of f)) = (if quads then 4%nat else 3%nat) /\
  NoDup (el2_vertices (face_of f)) /\
  Forall (fun v => (v < n)%nat) (el2_vertices (face_of f)).
Proof.
  intros [Hlen Hnd] Hb. cbn [face_of el2_index el2_vertices].
  split; [reflexivity|]. split; [now rewrite length_map|]. split.
  - apply NoDup_map_to_nat; [|exact Hnd].
    eapply Forall_impl; [|exact Hb]. intros p Hp. cbv beta in *. lia.
  - apply Forall_map. eapply Forall_impl; [|exact Hb]. intros p Hp. cbv beta in *. lia.
Qed.

Lemma seg_of_sound (n : nat) (x : Z * Z * Z) :
  NoDup (seg_reads x) -> Forall (fun p => 0 <= p < Z.of_nat n) (seg_reads x) ->
  length (el1_vertices (seg_of x)) = 2%nat /\
  NoDup (el1_vertices (seg_of x)) /\
  Forall (fun v => (v < n)%nat) (el1_vertices (seg_of x)).
Proof.
  destruct x as [[a b] k]. cbn [seg_reads seg_of el1_vertices]. intros Hnd Hb.
  split; [reflexivity|]. split.
  - apply (NoDup_map_to_nat [a; b]); [|exact Hnd].
    eapply Forall_impl; [|exact Hb]. intros p Hp. cbv beta in *. lia.
  - apply (Forall_map Z.to_nat (fun v => (v < n)%nat) [a; b]).
    eapply Forall_impl; [|exact Hb]. intros p Hp. cbv beta in *. lia.
Qed.

(** X4: a returned mesh is sound.  It has dimension 3 and the one face
    descriptor its faces refer to; every 2D element has surface index 1 and
    four ([quads]) or three pairwise distinct vertices, every 1D element two
    distinct vertices, and every vertex is the handle of a point of the
    mesh. *)
Theorem returned_mesh_is_sound quads nx1 ny1 nx2 ny2 ratio :
  1 <= nx1 -> 1 <= ny1 -> 1 <= nx2 -> 1 <= ny2 -> nx1 < ny2 * (nx2 + 1) ->
  exists m,
    MakeTStructureMesh quads nx1 ny1 nx2 ny2 ratio = Ok m /\
    dim m = 3 /\
    facedescriptors m = [mkFaceDescriptor 1 1 1] /\
    Forall (fun e => el2_index e = 1 /\
                     length (el2_vertices e) = (if quads then 4%nat else 3%nat) /\
                     NoDup (el2_vertices e) /\
                     Forall (fun v => (v < length (points m))%nat) (el2_vertices e))
           (elements2D m) /\
    Forall (fun e => length (el1_vertices e) = 2%nat /\
                     NoDup (el1_vertices e) /\
                     Forall (fun v => (v < length (points m))%nat) (el1_vertices e))
           (elements1D m).
Proof.
  intros Hx1 Hy1 Hx2 Hy2 Hfit.
  eexists. split; [now apply MakeTStructureMesh_Ok|].
  split; [reflexivity|]. split; [reflexivity|].
  assert (Hlen : Z.of_nat (length (points (mesh (final_frame quads nx1 ny1 nx2 ny2 ratio))))
                 = base1_of nx1 ny1 + ny2 * (nx2 + 1)).
  { rewrite final_points, length_app, Nat2Z.inj_add.
    rewrite upper_point_list_length, lower_point_list_length by lia. reflexivity. }
  split.
  - rewrite final_elements2D, <- !map_app. apply Forall_map.
    pose proof (faces_distinct quads nx1 ny1 nx2 ny2 Hx1 Hy1 Hx2) as Hd.
    pose proof (face_reads_ok quads nx1 ny1 nx2 ny2 Hx1 Hy1 Hx2 Hy2 Hfit) as Hb.
    apply Forall_concat in Hb.
    rewrite Forall_forall in *. intros f Hf.
    apply (face_of_sound quads); [now apply Hd|].
    rewrite Hlen. now apply Hb.
  - rewrite final_elements1D, <- !map_app. apply Forall_map.
    pose proof (segs_distinct nx1 ny1 nx2 ny2 Hx1 Hy1 Hx2 Hy2) as Hd.
    pose proof (seg_reads_ok nx1 ny1 nx2 ny2 Hx1 Hy1 Hx2 Hy2 Hfit) as Hb.
    apply Forall_flat_map in Hb.
    rewrite Forall_forall in *. intros x Hx.
    apply seg_of_sound; [now apply Hd|].
    rewrite Hlen. now apply Hb.
Qed.

Lemma returned_mesh_is_sound_witness :
  exists m,
    MakeTStructureMesh false 4 4 4 4 (1 # 2) = Ok m /\
    dim m = 3 /\
    facedescriptors m = [mkFaceDescriptor 1 1 1] /\
    Forall (fun e => el2_index e = 1 /\
                     length (el2_vertices e) = 3%nat /\
                     NoDup (el2_vertices e) /\
                     Forall (fun v => (v < length (points m))%nat) (el2_vertices e))
           (elements2D m) /\
    Forall (fun e => length (el1_vertices e) = 2%nat /\
                     NoDup (el1_vertices e) /\
                     Forall (fun v => (v < length (points m))%nat) (el1_vertices e))
           (elements1D m).
Proof. apply (returned_mesh_is_sound false 4 4 4 4 (1 # 2)); lia. Defined.

(** ** Blocks of the element list *)

Lemma firstn_exact {A} (n : nat) (a b : list A) :
  length a = n -> firstn n (a ++ b) = a.
Proof.
  intros <-. now rewrite firstn_app, firstn_all, Nat.sub_diag, firstn_0, app_nil_r.
Qed.

Lemma skipn_exact {A} (n : nat) (a b : list A) :
  length a = n -> skipn n (a ++ b) = b.
Proof.
  intros <-. now rewrite skipn_app, skipn_all, Nat.sub_diag.
Qed.

Lemma map_flat_map_rows {A B C} (f : B -> C) (g : A -> list B) (l : list A) :
  map f (flat_map g l) = flat_map (fun x => map f (g x)) l.
Proof.
  induction l as [|x l IH]; simpl; [reflexivity|]. now rewrite map_app, IH.
Qed.

Lemma flat_map_row {A B} (g : A -> list B) (c : nat) (l : list A) :
  (forall x, length (g x) = c) ->
  forall (i : nat) (a : A),
    nth_error l i = Some a -> firstn c (skipn (i * c) (flat_map g l)) = g a.
Proof.
  intros Hc. induction l as [|x l IH]; intros i a Hi.
  - destruct i; discriminate.
  - destruct i as [|i]; simpl in *.
    + injection Hi as ->. now apply firstn_exact.
    + rewrite skipn_app, (skipn_all2 (n := c + i * c)) by (rewrite Hc; lia).
      rewrite Hc. replace (c + i * c - c)%nat with (i * c)%nat by lia.
      simpl. now apply IH.
Qed.

Lemma split_cell nx base :
  flat_map split_quad (map face_of (cell_faces true nx base))
  = map face_of (cell_faces false nx base).
Proof. reflexivity. Qed.

Lemma split_row (g : Z -> Z) nx (l : list Z) :
  flat_map split_quad (map face_of (flat_map (fun j => cell_faces true nx (g j)) l))
  = map face_of (flat_map (fun j => cell_faces false nx (g j)) l).
Proof.
  induction l as [|j l IH]; [reflexivity|]. cbn [flat_map].
  rewrite !map_app, flat_map_app, IH. f_equal.
Qed.

Lemma split_rows (g : Z -> Z -> Z) nx (l1 l2 : list Z) :
  flat_map split_quad
    (map face_of (flat_map (fun i => flat_map (fun j => cell_faces true nx (g i j)) l2) l1))
  = map face_of (flat_map (fun i => flat_map (fun j => cell_faces false nx (g i j)) l2) l1).
Proof.
  induction l1 as [|i l1 IH]; [reflexivity|]. cbn [flat_map].
  rewrite !map_app, flat_map_app, IH. f_equal. apply (split_row (g i)).
Qed.

(** X5: switching [quads] changes the 2D elements only.  The call with
    [quads=False] returns the points, 1D elements, tag names, face
    descriptors and dimension of the call with [quads=True]; its upper-grid
    and lower-grid blocks of 2D elements are the quads of the other call,
    each replaced by the triangles on its corners 1, 2, 4 and 2, 3, 4. *)
Theorem triangles_split_the_grid_quads nx1 ny1 nx2 ny2 ratio :
  1 <= nx1 -> 1 <= ny1 -> 1 <= nx2 -> 1 <= ny2 -> nx1 < ny2 * (nx2 + 1) ->
  exists mq mt,
    MakeTStructureMesh true nx1 ny1 nx2 ny2 ratio = Ok mq /\
    MakeTStructureMesh false nx1 ny1 nx2 ny2 ratio = Ok mt /\
    points mt = points mq /\
    elements1D mt = elements1D mq /\
    cd2names mt = cd2names mq /\
    facedescriptors mt = facedescriptors mq /\
    dim mt = dim mq /\
    firstn (Z.to_nat (2 * (nx1 * ny1))) (elements2D mt)
    = flat_map split_quad (firstn (Z.to_nat (nx1 * ny1)) (elements2D mq)) /\
    skipn (Z.to_nat (2 * (nx1 * ny1 + nx1))) (elements2D mt)
    = flat_map split_quad (skipn (Z.to_nat (nx1 * ny1 + nx1)) (elements2D mq)).
Proof.
  intros Hx1 Hy1 Hx2 Hy2 Hfit.
  do 2 eexists.
  split; [now apply MakeTStructureMesh_Ok|].
  split; [now apply MakeTStructureMesh_Ok|].
  rewrite !final_points, !final_elements1D, !final_elements2D.
  do 5 (split; [reflexivity|]).
  pose proof (upper_face_list_length true nx1 ny1 ltac:(lia) ltac:(lia)) as HUq.
  pose proof (upper_face_list_length false nx1 ny1 ltac:(lia) ltac:(lia)) as HUt.
  pose proof (connector_face_list_length true nx1 ny1 (base1_of nx1 ny1) ltac:(lia)) as HCq.
  pose proof (connector_face_list_length false nx1 ny1 (base1_of nx1 ny1) ltac:(lia)) as HCt.
  cbn [per_cell] in *.
  split.
  - rewrite !firstn_exact by (rewrite length_map; lia).
    symmetry. apply split_rows.
  - rewrite !app_assoc.
    rewrite !skipn_exact by (rewrite length_app, !length_map; lia).
    symmetry. apply split_rows.
Qed.

Lemma triangles_split_the_grid_quads_witness :
  exists mq mt,
    MakeTStructureMesh true 2 2 2 2 (1 # 2) = Ok mq /\
    MakeTStructureMesh false 2 2 2 2 (1 # 2) = Ok mt /\
    points mt = points mq /\
    elements1D mt = elements1D mq /\
    cd2names mt = cd2names mq /\
    facedescriptors mt = facedescriptors mq /\
    dim mt = dim mq /\
    firstn (Z.to_nat (2 * (2 * 2))) (elements2D mt)
    = flat_map split_quad (firstn (Z.to_nat (2 * 2)) (elements2D mq)) /\
    skipn (Z.to_nat (2 * (2 * 2 + 2))) (elements2D mt)
    = flat_map split_quad (skipn (Z.to_nat (2 * 2 + 2)) (elements2D mq)).
Proof. apply (triangles_split_the_grid_quads 2 2 2 2 (1 # 2)); lia. Defined.

(** X6: with [quads=False] the connector strip adds no new face.  Its
    [2*nx1] triangles are, in order, the triangles of the upper-grid row of
    cells [int(ny1/2)], which the upper-grid loop has already added, so all
    their vertices are upper-grid points. *)
Theorem connector_triangles_repeat_upper_row nx1 ny1 nx2 ny2 ratio :
  1 <= nx1 -> 1 <= ny1 -> 1 <= nx2 -> 1 <= ny2 -> nx1 < ny2 * (nx2 + 1) ->
  exists m strip,
    MakeTStructureMesh false nx1 ny1 nx2 ny2 ratio = Ok m /\
    firstn (Z.to_nat (2 * nx1)) (skipn (Z.to_nat (2 * (nx1 * ny1))) (elements2D m)) = strip /\
    firstn (Z.to_nat (2 * nx1)) (skipn (Z.to_nat (2 * (int_half ny1 * nx1))) (elements2D m))
    = strip /\
    2 * (int_half ny1 * nx1) + 2 * nx1 <= 2 * (nx1 * ny1) /\
    Z.of_nat (length strip) = 2 * nx1 /\
    Forall (fun e => Forall (fun v => Z.of_nat v < (ny1 + 1) * (nx1 + 1)) (el2_vertices e))
           strip.
Proof.
  intros Hx1 Hy1 Hx2 Hy2 Hfit.
  pose proof (int_half_bounds ny1 Hy1) as Hh.
  set (row := fun i => flat_map (fun j => cell_faces false nx1 (i * (nx1 + 1) + j))
                                (range 0 nx1)).
  assert (Hrow : forall i, length (map face_of (row i)) = Z.to_nat (2 * nx1)).
  { intros i. unfold row.
    rewrite length_map, (flat_map_constant_length (c := 2%nat)) by reflexivity.
    rewrite range_length. lia. }
  exists (mesh (final_frame false nx1 ny1 nx2 ny2 ratio)),
         (map face_of (row (int_half ny1))).
  split; [now apply MakeTStructureMesh_Ok|].
  rewrite final_elements2D.
  pose proof (upper_face_list_length false nx1 ny1 ltac:(lia) ltac:(lia)) as HU.
  cbn [per_cell] in HU.
  split; [|split; [|split; [nia|split]]].
  - rewrite skipn_exact by (rewrite length_map; lia).
    apply firstn_exact. apply Hrow.
  - rewrite skipn_app, firstn_app.
    replace (Z.to_nat (2 * (int_half ny1 * nx1))
             - length (map face_of (upper_face_list false nx1 ny1)))%nat
      with 0%nat by (rewrite length_map; nia).
    cbn [skipn].
    unfold upper_face_list. fold row. rewrite map_flat_map_rows.
    replace (Z.to_nat (2 * (int_half ny1 * nx1)))
      with (Z.to_nat (int_half ny1 - 0) * Z.to_nat (2 * nx1))%nat by nia.
    rewrite (flat_map_row _ (Z.to_nat (2 * nx1)) _ Hrow _ (int_half ny1))
      by (apply range_nth_error_at; lia).
    rewrite length_skipn, (flat_map_constant_length (c := Z.to_nat (2 * nx1)))
      by (intros; apply Hrow).
    rewrite range_length.
    replace (Z.to_nat (2 * nx1)
             - (Z.to_nat (ny1 - 0) * Z.to_nat (2 * nx1)
                - Z.to_nat (int_half ny1 - 0) * Z.to_nat (2 * nx1)))%nat
      with 0%nat by nia.
    rewrite firstn_0. apply app_nil_r.
  - rewrite Hrow. lia.
  - apply Forall_map. unfold row. apply flat_map_Forall. intros j Hj.
    apply range_In in Hj. cbn [cell_faces].
    apply Forall_cons; [|apply Forall_cons; [|apply Forall_nil]];
      cbn [face_of el2_vertices map];
      repeat (apply Forall_cons; [nia|]); apply Forall_nil.
Qed.

Lemma connector_triangles_repeat_upper_row_witness :
  exists m strip,
    MakeTStructureMesh false 4 4 4 4 (1 # 2) = Ok m /\
    firstn (Z.to_nat (2 * 4)) (skipn (Z.to_nat (2 * (4 * 4))) (elements2D m)) = strip /\
    firstn (Z.to_nat (2 * 4)) (skipn (Z.to_nat (2 * (int_half 4 * 4))) (elements2D m))
    = strip /\
    2 * (int_half 4 * 4) + 2 * 4 <= 2 * (4 * 4) /\
    Z.of_nat (length strip) = 2 * 4 /\
    Forall (fun e => Forall (fun v => Z.of_nat v < (4 + 1) * (4 + 1)) (el2_vertices e))
           strip.
Proof. apply (connector_triangles_repeat_upper_row 4 4 4 4 (1 # 2)); lia. Defined.

(** ** The geometry of the tagged boundaries *)

Lemma int_quotient_zero b : 1 <= b -> (inject_Z 0 / inject_Z b == 0)%Q.
Proof.
  intros Hb. destruct b as [|p|p]; try lia.
  unfold Qdiv, Qinv, Qmult, Qeq, inject_Z. simpl. lia.
Qed.

Lemma int_quotient_one b : 1 <= b -> (inject_Z b / inject_Z b == 1)%Q.
Proof.
  intros Hb. destruct b as [|p|p]; try lia.
  unfold Qdiv, Qinv, Qmult, Qeq, inject_Z. simpl. lia.
Qed.

Lemma int_quotient_minus_one b : 1 <= b -> (inject_Z (- b) / inject_Z b == - (1))%Q.
Proof.
  intros Hb. destruct b as [|p|p]; try lia.
  unfold Qdiv, Qinv, Qmult, Qeq, inject_Z. simpl. lia.
Qed.

Lemma int_quotient_nonpos a b :
  1 <= a <= b -> (inject_Z (- a) / inject_Z b <= 0)%Q.
Proof. intros H. apply Qlt_le_weak. now apply int_quotient_below. Qed.

Section BoundaryGeometry.
Variables (nx1 ny1 nx2 ny2 : Z) (ratio : Q).
Hypothesis Hnx1 : 1 <= nx1.
Hypothesis Hny1 : 1 <= ny1.
Hypothesis Hnx2 : 1 <= nx2.
Hypothesis Hny2 : 1 <= ny2.
Hypothesis Haligned : nx1 = nx2.

Let pts := upper_point_list nx1 ny1 ++ lower_point_list nx2 ny2 ratio.
Let h := int_half ny1.

Lemma upper_at i j idx :
  0 <= i <= ny1 -> 0 <= j <= nx1 -> idx = i * (nx1 + 1) + j ->
  nth_error pts (Z.to_nat idx) = Some (pnt_upper nx1 ny1 i j).
Proof.
  intros Hi Hj ->. unfold pts.
  pose proof (upper_point_list_length nx1 ny1 ltac:(lia) ltac:(lia)).
  rewrite nth_error_app1 by nia. now apply upper_point_nth.
Qed.

Lemma lower_at i j idx :
  1 <= i <= ny2 -> 0 <= j <= nx2 ->
  idx = base1_of nx1 ny1 + (i - 1) * (nx2 + 1) + j ->
  nth_error pts (Z.to_nat idx) = Some (pnt_lower nx2 ny2 ratio i j).
Proof.
  intros Hi Hj ->. unfold pts, base1_of.
  pose proof (upper_point_list_length nx1 ny1 ltac:(lia) ltac:(lia)).
  rewrite nth_error_app2 by nia.
  replace (Z.to_nat ((ny1 + 1) * (nx1 + 1) + (i - 1) * (nx2 + 1) + j)
           - length (upper_point_list nx1 ny1))%nat
    with (Z.to_nat ((i - 1) * (nx2 + 1) + j)) by nia.
  now apply lower_point_nth.
Qed.

Let lies_here := lies_on_its_boundary pts ny1 ratio.

Lemma seg_lies a b k pa pb :
  nth_error pts (Z.to_nat a) = Some pa -> nth_error pts (Z.to_nat b) = Some pb ->
  on_boundary ny1 ratio k pa -> on_boundary ny1 ratio k pb ->
  lies_here (seg_of (a, b, k)).
Proof.
  intros Ha Hb Pa Pb. unfold lies_here, lies_on_its_boundary. cbn [seg_of el1_vertices el1_index].
  constructor; [now exists pa|]. constructor; [now exists pb|]. constructor.
Qed.

Lemma singles_lie (a b : Z -> Z) k (l : list Z) :
  (forall i, In i l -> lies_here (seg_of (a i, b i, k))) ->
  Forall lies_here (map seg_of (flat_map (fun i => [(a i, b i, k)]) l)).
Proof.
  intros H. rewrite flat_map_singleton, map_map. apply Forall_map.
  apply Forall_forall. exact H.
Qed.

Ltac upper i j := apply (upper_at i j); [lia | lia | unfold base1_of; nia].
Ltac lower i j := apply (lower_at i j); [lia | lia | unfold base1_of; nia].
Ltac line :=
  cbn [on_boundary pnt_upper pnt_lower pnt_x pnt_y pnt_z]; split;
  first [ reflexivity
        | apply int_quotient_zero; lia
        | apply int_quotient_one; lia
        | apply int_quotient_minus_one; lia
        | apply int_quotient_nonpos; lia
        | apply Qle_refl ].

Lemma tag1_lies : Forall lies_here (map seg_of (tag1 nx1)).
Proof.
  apply singles_lie. intros i Hi. apply range_In in Hi.
  eapply seg_lies; [upper 0 i | upper 0 (i + 1) | line | line].
Qed.

Lemma tag2_lies : Forall lies_here (map seg_of (tag2 nx1 ny1)).
Proof.
  apply singles_lie. intros i Hi. apply range_In in Hi.
  eapply seg_lies; [upper i nx1 | upper (i + 1) nx1 | line | line].
Qed.

Lemma tag3_lies : Forall lies_here (map seg_of (tag3 nx1 ny1)).
Proof.
  apply singles_lie. intros i Hi. apply range_In in Hi.
  eapply seg_lies; [upper ny1 (i + 1) | upper ny1 i | line | line].
Qed.

Lemma tag4_lies : Forall lies_here (map seg_of (tag4 nx1 ny1)).
Proof.
  apply singles_lie. intros i Hi. apply range_In in Hi.
  eapply seg_lies; [upper (i + 1) 0 | upper i 0 | line | line].
Qed.

Lemma tag5_lies : Forall lies_here (map seg_of (tag5 nx1 ny1 nx2)).
Proof.
  pose proof (int_half_bounds ny1 Hny1).
  apply singles_lie. intros i Hi. apply range_In in Hi.
  eapply seg_lies; [upper (int_half ny1) i | upper (int_half ny1) (i + 1) | line | line].
Qed.

Lemma tag6_lies :
  Forall lies_here (map seg_of (tag6 nx1 ny1 nx2 ny2 (base1_of nx1 ny1))).
Proof.
  pose proof (int_half_bounds ny1 Hny1).
  unfold tag6. cbn [map]. constructor.
  - eapply seg_lies; [upper (int_half ny1) 0 | lower 1 0 | line | line].
  - apply singles_lie. intros i Hi. apply range_In in Hi.
    eapply seg_lies; [lower (i + 1) 0 | lower (i + 2) 0 | line | line].
Qed.

Lemma tag7_lies :
  Forall lies_here (map seg_of (tag7 nx2 ny2 (base1_of nx1 ny1))).
Proof.
  apply singles_lie. intros i Hi. apply range_In in Hi.
  eapply seg_lies; [lower ny2 i | lower ny2 (i + 1) | line | line].
Qed.

Lemma tag8_lies :
  Forall lies_here (map seg_of (tag8 nx1 ny1 nx2 ny2 (base1_of nx1 ny1))).
Proof.
  pose proof (int_half_bounds ny1 Hny1).
  unfold tag8. rewrite map_app. apply Forall_app. split.
  - apply singles_lie. intros i Hi. apply range_In in Hi.
    eapply seg_lies; [lower (i + 2) nx2 | lower (i + 1) nx2 | line | line].
  - cbn [map]. constructor; [|constructor].
    eapply seg_lies; [lower 1 nx2 | upper (int_half ny1) nx1 | line | line].
Qed.

Lemma boundaries_lie :
  Forall lies_here
    (map seg_of (tag1 nx1) ++ map seg_of (tag2 nx1 ny1)
     ++ map seg_of (tag3 nx1 ny1) ++ map seg_of (tag4 nx1 ny1)
     ++ map seg_of (tag5 nx1 ny1 nx2)
     ++ map seg_of (tag6 nx1 ny1 nx2 ny2 (base1_of nx1 ny1))
     ++ map seg_of (tag7 nx2 ny2 (base1_of nx1 ny1))
     ++ map seg_of (tag8 nx1 ny1 nx2 ny2 (base1_of nx1 ny1))).
Proof.
  repeat (apply Forall_app; split);
    auto using tag1_lies, tag2_lies, tag3_lies, tag4_lies, tag5_lies, tag6_lies,
      tag7_lies, tag8_lies.
Qed.
End BoundaryGeometry.

(** X7: with aligned grids every tagged boundary lies where the mesh edge
    it is named after lies.  Both endpoints of every 1D element are points
    of the mesh on the line of the element's tag: [y=0], [x=1], [y=1],
    [x=0] at [z=0] for tags 1..4, the seam row [y = int(ny1/2)/ny1] at
    [z=0] for tag 5, [x=0] and [x=1] with [z <= 0] for tags 6 and 8, and
    [z=-1] at [y=ratio] for tag 7. *)
Theorem tagged_boundaries_lie_on_their_lines quads nx1 ny1 nx2 ny2 ratio :
  1 <= nx1 -> 1 <= ny1 -> 1 <= nx2 -> 1 <= ny2 -> nx1 = nx2 ->
  exists m,
    MakeTStructureMesh quads nx1 ny1 nx2 ny2 ratio = Ok m /\
    Forall (lies_on_its_boundary (points m) ny1 ratio) (elements1D m).
Proof.
  intros Hx1 Hy1 Hx2 Hy2 Heq.
  assert (Hfit : nx1 < ny2 * (nx2 + 1)) by nia.
  eexists. split; [now apply MakeTStructureMesh_Ok|].
  rewrite final_points, final_elements1D. now apply boundaries_lie.
Qed.

Lemma tagged_boundaries_lie_on_their_lines_witness :
  exists m,
    MakeTStructureMesh true 4 4 4 4 (1 # 2) = Ok m /\
    Forall (lies_on_its_boundary (points m) 4 (1 # 2)) (elements1D m).
Proof. apply (tagged_boundaries_lie_on_their_lines true 4 4 4 4 (1 # 2)); lia. Defined.

(** ** No point is left unused *)

Lemma corner_of_some_cell nx nrows i j :
  1 <= nx -> 1 <= nrows -> 0 <= i <= nrows -> 0 <= j <= nx ->
  exists i' j',
    0 <= i' < nrows /\ 0 <= j' < nx /\
    (i * (nx + 1) + j = i' * (nx + 1) + j' \/
     i * (nx + 1) + j = i' * (nx + 1) + j' + 1 \/
     i * (nx + 1) + j = i' * (nx + 1) + j' + nx + 1 \/
     i * (nx + 1) + j = i' * (nx + 1) + j' + nx + 2).
Proof.
  intros Hnx Hnr Hi Hj.
  destruct (Z.eq_dec i nrows) as [Ei|Ei], (Z.eq_dec j nx) as [Ej|Ej].
  - exists (i - 1), (j - 1). repeat split; lia.
  - exists (i - 1), j. repeat split; lia.
  - exists i, (j - 1). repeat split; lia.
  - exists i, j. repeat split; lia.
Qed.

Lemma cell_covers quads nx b k :
  k = b \/ k = b + 1 \/ k = b + nx + 1 \/ k = b + nx + 2 ->
  exists f, In f (cell_faces quads nx b) /\ In k f.
Proof.
  intros H. destruct quads; cbn [cell_faces].
  - eexists. split; [left; reflexivity|]. cbn [In]. intuition.
  - destruct H as [H|[H|[H|H]]].
    + eexists. split; [left; reflexivity|]. cbn [In]. intuition.
    + eexists. split; [left; reflexivity|]. cbn [In]. intuition.
    + eexists. split; [left; reflexivity|]. cbn [In]. intuition.
    + eexists. split; [right; left; reflexivity|]. cbn [In]. intuition.
Qed.

Lemma upper_point_covered quads nx1 ny1 i j :
  1 <= nx1 -> 1 <= ny1 -> 0 <= i <= ny1 -> 0 <= j <= nx1 ->
  exists f, In f (upper_face_list quads nx1 ny1) /\ In (i * (nx1 + 1) + j) f.
Proof.
  intros Hx Hy Hi Hj.
  destruct (corner_of_some_cell nx1 ny1 i j Hx Hy Hi Hj) as (i' & j' & Hi' & Hj' & Hk).
  destruct (cell_covers quads nx1 (i' * (nx1 + 1) + j') _ Hk) as (f & Hf & Hin).
  exists f. split; [|exact Hin]. unfold upper_face_list.
  apply in_flat_map. exists i'. split; [apply range_In; lia|].
  apply in_flat_map. exists j'. split; [apply range_In; lia | exact Hf].
Qed.

Lemma lower_point_covered quads nx2 ny2 base1 r j :
  1 <= nx2 -> 2 <= ny2 -> 0 <= r <= ny2 - 1 -> 0 <= j <= nx2 ->
  exists f, In f (lower_face_list quads nx2 ny2 base1) /\
            In (base1 + r * (nx2 + 1) + j) f.
Proof.
  intros Hx Hy Hr Hj.
  destruct (corner_of_some_cell nx2 (ny2 - 1) r j Hx ltac:(lia) Hr Hj)
    as (i' & j' & Hi' & Hj' & Hk).
  destruct (cell_covers quads nx2 (base1 + (i' + 1 - 1) * (nx2 + 1) + j')
                        (base1 + r * (nx2 + 1) + j)) as (f & Hf & Hin).
  { replace (i' + 1 - 1) with i' by lia. lia. }
  exists f. split; [|exact Hin]. unfold lower_face_list.
  apply in_flat_map. exists (i' + 1). split; [apply range_In; lia|].
  apply in_flat_map. exists j'. split; [apply range_In; lia | exact Hf].
Qed.

Lemma last_row_covered nx2 ny2 base1 j :
  1 <= nx2 -> 0 <= j <= nx2 ->
  exists x, In x (tag7 nx2 ny2 base1) /\
            In ((ny2 - 1) * (nx2 + 1) + j + base1) (seg_reads x).
Proof.
  intros Hx Hj. unfold tag7. destruct (Z.eq_dec j nx2) as [E|E].
  - eexists. split.
    + apply in_flat_map. exists (j - 1). split; [apply range_In; lia|]. left. reflexivity.
    + cbn [seg_reads In]. right. left. lia.
  - eexists. split.
    + apply in_flat_map. exists j. split; [apply range_In; lia|]. left. reflexivity.
    + cbn [seg_reads In]. left. reflexivity.
Qed.

(** X8: every point of a returned mesh is a vertex of some element: an
    upper-grid point of an upper-grid face, a lower-grid point of a
    lower-grid face or, when the lower grid has a single row, of a segment
    of its far edge (tag 7). *)
Theorem every_point_is_used quads nx1 ny1 nx2 ny2 ratio :
  1 <= nx1 -> 1 <= ny1 -> 1 <= nx2 -> 1 <= ny2 -> nx1 < ny2 * (nx2 + 1) ->
  exists m,
    MakeTStructureMesh quads nx1 ny1 nx2 ny2 ratio = Ok m /\
    forall v, (v < length (points m))%nat ->
      (exists e, In e (elements2D m) /\ In v (el2_vertices e)) \/
      (exists e, In e (elements1D m) /\ In v (el1_vertices e)).
Proof.
  intros Hx1 Hy1 Hx2 Hy2 Hfit.
  eexists. split; [now apply MakeTStructureMesh_Ok|].
  rewrite final_points, final_elements2D, final_elements1D, length_app.
  pose proof (upper_point_list_length nx1 ny1 ltac:(lia) ltac:(lia)) as HU.
  pose proof (lower_point_list_length nx2 ny2 ratio ltac:(lia) ltac:(lia)) as HL.
  intros v Hv. set (k := Z.of_nat v).
  assert (Hface : forall fs f, In f fs -> In k f ->
            In (face_of f) (map face_of fs) /\ In v (el2_vertices (face_of f))).
  { intros fs f Hf Hk. split; [now apply in_map|].
    cbn [face_of el2_vertices]. replace v with (Z.to_nat k) by (unfold k; lia).
    now apply in_map. }
  destruct (Z.lt_ge_cases k ((ny1 + 1) * (nx1 + 1))) as [Hup|Hlow].
  - left.
    pose proof (Z.div_mod k (nx1 + 1) ltac:(lia)) as Hdm.
    pose proof (Z.mod_pos_bound k (nx1 + 1) ltac:(lia)) as Hm.
    assert (0 <= k / (nx1 + 1) <= ny1)
      by (split; [apply Z.div_pos; lia | nia]).
    destruct (upper_point_covered quads nx1 ny1 (k / (nx1 + 1)) (k mod (nx1 + 1)))
      as (f & Hf & Hin); try lia.
    replace (k / (nx1 + 1) * (nx1 + 1) + k mod (nx1 + 1)) with k in Hin by lia.
    destruct (Hface _ f Hf Hin) as [He Hve].
    exists (face_of f). split; [|exact Hve]. apply in_or_app. now left.
  - set (k' := k - (ny1 + 1) * (nx1 + 1)).
    pose proof (Z.div_mod k' (nx2 + 1) ltac:(lia)) as Hdm.
    pose proof (Z.mod_pos_bound k' (nx2 + 1) ltac:(lia)) as Hm.
    assert (Hk' : 0 <= k' < ny2 * (nx2 + 1)) by (unfold k', k; lia).
    assert (0 <= k' / (nx2 + 1) <= ny2 - 1)
      by (split; [apply Z.div_pos; lia | nia]).
    destruct (Z.eq_dec ny2 1) as [E1|E1].
    + right.
      destruct (last_row_covered nx2 ny2 (base1_of nx1 ny1) (k' mod (nx2 + 1)))
        as ([[a b] t] & Hx & Hin); try lia.
      replace ((ny2 - 1) * (nx2 + 1) + k' mod (nx2 + 1) + base1_of nx1 ny1)
        with k in Hin by (unfold k', base1_of in *; nia).
      exists (seg_of (a, b, t)). split.
      * do 6 (apply in_or_app; right). apply in_or_app. left. now apply in_map.
      * cbn [seg_of el1_vertices]. replace v with (Z.to_nat k) by (unfold k; lia).
        apply (in_map Z.to_nat [a; b]). exact Hin.
    + left.
      destruct (lower_point_covered quads nx2 ny2 (base1_of nx1 ny1)
                  (k' / (nx2 + 1)) (k' mod (nx2 + 1)))
        as (f & Hf & Hin); try lia.
      replace (base1_of nx1 ny1 + k' / (nx2 + 1) * (nx2 + 1) + k' mod (nx2 + 1))
        with k in Hin by (unfold k', base1_of in *; lia).
      destruct (Hface _ f Hf Hin) as [He Hve].
      exists (face_of f). split; [|exact Hve].
      apply in_or_app. right. apply in_or_app. now right.
Qed.

Lemma every_point_is_used_witness :
  exists m,
    MakeTStructureMesh false 4 4 4 1 (1 # 2) = Ok m /\
    forall v, (v < length (points m))%nat ->
      (exists e, In e (elements2D m) /\ In v (el2_vertices e)) \/
      (exists e, In e (elements1D m) /\ In v (el1_vertices e)).
Proof. apply (every_point_is_used false 4 4 4 1 (1 # 2)); lia. Defined.

(** ** Boundary segments are edges of faces *)

Lemma quad_edge_along (fs : list (list Z)) c0 c1 c2 c3 a b k :
  In [c0; c1; c2; c3] fs -> k <= 5 ->
  (a = c0 /\ b = c1) \/ (a = c1 /\ b = c2) \/ (a = c2 /\ b = c3) \/ (a = c3 /\ b = c0) ->
  bounds_a_face (map face_of fs) (seg_of (a, b, k)).
Proof.
  intros Hin Hk H. exists (face_of [c0; c1; c2; c3]). split; [now apply in_map|].
  cbn [seg_of el1_index]. destruct (Z.leb_spec k 5); [|lia].
  unfold runs_along. cbn [face_of el2_vertices el1_vertices map cyclic_edges app path_edges].
  destruct H as [[-> ->]|[[-> ->]|[[-> ->]|[-> ->]]]];
    (eexists (_, _); split; [|reflexivity]); cbn [In]; auto.
Qed.

Lemma quad_edge_against (fs : list (list Z)) c0 c1 c2 c3 a b k :
  In [c0; c1; c2; c3] fs -> 5 < k ->
  (b = c0 /\ a = c1) \/ (b = c1 /\ a = c2) \/ (b = c2 /\ a = c3) \/ (b = c3 /\ a = c0) ->
  bounds_a_face (map face_of fs) (seg_of (a, b, k)).
Proof.
  intros Hin Hk H. exists (face_of [c0; c1; c2; c3]). split; [now apply in_map|].
  cbn [seg_of el1_index]. destruct (Z.leb_spec k 5); [lia|].
  unfold runs_against. cbn [face_of el2_vertices el1_vertices map cyclic_edges app path_edges].
  destruct H as [[-> ->]|[[-> ->]|[[-> ->]|[-> ->]]]];
    (eexists (_, _); split; [|reflexivity]); cbn [In]; auto.
Qed.

Section BoundaryEdges.
Variables (nx1 ny1 nx2 ny2 : Z).
Hypothesis Hnx1 : 1 <= nx1.
Hypothesis Hny1 : 1 <= ny1.
Hypothesis Hnx2 : 1 <= nx2.
Hypothesis Hny2 : 1 <= ny2.
Hypothesis Haligned : nx1 = nx2.

Let base1 := base1_of nx1 ny1.
Let faces := upper_face_list true nx1 ny1
             ++ connector_face_list true nx1 ny1 base1
             ++ lower_face_list true nx2 ny2 base1.
Let bounded := bounds_a_face (map face_of faces).

Lemma upper_quad_In i j :
  0 <= i < ny1 -> 0 <= j < nx1 ->
  In [i * (nx1 + 1) + j; i * (nx1 + 1) + j + 1;
      i * (nx1 + 1) + j + nx1 + 2; i * (nx1 + 1) + j + nx1 + 1] faces.
Proof.
  intros Hi Hj. unfold faces. apply in_or_app. left. unfold upper_face_list.
  apply in_flat_map. exists i. split; [apply range_In; lia|].
  apply in_flat_map. exists j. split; [apply range_In; lia|]. left. reflexivity.
Qed.

Lemma connector_quad_In j :
  0 <= j < nx1 ->
  In [int_half ny1 * (nx1 + 1) + j; int_half ny1 * (nx1 + 1) + j + 1;
      base1 + j + 1; base1 + j] faces.
Proof.
  intros Hj. unfold faces. apply in_or_app. right. apply in_or_app. left.
  unfold connector_face_list. apply in_flat_map. exists j.
  split; [apply range_In; lia|]. left. reflexivity.
Qed.

Lemma lower_quad_In i j :
  1 <= i < ny2 -> 0 <= j < nx2 ->
  In [base1 + (i - 1) * (nx2 + 1) + j; base1 + (i - 1) * (nx2 + 1) + j + 1;
      base1 + (i - 1) * (nx2 + 1) + j + nx2 + 2;
      base1 + (i - 1) * (nx2 + 1) + j + nx2 + 1] faces.
Proof.
  intros Hi Hj. unfold faces. apply in_or_app. right. apply in_or_app. right.
  unfold lower_face_list.
  apply in_flat_map. exists i. split; [apply range_In; lia|].
  apply in_flat_map. exists j. split; [apply range_In; lia|]. left. reflexivity.
Qed.

Lemma singles_bounded (a b : Z -> Z) k (l : list Z) :
  (forall i, In i l -> bounded (seg_of (a i, b i, k))) ->
  Forall bounded (map seg_of (flat_map (fun i => [(a i, b i, k)]) l)).
Proof.
  intros H. rewrite flat_map_singleton, map_map. apply Forall_map.
  apply Forall_forall. exact H.
Qed.

Ltac along q := eapply quad_edge_along; [apply q; lia | lia | unfold base1, base1_of; lia].
Ltac against q :=
  eapply quad_edge_against; [apply q; lia | lia | unfold base1, base1_of; lia].

Lemma tag1_bounded : Forall bounded (map seg_of (tag1 nx1)).
Proof.
  apply singles_bounded. intros i Hi. apply range_In in Hi.
  along (upper_quad_In 0 i).
Qed.

Lemma tag2_bounded : Forall bounded (map seg_of (tag2 nx1 ny1)).
Proof.
  apply singles_bounded. intros i Hi. apply range_In in Hi.
  along (upper_quad_In i (nx1 - 1)).
Qed.

Lemma tag3_bounded : Forall bounded (map seg_of (tag3 nx1 ny1)).
Proof.
  apply singles_bounded. intros i Hi. apply range_In in Hi.
  along (upper_quad_In (ny1 - 1) i).
Qed.

Lemma tag4_bounded : Forall bounded (map seg_of (tag4 nx1 ny1)).
Proof.
  apply singles_bounded. intros i Hi. apply range_In in Hi.
  along (upper_quad_In i 0).
Qed.

Lemma tag5_bounded : Forall bounded (map seg_of (tag5 nx1 ny1 nx2)).
Proof.
  apply singles_bounded. intros i Hi. apply range_In in Hi.
  along (connector_quad_In i).
Qed.

Lemma tag6_bounded : Forall bounded (map seg_of (tag6 nx1 ny1 nx2 ny2 base1)).
Proof.
  unfold tag6. cbn [map]. constructor.
  - against (connector_quad_In 0).
  - apply singles_bounded. intros i Hi. apply range_In in Hi.
    against (lower_quad_In (i + 1) 0).
Qed.

Lemma tag7_bounded : Forall bounded (map seg_of (tag7 nx2 ny2 base1)).
Proof.
  apply singles_bounded. intros i Hi. apply range_In in Hi.
  destruct (Z.eq_dec ny2 1) as [E|E].
  - against (connector_quad_In i).
  - against (lower_quad_In (ny2 - 1) i).
Qed.

Lemma tag8_bounded : Forall bounded (map seg_of (tag8 nx1 ny1 nx2 ny2 base1)).
Proof.
  unfold tag8. rewrite map_app. apply Forall_app. split.
  - apply singles_bounded. intros i Hi. apply range_In in Hi.
    against (lower_quad_In (i + 1) (nx2 - 1)).
  - cbn [map]. constructor; [|constructor].
    against (connector_quad_In (nx1 - 1)).
Qed.

Lemma boundaries_bounded :
  Forall bounded
    (map seg_of (tag1 nx1) ++ map seg_of (tag2 nx1 ny1)
     ++ map seg_of (tag3 nx1 ny1) ++ map seg_of (tag4 nx1 ny1)
     ++ map seg_of (tag5 nx1 ny1 nx2)
     ++ map seg_of (tag6 nx1 ny1 nx2 ny2 base1)
     ++ map seg_of (tag7 nx2 ny2 base1)
     ++ map seg_of (tag8 nx1 ny1 nx2 ny2 base1)).
Proof.
  repeat (apply Forall_app; split);
    auto using tag1_bounded, tag2_bounded, tag3_bounded, tag4_bounded, tag5_bounded,
      tag6_bounded, tag7_bounded, tag8_bounded.
Qed.
End BoundaryEdges.

(** X9: with [quads=True] and aligned grids every 1D element is an edge of
    a quad of the mesh.  The segments of tags 1..5 run in the direction of
    that quad's vertex cycle, the segments of tags 6..8 (the lower plate)
    against it. *)
Theorem boundary_segments_are_quad_edges nx1 ny1 nx2 ny2 ratio :
  1 <= nx1 -> 1 <= ny1 -> 1 <= nx2 -> 1 <= ny2 -> nx1 = nx2 ->
  exists m,
    MakeTStructureMesh true nx1 ny1 nx2 ny2 ratio = Ok m /\
    Forall (bounds_a_face (elements2D m)) (elements1D m).
Proof.
  intros Hx1 Hy1 Hx2 Hy2 Heq.
  assert (Hfit : nx1 < ny2 * (nx2 + 1)) by nia.
  eexists. split; [now apply MakeTStructureMesh_Ok|].
  rewrite final_elements2D, <- !map_app, final_elements1D.
  now apply boundaries_bounded.
Qed.

Lemma boundary_segments_are_quad_edges_witness :
  exists m,
    MakeTStructureMesh true 4 4 4 4 (1 # 2) = Ok m /\
    Forall (bounds_a_face (elements2D m)) (elements1D m).
Proof. apply (boundary_segments_are_quad_edges 4 4 4 4 (1 # 2)); lia. Defined.

(** ** No two points coincide *)

Lemma int_quotient_inj a b n :
  1 <= n -> (inject_Z a / inject_Z n == inject_Z b / inject_Z n)%Q -> a = b.
Proof.
  intros Hn. destruct n as [|p|p]; try lia.
  unfold Qdiv, Qinv, Qmult, Qeq, inject_Z. simpl. nia.
Qed.

Lemma point_of_index nx1 ny1 nx2 ny2 ratio (v : nat) :
  1 <= nx1 -> 1 <= ny1 -> 1 <= nx2 -> 1 <= ny2 ->
  (v < length (upper_point_list nx1 ny1 ++ lower_point_list nx2 ny2 ratio))%nat ->
  (exists i j, 0 <= i <= ny1 /\ 0 <= j <= nx1 /\
               Z.of_nat v = i * (nx1 + 1) + j /\
               nth_error (upper_point_list nx1 ny1 ++ lower_point_list nx2 ny2 ratio) v
               = Some (pnt_upper nx1 ny1 i j)) \/
  (exists i j, 1 <= i <= ny2 /\ 0 <= j <= nx2 /\
               Z.of_nat v = (ny1 + 1) * (nx1 + 1) + (i - 1) * (nx2 + 1) + j /\
               nth_error (upper_point_list nx1 ny1 ++ lower_point_list nx2 ny2 ratio) v
               = Some (pnt_lower nx2 ny2 ratio i j)).
Proof.
  intros Hx1 Hy1 Hx2 Hy2 Hv. rewrite length_app in Hv.
  pose proof (upper_point_list_length nx1 ny1 ltac:(lia) ltac:(lia)) as HU.
  pose proof (lower_point_list_length nx2 ny2 ratio ltac:(lia) ltac:(lia)) as HL.
  set (k := Z.of_nat v).
  destruct (Z.lt_ge_cases k ((ny1 + 1) * (nx1 + 1))) as [Hup|Hlow].
  - left.
    pose proof (Z.div_mod k (nx1 + 1) ltac:(lia)) as Hdm.
    pose proof (Z.mod_pos_bound k (nx1 + 1) ltac:(lia)) as Hm.
    assert (0 <= k / (nx1 + 1) <= ny1) by (split; [apply Z.div_pos; lia | nia]).
    exists (k / (nx1 + 1)), (k mod (nx1 + 1)).
    split; [lia|]. split; [lia|]. split; [lia|].
    rewrite nth_error_app1 by lia.
    replace v with (Z.to_nat (k / (nx1 + 1) * (nx1 + 1) + k mod (nx1 + 1)))
      by (unfold k in *; lia).
    apply upper_point_nth; lia.
  - right. set (k' := k - (ny1 + 1) * (nx1 + 1)).
    pose proof (Z.div_mod k' (nx2 + 1) ltac:(lia)) as Hdm.
    pose proof (Z.mod_pos_bound k' (nx2 + 1) ltac:(lia)) as Hm.
    assert (Hk' : 0 <= k' < ny2 * (nx2 + 1)) by (unfold k', k; lia).
    assert (0 <= k' / (nx2 + 1) <= ny2 - 1) by (split; [apply Z.div_pos; lia | nia]).
    exists (k' / (nx2 + 1) + 1), (k' mod (nx2 + 1)).
    split; [lia|]. split; [lia|]. split; [unfold k' in *; lia|].
    rewrite nth_error_app2 by lia.
    replace (v - length (upper_point_list nx1 ny1))%nat
      with (Z.to_nat ((k' / (nx2 + 1) + 1 - 1) * (nx2 + 1) + k' mod (nx2 + 1)))
      by (unfold k', k in *; lia).
    apply lower_point_nth; lia.
Qed.

(** X10: no two points of the mesh coincide.  The lower patch leaves out its
    row at [z = 0], so it does not repeat the seam row of the upper patch:
    points at different positions of the sequence differ in a coordinate
    (as exact quotients; neighbouring values differ by [1/n] for a count
    [n], which doubles keep apart). *)
Theorem points_are_pairwise_distinct quads nx1 ny1 nx2 ny2 ratio :
  1 <= nx1 -> 1 <= ny1 -> 1 <= nx2 -> 1 <= ny2 -> nx1 < ny2 * (nx2 + 1) ->
  exists m,
    MakeTStructureMesh quads nx1 ny1 nx2 ny2 ratio = Ok m /\
    forall a b pa pb,
      nth_error (points m) a = Some pa -> nth_error (points m) b = Some pb ->
      (pnt_x pa == pnt_x pb)%Q -> (pnt_y pa == pnt_y pb)%Q -> (pnt_z pa == pnt_z pb)%Q ->
      a = b.
Proof.
  intros Hx1 Hy1 Hx2 Hy2 Hfit.
  eexists. split; [now apply MakeTStructureMesh_Ok|].
  rewrite final_points. intros a b pa pb Ha Hb Ex Ey Ez.
  assert (La : (a < length (upper_point_list nx1 ny1 ++ lower_point_list nx2 ny2 ratio))%nat)
    by (apply nth_error_Some; congruence).
  assert (Lb : (b < length (upper_point_list nx1 ny1 ++ lower_point_list nx2 ny2 ratio))%nat)
    by (apply nth_error_Some; congruence).
  destruct (point_of_index nx1 ny1 nx2 ny2 ratio a Hx1 Hy1 Hx2 Hy2 La)
    as [(i & j & Hi & Hj & Ea & Pa)|(i & j & Hi & Hj & Ea & Pa)];
  destruct (point_of_index nx1 ny1 nx2 ny2 ratio b Hx1 Hy1 Hx2 Hy2 Lb)
    as [(i' & j' & Hi' & Hj' & Eb & Pb)|(i' & j' & Hi' & Hj' & Eb & Pb)];
  rewrite Pa in Ha; rewrite Pb in Hb;
  injection Ha as <-; injection Hb as <-;
  cbn [pnt_upper pnt_lower pnt_x pnt_y pnt_z] in Ex, Ey, Ez.
  - apply int_quotient_inj in Ex; [|lia]. apply int_quotient_inj in Ey; [|lia]. lia.
  - exfalso. pose proof (int_quotient_below i' ny2 ltac:(lia)) as [_ Hlt].
    rewrite <- Ez in Hlt. now apply Qlt_irrefl in Hlt.
  - exfalso. pose proof (int_quotient_below i ny2 ltac:(lia)) as [_ Hlt].
    rewrite Ez in Hlt. now apply Qlt_irrefl in Hlt.
  - apply int_quotient_inj in Ex; [|lia]. apply int_quotient_inj in Ez; [|lia]. lia.
Qed.

Lemma points_are_pairwise_distinct_witness :
  exists m,
    MakeTStructureMesh true 4 4 4 4 (1 # 2) = Ok m /\
    forall a b pa pb,
      nth_error (points m) a = Some pa -> nth_error (points m) b = Some pb ->
      (pnt_x pa == pnt_x pb)%Q -> (pnt_y pa == pnt_y pb)%Q -> (pnt_z pa == pnt_z pb)%Q ->
      a = b.
Proof. apply (points_are_pairwise_distinct true 4 4 4 4 (1 # 2)); lia. Defined.

(** ** Without quads no face joins the two plates *)

(** X11: with [quads=False] the returned mesh consists of two plates that
    share no face: every 2D element has either only upper-grid vertices or
    only lower-grid vertices.  With [quads=True] each connector quad has two
    vertices of either kind. *)
Theorem triangle_mesh_plates_share_no_face nx1 ny1 nx2 ny2 ratio :
  1 <= nx1 -> 1 <= ny1 -> 1 <= nx2 -> 1 <= ny2 -> nx1 < ny2 * (nx2 + 1) ->
  let base1 := (ny1 + 1) * (nx1 + 1) in
  exists mt mq,
    MakeTStructureMesh false nx1 ny1 nx2 ny2 ratio = Ok mt /\
    Forall (fun e => Forall (fun v => Z.of_nat v < base1) (el2_vertices e) \/
                     Forall (fun v => base1 <= Z.of_nat v) (el2_vertices e))
           (elements2D mt) /\
    MakeTStructureMesh true nx1 ny1 nx2 ny2 ratio = Ok mq /\
    forall j, 0 <= j < nx1 ->
      exists e a b c d,
        nth_error (elements2D mq) (Z.to_nat (nx1 * ny1 + j)) = Some e /\
        el2_vertices e = [a; b; c; d] /\
        Z.of_nat a < base1 /\ Z.of_nat b < base1 /\
        base1 <= Z.of_nat c /\ base1 <= Z.of_nat d.
Proof.
  intros Hx1 Hy1 Hx2 Hy2 Hfit base1.
  pose proof (int_half_bounds ny1 Hy1) as Hh.
  do 2 eexists.
  split; [now apply MakeTStructureMesh_Ok|]. split; [|split].
  - rewrite final_elements2D.
    assert (Hup : forall fs, Forall (Forall (fun p => 0 <= p < base1)) fs ->
              Forall (fun e => Forall (fun v => Z.of_nat v < base1) (el2_vertices e) \/
                               Forall (fun v => base1 <= Z.of_nat v) (el2_vertices e))
                     (map face_of fs)).
    { intros fs H. apply Forall_map. eapply Forall_impl; [|exact H].
      intros f Hf. left. cbn [face_of el2_vertices]. apply Forall_map.
      eapply Forall_impl; [|exact Hf]. intros p Hp. cbv beta in *. lia. }
    assert (Hlo : forall fs, Forall (Forall (fun p => base1 <= p)) fs ->
              Forall (fun e => Forall (fun v => Z.of_nat v < base1) (el2_vertices e) \/
                               Forall (fun v => base1 <= Z.of_nat v) (el2_vertices e))
                     (map face_of fs)).
    { intros fs H. apply Forall_map. eapply Forall_impl; [|exact H].
      intros f Hf. right. cbn [face_of el2_vertices]. apply Forall_map.
      eapply Forall_impl; [|exact Hf]. intros p Hp. cbv beta in *.
      assert (0 <= base1) by (unfold base1; nia). lia. }
    repeat (apply Forall_app; split).
    + apply Hup. apply flat_map_Forall. intros i Hi. apply flat_map_Forall.
      intros j Hj. apply range_In in Hi, Hj.
      apply cell_faces_Forall; unfold base1; nia.
    + apply Hup. apply flat_map_Forall. intros j Hj. apply range_In in Hj.
      cbn [connector_faces].
      repeat (apply Forall_cons; [repeat (apply Forall_cons; [unfold base1; nia|]);
                                  apply Forall_nil|]).
      apply Forall_nil.
    + apply Hlo. apply flat_map_Forall. intros i Hi. apply flat_map_Forall.
      intros j Hj. apply range_In in Hi, Hj.
      apply cell_faces_Forall; unfold base1, base1_of; nia.
  - now apply MakeTStructureMesh_Ok.
  - intros j Hj. rewrite final_elements2D.
    assert (HF : Z.of_nat (length (map face_of (upper_face_list true nx1 ny1)))
                 = nx1 * ny1)
      by (rewrite length_map, upper_face_list_length by lia; cbn [per_cell]; lia).
    pose proof (connector_face_nth true nx1 ny1 (base1_of nx1 ny1) j 0 Hj ltac:(simpl; lia))
      as H0.
    pose proof (connector_face_list_length true nx1 ny1 (base1_of nx1 ny1) ltac:(lia))
      as HC.
    cbn [per_cell] in H0, HC.
    rewrite nth_error_app2 by lia.
    replace (Z.to_nat (nx1 * ny1 + j) - length (map face_of (upper_face_list true nx1 ny1)))%nat
      with (Z.to_nat (1 * j) + 0)%nat by lia.
    rewrite nth_error_app1 by (rewrite length_map; lia).
    rewrite nth_error_map, H0. cbn [connector_faces nth_error option_map face_of map].
    do 5 eexists. split; [reflexivity|]. split; [reflexivity|].
    unfold base1, base1_of. repeat split; nia.
Qed.

Lemma triangle_mesh_plates_share_no_face_witness :
  exists mt mq,
    MakeTStructureMesh false 4 4 4 4 (1 # 2) = Ok mt /\
    Forall (fun e => Forall (fun v => Z.of_nat v < (4 + 1) * (4 + 1)) (el2_vertices e) \/
                     Forall (fun v => (4 + 1) * (4 + 1) <= Z.of_nat v) (el2_vertices e))
           (elements2D mt) /\
    MakeTStructureMesh true 4 4 4 4 (1 # 2) = Ok mq /\
    forall j, 0 <= j < 4 ->
      exists e a b c d,
        nth_error (elements2D mq) (Z.to_nat (4 * 4 + j)) = Some e /\
        el2_vertices e = [a; b; c; d] /\
        Z.of_nat a < (4 + 1) * (4 + 1) /\ Z.of_nat b < (4 + 1) * (4 + 1) /\
        (4 + 1) * (4 + 1) <= Z.of_nat c /\ (4 + 1) * (4 + 1) <= Z.of_nat d.
Proof. apply (triangle_mesh_plates_share_no_face 4 4 4 4 (1 # 2)); lia. Defined.
